(** * PPCGCodeGeneration: a shallow embedding of Polly's accelerator code
    generator (lib/CodeGen/PPCGCodeGeneration.cpp) and the properties of it
    that the design document states.

    Conventions of the embedding.
    - LLVM values, types and instructions are data: a [Value] is identified
      by what created it, a [Ty] is a small syntax of first-class types.
    - isl objects are taken at one fixed valuation of the parameters, the
      one at which the generated code is followed: an affine expression
      over the parameters is an [option Z] ([None] outside its domain), a
      set of array elements is a box or a finite list of points. A region
      carries its instances at the other valuations of its context, for
      the question whether an array has an offset, which isl answers for
      all valuations at once.
    - Code emission is an event trace: the run-time library calls inserted
      into the host function, and the instructions inserted into the kernel
      module under construction.
    - [assert], [llvm_unreachable], a dereferenced null pointer, a null
      operand of a call and a write past the end of a vector end a run
      with [Fatal]. *)

From Stdlib Require Import ZArith List String Bool Lia.
From stdpp Require Import base decidable option list strings pretty.
Import ListNotations.

#[local] Open Scope Z_scope.

(* ===================================================================== *)
(** * Part I: the model                                                   *)
(* ===================================================================== *)

(** ** LLVM types and values *)

Module LLVM.

(** The first-class types the generator meets. *)
Inductive Ty : Type :=
| VoidTy
| HalfTy
| FloatTy
| DoubleTy
| IntegerTy (bits : Z)
| PointerTy (pointee : Ty) (addrspace : Z)
| VectorTy (n : Z) (elt : Ty)
| FunctionTy.

#[global] Instance Ty_eq_dec : EqDecision Ty.
Proof. solve_decision. Defined.

(** [Type::getPrimitiveSizeInBits]: zero for a type that is not primitive
    (pointers, functions, void). *)
Fixpoint getPrimitiveSizeInBits (T : Ty) : Z :=
  match T with
  | HalfTy => 16
  | FloatTy => 32
  | DoubleTy => 64
  | IntegerTy b => b
  | VectorTy n e => n * getPrimitiveSizeInBits e
  | VoidTy | PointerTy _ _ | FunctionTy => 0
  end.

Definition getScalarType (T : Ty) : Ty :=
  match T with VectorTy _ e => e | _ => T end.

Definition getScalarSizeInBits (T : Ty) : Z :=
  getPrimitiveSizeInBits (getScalarType T).

Definition getInt8PtrTy (addrspace : Z) : Ty := PointerTy (IntegerTy 8) addrspace.
Definition getInt64Ty : Ty := IntegerTy 64.
Definition getInt32Ty : Ty := IntegerTy 32.

(** Pointer width of the kernel module, read off the data layout strings
    of [computeNVPTXDataLayout] and [computeSPIRDataLayout]:
    ["e-p:64:64:64-..."] when [is64Bit], ["e-p:32:32:32-..."] otherwise. *)
Definition pointerSizeInBits (is64Bit : bool) : Z :=
  if is64Bit then 64 else 32.

(** Size in bytes of an object of type [T] under such a layout
    (every integer and floating-point width the layouts list is stored
    in [ceil (bits / 8)] bytes). *)
Fixpoint sizeOfType (is64Bit : bool) (T : Ty) : Z :=
  match T with
  | HalfTy => 2
  | FloatTy => 4
  | DoubleTy => 8
  | IntegerTy b => (b + 7) / 8
  | PointerTy _ _ => pointerSizeInBits is64Bit / 8
  | VectorTy n e => n * sizeOfType is64Bit e
  | VoidTy | FunctionTy => 0
  end.

(** An [llvm::Value], identified by its origin. *)
Inductive Value : Type :=
| HostValue (name : string) (ty : Ty)
    (* a value of the host function: instruction, argument or global *)
| FunctionValue (name : string) (intrinsic : bool) (kernel_module : option Z)
    (* an [llvm::Function], of the host module ([None]) or declared in
       the module of a kernel *)
| KernelArgument (kernel : Z) (argno : nat) (ty : Ty)
    (* formal argument [argno] of the kernel function of kernel [kernel] *)
| KernelIntrinsicRead (kernel : Z) (name : string)
    (* a thread or block index read inside a kernel, cast to i64 *)
| KernelVariable (kernel : Z) (name : string) (shared : bool)
    (* a shared global or a private alloca of a kernel *)
| ScalarAlloca (array : string) (infn : option Z)
    (* the stack slot of a scalar, in the host function ([None]) or in
       a kernel function *)
| RuntimeResult (call : string) (subject : string)
    (* the result of a call to the run-time library *)
| InductionVariable (iterator : string) (infn : option Z)
    (* the counter of a generated loop *).

#[global] Instance Value_eq_dec : EqDecision Value.
Proof. solve_decision. Defined.

Definition getType (V : Value) : Ty :=
  match V with
  | HostValue _ ty => ty
  | FunctionValue _ _ _ => PointerTy FunctionTy 0
  | KernelArgument _ _ ty => ty
  | KernelIntrinsicRead _ _ => getInt64Ty
  | KernelVariable _ _ shared => PointerTy VoidTy (if shared then 3 else 0)
  | ScalarAlloca _ _ => PointerTy VoidTy 0
  | RuntimeResult _ _ => getInt8PtrTy 0
  | InductionVariable _ _ => getInt64Ty
  end.

(** A function under construction: the host function, or the entry point
    of the kernel [FnKernel] with its formal argument types. *)
Record Function : Type := mkFunction {
  FnName : string;
  FnKernel : option Z;
  FnArgs : list Ty
}.

Definition arg_size (F : Function) : nat := length (FnArgs F).

(** [isa<Function>(V)] *)
Definition isaFunction (V : Value) : bool :=
  match V with FunctionValue _ _ _ => true | _ => false end.

(** An instruction of the original program: the block it lives in and
    its operands. The callee of a call is its last operand. *)
Record Instruction : Type := mkInstruction {
  InstName : string;
  InstParent : string;
  IsCall : bool;
  Operands : list Value
}.

(** [CallInst::getCalledFunction]: null for an indirect call. *)
Definition getCalledFunction (Call : Instruction) : option Value :=
  match last (Operands Call) with
  | Some F => if isaFunction F then Some F else None
  | None => None
  end.

Record BasicBlock : Type := mkBasicBlock {
  BBName : string;
  Insts : list Instruction
}.

(** A user of a value: an instruction, or something else (a constant
    expression, say). [dyn_cast<Instruction>] tells them apart. *)
Inductive User : Type :=
| UserInstruction (Inst : Instruction)
| UserOther (name : string).

Definition dyn_cast_Instruction (U : User) : option Instruction :=
  match U with UserInstruction Inst => Some Inst | UserOther _ => None end.

End LLVM.
Import LLVM.

(** Given an LLVM Type, compute its size in bytes. *)
Definition computeSizeInBytes (T : Ty) : Z :=
  let bytes := getPrimitiveSizeInBits T / 8 in
  if bytes =? 0 then getScalarSizeInBits T / 8 else bytes.

(** ** isl objects at a fixed valuation of the parameters *)

Module Isl.

Definition isl_id := string.

(** A piecewise affine expression over the parameters: its value, or
    [None] where the valuation lies outside its domain (a NULL
    [isl_pw_aff] is [None] as well). *)
Definition pw_aff := option Z.

Definition isl_pw_aff_add (a b : pw_aff) : pw_aff :=
  match a, b with Some x, Some y => Some (x + y) | _, _ => None end.
Definition isl_pw_aff_mul (a b : pw_aff) : pw_aff :=
  match a, b with Some x, Some y => Some (x * y) | _, _ => None end.

(** What the accessed elements and the extents have in common. *)
Class SetLike (S : Type) := {
  isl_set_is_empty : S -> bool;
  isl_set_dim_min : S -> nat -> pw_aff;
  isl_set_dim_max : S -> nat -> pw_aff
}.

(** *** Finite sets of tuples: statement instances and accessed elements *)

Definition tuple : Type := isl_id * list Z.
Definition union_set := list tuple.
Definition union_map := list (tuple * tuple).
Definition point_set := list (list Z).

#[global] Instance tuple_eq_dec : EqDecision tuple.
Proof. solve_decision. Defined.

Definition isl_union_map_intersect_domain (m : union_map) (d : union_set) : union_map :=
  filter (fun p => p.1 ∈ d) m.
Definition isl_union_map_range (m : union_map) : union_set := map snd m.
Definition isl_union_set_is_empty (u : union_set) : bool :=
  match u with [] => true | _ => false end.
Definition isl_union_set_extract_set (u : union_set) (space : isl_id * nat) : point_set :=
  map snd (filter (fun t => t.1 = space.1 /\ length t.2 = space.2) u).

Definition coordinate (i : nat) (p : list Z) : Z := nth i p 0.

Definition fold_opt (f : Z -> Z -> Z) (l : list Z) : pw_aff :=
  match l with
  | [] => None
  | x :: r => Some (fold_left f r x)
  end.

#[global] Instance point_set_like : SetLike point_set := {
  isl_set_is_empty s := match s with [] => true | _ => false end;
  isl_set_dim_min s i := fold_opt Z.min (map (coordinate i) s);
  isl_set_dim_max s i := fold_opt Z.max (map (coordinate i) s)
}.

(** *** Boxes: the sets [getExtent] builds *)

(** One dimension: closed bounds, [None] for no bound. *)
Record interval := mkInterval { lower : option Z; upper : option Z }.

Definition unbounded : interval := mkInterval None None.
Definition at_least (c : Z) : interval := mkInterval (Some c) None.
Definition at_most (c : Z) : interval := mkInterval None (Some c).
Definition exactly (c : Z) : interval := mkInterval (Some c) (Some c).

Definition meet_lower (a b : option Z) : option Z :=
  match a, b with
  | Some x, Some y => Some (Z.max x y)
  | Some x, None | None, Some x => Some x
  | None, None => None
  end.
Definition meet_upper (a b : option Z) : option Z :=
  match a, b with
  | Some x, Some y => Some (Z.min x y)
  | Some x, None | None, Some x => Some x
  | None, None => None
  end.
Definition meet (a b : interval) : interval :=
  mkInterval (meet_lower (lower a) (lower b)) (meet_upper (upper a) (upper b)).

Definition interval_is_empty (i : interval) : bool :=
  match lower i, upper i with
  | Some l, Some u => u <? l
  | _, _ => false
  end.

Inductive set : Type :=
| empty_set (n : nat)
| box (dims : list interval).

Definition isl_set_n_dim (s : set) : nat :=
  match s with empty_set n => n | box d => length d end.
Definition isl_set_empty (n : nat) : set := empty_set n.
Definition isl_set_universe (n : nat) : set := box (replicate n unbounded).

Definition isl_set_intersect (a b : set) : set :=
  match a, b with
  | box x, box y => box (zip_with meet x y)
  | _, _ => empty_set (isl_set_n_dim a)
  end.

Definition constrain (s : set) (i : nat) (c : interval) : set :=
  match s with
  | box d => box (alter (meet c) i d)
  | empty_set n => empty_set n
  end.
Definition isl_set_lower_bound_si (s : set) (i : nat) (c : Z) : set :=
  constrain s i (at_least c).
Definition isl_set_fix_si (s : set) (i : nat) (c : Z) : set :=
  constrain s i (exactly c).

(** [{ x : pa <= x_i }], [{ x : pa >= x_i }] and [{ x : pa > x_i }]
    for [pa] constant in [x]; empty where [pa] is undefined. *)
Definition isl_pw_aff_le_set (pa : pw_aff) (n i : nat) : set :=
  match pa with
  | Some c => constrain (isl_set_universe n) i (at_least c)
  | None => empty_set n
  end.
Definition isl_pw_aff_ge_set (pa : pw_aff) (n i : nat) : set :=
  match pa with
  | Some c => constrain (isl_set_universe n) i (at_most c)
  | None => empty_set n
  end.
Definition isl_pw_aff_gt_set (pa : pw_aff) (n i : nat) : set :=
  match pa with
  | Some c => constrain (isl_set_universe n) i (at_most (c - 1))
  | None => empty_set n
  end.

Definition box_is_empty (s : set) : bool :=
  match s with
  | empty_set _ => true
  | box d => existsb interval_is_empty d
  end.

(** The optimum of a dimension is defined where the set is not empty;
    an unbounded dimension has none. *)
#[global] Instance box_set_like : SetLike set := {
  isl_set_is_empty := box_is_empty;
  isl_set_dim_min s i :=
    match s with
    | box d => if box_is_empty s then None else d !! i ≫= lower
    | empty_set _ => None
    end;
  isl_set_dim_max s i :=
    match s with
    | box d => if box_is_empty s then None else d !! i ≫= upper
    | empty_set _ => None
    end
}.

Definition isl_set_project_out (s : set) (first n : nat) : set :=
  match s with
  | box d =>
      if box_is_empty s then empty_set (length d - n)
      else box (take first d ++ drop (first + n) d)
  | empty_set k => empty_set (k - n)
  end.

(** The lexicographically smallest element, as a one-point box. *)
Definition isl_set_lexmin (s : set) : set :=
  match s with
  | box d =>
      if box_is_empty s then empty_set (length d)
      else match mapM lower d with
           | Some ls => box (map exactly ls)
           | None => empty_set (length d)
           end
  | empty_set n => empty_set n
  end.

Definition interval_subset (a b : interval) : bool :=
  match lower b with
  | Some lb => match lower a with Some la => lb <=? la | None => false end
  | None => true
  end &&
  match upper b with
  | Some ub => match upper a with Some ua => ua <=? ub | None => false end
  | None => true
  end.

Definition isl_set_is_subset (a b : set) : bool :=
  box_is_empty a ||
  match a, b with
  | box x, box y => forallb (fun p => interval_subset p.1 p.2) (zip x y)
  | _, _ => false
  end.

End Isl.
Import Isl.

(** ** The region as ScopInfo describes it *)

Module Polly.

Inductive MemoryKind := MK_Array | MK_Value | MK_PHI | MK_ExitPHI.

#[global] Instance MemoryKind_eq_dec : EqDecision MemoryKind.
Proof. solve_decision. Defined.

Record ScopArrayInfo : Type := mkScopArrayInfo {
  BasePtr : Value;
  BasePtrUsers : list User;          (* getBasePtr()->users() *)
  BasePtrId : isl_id;
  Kind : MemoryKind;
  ElementType : Ty;
  ElemSizeInBytes : Z;
  DimensionSizesPw : list (option pw_aff);
    (* getDimensionSizePw(i), one entry per dimension; the outermost one
       is a null pointer unless the array is a Fortran array *)
  IsReadOnly : bool
}.

Definition isPHIKind (SAI : ScopArrayInfo) : bool := bool_decide (Kind SAI = MK_PHI).
Definition isValueKind (SAI : ScopArrayInfo) : bool := bool_decide (Kind SAI = MK_Value).
Definition getNumberOfDimensions (SAI : ScopArrayInfo) : nat :=
  length (DimensionSizesPw SAI).
Definition getSpace (SAI : ScopArrayInfo) : isl_id * nat :=
  (BasePtrId SAI, getNumberOfDimensions SAI).
Definition getDimensionSizePw (SAI : ScopArrayInfo) (i : nat) : option pw_aff :=
  mjoin (DimensionSizesPw SAI !! i).

(** What the closure extractor takes from a statement: the values
    [addReferencesFromStmt] inserts for it and, for each SCEV it records,
    the values [findValues] finds in that SCEV. *)
Record ScopStmt : Type := mkScopStmt {
  StmtName : string;
  isBlockStmt : bool;
  StmtBlocks : list BasicBlock;
    (* the basic block of a block statement, the blocks of the region of
       a region statement *)
  ReferencedValues : list Value;
  ReferencedSCEVs : list (list Value)
}.

(** The region at the valuation of the parameters at which the code is
    followed. Its iteration domains, its accesses and the sizes of its
    arrays depend on the parameters: [Instances] is the same region at the
    other valuations its context admits. What isl is asked about a set
    that depends on the parameters it answers for all valuations at once. *)
#[local] Unset Elimination Schemes.
Inductive Scop : Type := mkScop {
  FunctionName : string;
  RegionBlocks : list string;        (* the blocks of getRegion() *)
  Arrays : list ScopArrayInfo;       (* arrays() *)
  Stmts : list ScopStmt;
  ParamSpace : list isl_id;          (* the parameters of getParamSpace() *)
  Domains : union_set;               (* getDomains() *)
  Accesses : union_map;              (* getAccesses() *)
  Instances : list Scop              (* the region at the other valuations *)
}.
#[local] Set Elimination Schemes.

(** [Region::contains] on an instruction *)
Definition Region_contains (S : Scop) (Inst : Instruction) : bool :=
  bool_decide (InstParent Inst ∈ RegionBlocks S).

End Polly.
Import Polly.

(** ** Must-kill information *)

(** A schedule tree: one domain node per kill statement, merged by
    [isl_schedule_set]. *)
Inductive schedule : Type :=
| schedule_from_domain (stmt : isl_id)
| schedule_set (a b : schedule).

(** One map [{ [Stmt_phantom[] -> ref_phantom[]] -> phi_ref[] }]. *)
Record tagged_kill : Type := mkTaggedKill {
  kill_stmt : isl_id;
  kill_ref : isl_id;
  killed : isl_id
}.

Record MustKillsInfo : Type := mkMustKillsInfo {
  KillsSchedule : option schedule;
  TaggedMustKills : list tagged_kill
}.

(** Check if SAI's uses are entirely contained within Scop S. *)
Fixpoint usersContained (S : Scop) (Us : list User) : option bool :=
  match Us with
  | [] => Some true
  | U :: Us' =>
      match dyn_cast_Instruction U with
      | None => None                   (* assert(I && "invalid user ...") *)
      | Some Inst =>
          if negb (Region_contains S Inst) then Some false
          else usersContained S Us'
      end
  end.

Definition isScalarUsesContainedInScop (S : Scop) (SAI : ScopArrayInfo) : option bool :=
  if isValueKind SAI then usersContained S (BasePtrUsers SAI)
  else None.                           (* assert(SAI->isValueKind() && ...) *)

(** Step 1 of [computeMustKillsInfo]: the ids to kill. *)
Fixpoint collectKillMemIds (S : Scop) (arrays : list ScopArrayInfo)
    (KillMemIds : list isl_id) : option (list isl_id) :=
  match arrays with
  | [] => Some KillMemIds
  | SAI :: rest =>
      if isPHIKind SAI then collectKillMemIds S rest (KillMemIds ++ [BasePtrId SAI])
      else if isValueKind SAI then
        match isScalarUsesContainedInScop S SAI with
        | None => None
        | Some true => collectKillMemIds S rest (KillMemIds ++ [BasePtrId SAI])
        | Some false => collectKillMemIds S rest KillMemIds
        end
      else collectKillMemIds S rest KillMemIds
  end.

(** Steps 2 and 3, for one id. *)
Definition addKill (Info : MustKillsInfo) (phiId : isl_id) : MustKillsInfo :=
  let KillStmtId := String.append "SKill_phantom_" phiId in
  let PhantomRefId := String.append "ref_phantom" phiId in
  let TaggedMustKill := mkTaggedKill KillStmtId PhantomRefId phiId in
  let KillSchedule := schedule_from_domain KillStmtId in
  {| TaggedMustKills := TaggedMustKills Info ++ [TaggedMustKill];
     KillsSchedule :=
       match KillsSchedule Info with
       | Some Sched => Some (schedule_set Sched KillSchedule)
       | None => Some KillSchedule
       end |}.

(** Compute must-kills needed to enable live range reordering with PPCG. *)
Definition computeMustKillsInfo (S : Scop) : option MustKillsInfo :=
  KillMemIds ← collectKillMemIds S (Arrays S) [];
  Some (fold_left addKill KillMemIds
          {| KillsSchedule := None; TaggedMustKills := [] |}).

(** ** What PPCG is handed and hands back *)

Module PPCG.

Record gpu_array_info : Type := mkGpuArrayInfo {
  name : string;
  size : Z;                          (* element size in bytes *)
  n_index : nat;
  extent : set;
  extent_elsewhere : list set;       (* [extent] at the other valuations *)
  bound : list pw_aff;               (* n_index entries *)
  read_only_scalar : bool;
  user : ScopArrayInfo
}.

Definition gpu_array_is_scalar (A : gpu_array_info) : bool := (n_index A =? 0)%nat.
Definition gpu_array_is_read_only_scalar (A : gpu_array_info) : bool :=
  read_only_scalar A.
Definition bound_at (A : gpu_array_info) (i : nat) : pw_aff := mjoin (bound A !! i).

Inductive ppcg_access_type := ppcg_access_shared | ppcg_access_private | ppcg_access_global.

Record ppcg_kernel_var : Type := mkKernelVar {
  var_name : string;
  var_type : ppcg_access_type
}.

(** A kernel, without its device-side tree (the tree hangs off the AST
    node that carries the kernel). [requires_array_argument] tabulates
    [ppcg_kernel_requires_array_argument (Kernel, i)]. *)
Record ppcg_kernel : Type := mkKernel {
  id : Z;
  n_array : Z;
  n_grid : Z;
  n_block : Z;
  grid_size : list pw_aff;           (* n_grid size expressions *)
  block_dim : list Z;                (* n_block sizes *)
  block_ids : list isl_id;
  thread_ids : list isl_id;
  space_set : list isl_id;           (* set dimensions of space: host iterators *)
  space_param : list isl_id;         (* parameter dimensions of space *)
  requires_array_argument : list bool;
  var : list ppcg_kernel_var
}.

Definition ppcg_kernel_requires_array_argument (K : ppcg_kernel) (i : nat) : bool :=
  default false (requires_array_argument K !! i).

End PPCG.
Import PPCG.

(** ** Extents, bounds and offsets of arrays *)

(** The constraints [size_i > x_i] of [getExtent], for the dimensions
    [dims] in turn. *)
Fixpoint boundBySizes (Array : ScopArrayInfo) (NumDims : nat) (dims : list nat)
    (Extent : set) : option set :=
  match dims with
  | [] => Some Extent
  | i :: rest =>
      match getDimensionSizePw Array i with
      | None =>
          (* assert(i == 0 && "invalid dimension isl_pw_aff for nonzero dimension") *)
          if (i =? 0)%nat then boundBySizes Array NumDims rest Extent else None
      | Some PwAff =>
          let Set_ := isl_pw_aff_gt_set PwAff NumDims i in
          boundBySizes Array NumDims rest (isl_set_intersect Set_ Extent)
      end
  end.

(** Derive the extent of an array. *)
Definition getExtent (S : Scop) (Array : ScopArrayInfo) : option set :=
  let NumDims := getNumberOfDimensions Array in
  let Accesses := isl_union_map_intersect_domain (Accesses S) (Domains S) in
  let AccessUSet := isl_union_map_range Accesses in
  if isl_union_set_is_empty AccessUSet then Some (isl_set_empty NumDims)
  else if (NumDims =? 0)%nat then Some (isl_set_universe NumDims)
  else
    let AccessSet := isl_union_set_extract_set AccessUSet (getSpace Array) in
    let OuterMin := isl_set_dim_min AccessSet 0 in
    let OuterMax := isl_set_dim_max AccessSet 0 in
    let Extent := isl_set_universe NumDims in
    let Extent := isl_set_intersect Extent (isl_pw_aff_le_set OuterMin NumDims 0) in
    let Extent := isl_set_intersect Extent (isl_pw_aff_ge_set OuterMax NumDims 0) in
    let Extent :=
      fold_left (fun E i => isl_set_lower_bound_si E i 0) (seq 1 (NumDims - 1)) Extent in
    boundBySizes Array NumDims (seq 0 NumDims) Extent.

Definition isl_pw_aff_domain (pa : pw_aff) : bool := bool_decide (is_Some pa).
Definition isl_pw_aff_alloc (dom : bool) (v : Z) : pw_aff := if dom then Some v else None.

(** Derive the bounds of an array. *)
Definition setArrayBounds (PPCGArray : gpu_array_info) (Array : ScopArrayInfo)
    : gpu_array_info :=
  let bound0 :=
    if (0 <? n_index PPCGArray)%nat then
      if isl_set_is_empty (extent PPCGArray) then
        <[0%nat := Some 0]> (bound PPCGArray)
      else
        let Dom := isl_set_project_out (extent PPCGArray) 1 (n_index PPCGArray - 1) in
        let Bound := isl_set_dim_max Dom 0 in
        let One := isl_pw_aff_alloc (isl_pw_aff_domain Bound) 1 in
        <[0%nat := isl_pw_aff_add Bound One]> (bound PPCGArray)
    else bound PPCGArray in
  let bounds :=
    fold_left (fun b i => <[i := mjoin (getDimensionSizePw Array i)]> b)
              (seq 1 (n_index PPCGArray - 1)) bound0 in
  mkGpuArrayInfo (name PPCGArray) (size PPCGArray) (n_index PPCGArray)
    (extent PPCGArray) (extent_elsewhere PPCGArray) bounds
    (read_only_scalar PPCGArray) (user PPCGArray).

(** The array of a region that has the id of [Array]. *)
Definition arrayOf (S : Scop) (Array : ScopArrayInfo) : option ScopArrayInfo :=
  List.find (fun A => bool_decide (BasePtrId A = BasePtrId Array)) (Arrays S).

(** The extent [getExtent] derives is a set that depends on the
    parameters: these are its instances at the other valuations. A
    valuation at which the region does not have the array, or at which
    [getExtent] stops, contributes none. *)
Definition extentsElsewhere (S : Scop) (Array : ScopArrayInfo) : list set :=
  omap (fun S' => arrayOf S' Array ≫= getExtent S') (Instances S).

(** One round of the loop of [createArrays]. *)
Definition createArray (S : Scop) (Array : ScopArrayInfo) : option gpu_array_info :=
  Extent ← getExtent S Array;
  let PPCGArray :=
    {| name := BasePtrId Array;
       size := getPrimitiveSizeInBits (ElementType Array) / 8;
       n_index := getNumberOfDimensions Array;
       extent := Extent;
       extent_elsewhere := extentsElsewhere S Array;
       bound := replicate (getNumberOfDimensions Array) None;
       read_only_scalar :=
         IsReadOnly Array && (getNumberOfDimensions Array =? 0)%nat;
       user := Array |} in
  Some (setArrayBounds PPCGArray Array).

Definition createArrays (S : Scop) : option (list gpu_array_info) :=
  mapM (createArray S) (Arrays S).

(** The value of the code [getArraySize] generates. *)
Definition getArraySize (Array : gpu_array_info) : pw_aff :=
  let ArraySize := Some (size Array) in
  if negb (gpu_array_is_scalar Array) then
    let Res := bound_at Array 0 in
    let Res :=
      fold_left (fun Res i => isl_pw_aff_mul Res (bound_at Array i))
                (seq 1 (n_index Array - 1)) Res in
    isl_pw_aff_mul ArraySize Res
  else ArraySize.

(** [Min.is_subset(ZeroSet)] of [getArrayOffset] at one valuation, for the
    extent [Extent] there: the smallest element of the extent, if it has
    one, is the origin. *)
Definition minIsOrigin (Extent : set) : bool :=
  let Min := isl_set_lexmin Extent in
  let ZeroSet :=
    fold_left (fun Z i => isl_set_fix_si Z i 0) (seq 0 (isl_set_n_dim Min))
              (isl_set_universe (isl_set_n_dim Min)) in
  isl_set_is_subset Min ZeroSet.

(** The value of the code [getArrayOffset] generates; [None] is the null
    pointer it returns for "no offset". Whether there is an offset is
    decided once, when the code is generated: [Min] is a subset of
    [ZeroSet] when it is one at every valuation of the parameters. *)
Definition getArrayOffset (Array : gpu_array_info) : option pw_aff :=
  if gpu_array_is_scalar Array then None
  else
    let Min := isl_set_lexmin (extent Array) in
    let ZeroSet :=
      fold_left (fun Z i => isl_set_fix_si Z i 0) (seq 0 (isl_set_n_dim Min))
                (isl_set_universe (isl_set_n_dim Min)) in
    if isl_set_is_subset Min ZeroSet && forallb minIsOrigin (extent_elsewhere Array)
    then None
    else
      Some (fold_left
              (fun Result i =>
                 let Result :=
                   if (0 <? i)%nat then isl_pw_aff_mul Result (bound_at Array (i - 1))
                   else Result in
                 isl_pw_aff_add Result (isl_set_dim_min Min i))
              (seq 0 (isl_set_n_dim Min)) (Some 0)).

(** ** The node builder: state, emitted code, runs *)

Inductive GPURuntime := CUDA | OpenCL.
Inductive GPUArch := NVPTX64 | SPIR32 | SPIR64.

(** The command-line switches the generator reads. *)
Record Options : Type := mkOptions {
  ManagedMemory : bool;
  FailOnVerifyModuleFailure : bool
}.

(** A map that remembers the order of insertion ([llvm::MapVector],
    [std::map] where the order is of no consequence). *)
Section AssocMap.
Context {K V : Type} `{EqDecision K}.

Fixpoint assoc_lookup (k : K) (m : list (K * V)) : option V :=
  match m with
  | [] => None
  | (k', v) :: r => if decide (k = k') then Some v else assoc_lookup k r
  end.

Fixpoint assoc_insert (k : K) (v : V) (m : list (K * V)) : list (K * V) :=
  match m with
  | [] => [(k, v)]
  | (k', v') :: r =>
      if decide (k = k') then (k, v) :: r else (k', v') :: assoc_insert k v r
  end.

Definition assoc_erase (k : K) (m : list (K * V)) : list (K * V) :=
  List.filter (fun kv => negb (bool_decide (kv.1 = k))) m.

End AssocMap.

(** [llvm::SetVector]: a set that keeps the order of insertion. *)
Section SetVector.
Context {A : Type} `{EqDecision A}.

Definition sv_insert (x : A) (l : list A) : list A :=
  if decide (x ∈ l) then l else l ++ [x].

Definition sv_remove (x : A) (l : list A) : list A :=
  List.filter (fun y => negb (bool_decide (y = x))) l.

Definition sv_insert_all (xs : list A) (l : list A) : list A :=
  fold_left (fun l x => sv_insert x l) xs l.

End SetVector.

(** A pointer as the host code computes it: a base and the element offsets
    added to it by [getelementptr], in order (pointer casts leave no
    trace). *)
Record DevPtr : Type := mkDevPtr {
  dp_base : Value;
  dp_gep : list pw_aff
}.

Definition CreateGEP (p : DevPtr) (off : pw_aff) : DevPtr :=
  mkDevPtr (dp_base p) (dp_gep p ++ [off]).

Definition isl_pw_aff_neg (a : pw_aff) : pw_aff := Z.opp <$> a.
Definition isl_pw_aff_sub (a b : pw_aff) : pw_aff :=
  match a, b with Some x, Some y => Some (x - y) | _, _ => None end.

(** One slot of the array of launch parameters. *)
Inductive SlotValue : Type :=
| BoxedDevicePointer (DevArray : DevPtr)
    (* the address of a stack slot that holds the device pointer *)
| ScalarPointer (ValPtr : DevPtr)
    (* the address of the value of a read-only scalar *)
| BoxedValue (Val : Value)
    (* the address of a stack slot that holds [Val] *)
| BoxedSize (n : Z)
    (* the address of a stack slot that holds the i32 constant [n] *).

(** Calls to the run-time library. *)
Inductive RuntimeCall : Type :=
| polly_initContext (rt : GPURuntime)
| polly_freeContext
| polly_allocateMemoryForDevice (array : isl_id) (Size : pw_aff)
| polly_freeDeviceMemory (array : isl_id)
| polly_copyFromHostToDevice (array : isl_id) (Size : pw_aff)
| polly_copyFromDeviceToHost (array : isl_id) (Size : pw_aff)
| polly_synchronizeDevice
| polly_getDevicePtr (array : isl_id)
| polly_getKernel (kernel : Z) (text : string)
| polly_launchKernel (kernel : Z) (GridDimX GridDimY : pw_aff)
    (BlockDimX BlockDimY BlockDimZ : Z) (Parameters : list (option SlotValue))
| polly_freeKernel (kernel : Z).

(** What the generator inserts at the insertion point. *)
Inductive Instr : Type :=
| ICall (c : RuntimeCall)
| IBarrier                                   (* llvm.nvvm.barrier0 *)
| ICopyStmt (stmt : string)                  (* the copy of a statement *)
| ISharedRead (array : isl_id)               (* global to local copy *)
| ISharedWrite (array : isl_id)              (* local to global copy *)
| ILoadScalarArgument (array : isl_id) (argno : nat)
| IStoreScalarArgument (array : isl_id) (argno : nat)
| IStoreScalarSlot (array : isl_id)
| IReadIndex (intrinsic : string)
| IRetVoid.

Record GPUNodeBuilder : Type := mkGPUNodeBuilder {
  BuildSuccessful : bool;
  DeepestSequential : Z;
  DeepestParallel : Z;
  IDToValue : list (isl_id * Value);
  ValueMap : list (Value * Value);
  ScalarMap : list (isl_id * Value);
  IDToSAI : list (isl_id * Value);
  LocalArrays : list Value;
  KernelIds : list isl_id;
  DeviceAllocations : list (isl_id * option DevPtr);
  GPUModule : option Function;               (* the kernel module, by its entry point *)
  InsertFunction : Function;                 (* the function of the insertion point *)
  InsertBefore : string;                     (* the instruction it precedes *)
  Code : list (Function * Instr)             (* all that was inserted, in order *)
}.

(** Runs of the generator: a result and a state, or a fatal error
    ([assert], [llvm_unreachable], a null or dangling pointer) and the
    state it was raised in. *)
Inductive Result (A : Type) : Type :=
| Ok (a : A) (st : GPUNodeBuilder)
| Fatal (msg : string) (st : GPUNodeBuilder).
Arguments Ok {A} a st.
Arguments Fatal {A} msg st.

Definition Gen (A : Type) : Type := GPUNodeBuilder -> Result A.

Definition ret {A : Type} (a : A) : Gen A := fun st => Ok a st.
Definition bind {A B : Type} (c : Gen A) (k : A -> Gen B) : Gen B :=
  fun st => match c st with
            | Ok a st' => k a st'
            | Fatal msg st' => Fatal msg st'
            end.
Definition fatal {A : Type} (msg : string) : Gen A := fun st => Fatal msg st.
Definition get : Gen GPUNodeBuilder := fun st => Ok st st.
Definition modify (f : GPUNodeBuilder -> GPUNodeBuilder) : Gen unit :=
  fun st => Ok tt (f st).
Definition assert_ (b : bool) (msg : string) : Gen unit :=
  if b then ret tt else fatal msg.
Definition final_state {A : Type} (r : Result A) : GPUNodeBuilder :=
  match r with Ok _ st => st | Fatal _ st => st end.

Declare Scope gen_scope.
Delimit Scope gen_scope with gen.
Notation "x <- c ;; k" := (bind c (fun x => k))
  (at level 100, c at next level, right associativity) : gen_scope.
Notation "c ;; k" := (bind c (fun _ => k))
  (at level 100, right associativity) : gen_scope.
#[local] Open Scope gen_scope.

(** A loop over a list. *)
Fixpoint for_each {A : Type} (l : list A) (body : A -> Gen unit) : Gen unit :=
  match l with
  | [] => ret tt
  | x :: r => body x ;; for_each r body
  end.

(** A loop over a list that carries local variables along. *)
Fixpoint fold_gen {A B : Type} (l : list A) (b : B) (body : B -> A -> Gen B) : Gen B :=
  match l with
  | [] => ret b
  | x :: r => b' <- body b x ;; fold_gen r b' body
  end.

Definition set_BuildSuccessful (x : bool) (st : GPUNodeBuilder) : GPUNodeBuilder :=
  mkGPUNodeBuilder x (DeepestSequential st) (DeepestParallel st) (IDToValue st)
    (ValueMap st) (ScalarMap st) (IDToSAI st) (LocalArrays st) (KernelIds st)
    (DeviceAllocations st) (GPUModule st) (InsertFunction st) (InsertBefore st)
    (Code st).
Definition set_DeepestSequential (x : Z) (st : GPUNodeBuilder) : GPUNodeBuilder :=
  mkGPUNodeBuilder (BuildSuccessful st) x (DeepestParallel st) (IDToValue st)
    (ValueMap st) (ScalarMap st) (IDToSAI st) (LocalArrays st) (KernelIds st)
    (DeviceAllocations st) (GPUModule st) (InsertFunction st) (InsertBefore st)
    (Code st).
Definition set_DeepestParallel (x : Z) (st : GPUNodeBuilder) : GPUNodeBuilder :=
  mkGPUNodeBuilder (BuildSuccessful st) (DeepestSequential st) x (IDToValue st)
    (ValueMap st) (ScalarMap st) (IDToSAI st) (LocalArrays st) (KernelIds st)
    (DeviceAllocations st) (GPUModule st) (InsertFunction st) (InsertBefore st)
    (Code st).
Definition set_IDToValue (x : list (isl_id * Value)) (st : GPUNodeBuilder) : GPUNodeBuilder :=
  mkGPUNodeBuilder (BuildSuccessful st) (DeepestSequential st) (DeepestParallel st)
    x (ValueMap st) (ScalarMap st) (IDToSAI st) (LocalArrays st) (KernelIds st)
    (DeviceAllocations st) (GPUModule st) (InsertFunction st) (InsertBefore st)
    (Code st).
Definition set_ValueMap (x : list (Value * Value)) (st : GPUNodeBuilder) : GPUNodeBuilder :=
  mkGPUNodeBuilder (BuildSuccessful st) (DeepestSequential st) (DeepestParallel st)
    (IDToValue st) x (ScalarMap st) (IDToSAI st) (LocalArrays st) (KernelIds st)
    (DeviceAllocations st) (GPUModule st) (InsertFunction st) (InsertBefore st)
    (Code st).
Definition set_ScalarMap (x : list (isl_id * Value)) (st : GPUNodeBuilder) : GPUNodeBuilder :=
  mkGPUNodeBuilder (BuildSuccessful st) (DeepestSequential st) (DeepestParallel st)
    (IDToValue st) (ValueMap st) x (IDToSAI st) (LocalArrays st) (KernelIds st)
    (DeviceAllocations st) (GPUModule st) (InsertFunction st) (InsertBefore st)
    (Code st).
Definition set_IDToSAI (x : list (isl_id * Value)) (st : GPUNodeBuilder) : GPUNodeBuilder :=
  mkGPUNodeBuilder (BuildSuccessful st) (DeepestSequential st) (DeepestParallel st)
    (IDToValue st) (ValueMap st) (ScalarMap st) x (LocalArrays st) (KernelIds st)
    (DeviceAllocations st) (GPUModule st) (InsertFunction st) (InsertBefore st)
    (Code st).
Definition set_LocalArrays (x : list Value) (st : GPUNodeBuilder) : GPUNodeBuilder :=
  mkGPUNodeBuilder (BuildSuccessful st) (DeepestSequential st) (DeepestParallel st)
    (IDToValue st) (ValueMap st) (ScalarMap st) (IDToSAI st) x (KernelIds st)
    (DeviceAllocations st) (GPUModule st) (InsertFunction st) (InsertBefore st)
    (Code st).
Definition set_KernelIds (x : list isl_id) (st : GPUNodeBuilder) : GPUNodeBuilder :=
  mkGPUNodeBuilder (BuildSuccessful st) (DeepestSequential st) (DeepestParallel st)
    (IDToValue st) (ValueMap st) (ScalarMap st) (IDToSAI st) (LocalArrays st) x
    (DeviceAllocations st) (GPUModule st) (InsertFunction st) (InsertBefore st)
    (Code st).
Definition set_DeviceAllocations (x : list (isl_id * option DevPtr)) (st : GPUNodeBuilder) : GPUNodeBuilder :=
  mkGPUNodeBuilder (BuildSuccessful st) (DeepestSequential st) (DeepestParallel st)
    (IDToValue st) (ValueMap st) (ScalarMap st) (IDToSAI st) (LocalArrays st)
    (KernelIds st) x (GPUModule st) (InsertFunction st) (InsertBefore st) (Code st).
Definition set_GPUModule (x : option Function) (st : GPUNodeBuilder) : GPUNodeBuilder :=
  mkGPUNodeBuilder (BuildSuccessful st) (DeepestSequential st) (DeepestParallel st)
    (IDToValue st) (ValueMap st) (ScalarMap st) (IDToSAI st) (LocalArrays st)
    (KernelIds st) (DeviceAllocations st) x (InsertFunction st) (InsertBefore st)
    (Code st).
Definition SetInsertPoint (F : Function) (before : string)
    (st : GPUNodeBuilder) : GPUNodeBuilder :=
  mkGPUNodeBuilder (BuildSuccessful st) (DeepestSequential st) (DeepestParallel st)
    (IDToValue st) (ValueMap st) (ScalarMap st) (IDToSAI st) (LocalArrays st)
    (KernelIds st) (DeviceAllocations st) (GPUModule st) F before (Code st).

(** Insert an instruction at the insertion point. *)
Definition emit (i : Instr) : Gen unit :=
  modify (fun st =>
    mkGPUNodeBuilder (BuildSuccessful st) (DeepestSequential st) (DeepestParallel st)
      (IDToValue st) (ValueMap st) (ScalarMap st) (IDToSAI st) (LocalArrays st)
      (KernelIds st) (DeviceAllocations st) (GPUModule st) (InsertFunction st)
      (InsertBefore st) (Code st ++ [(InsertFunction st, i)])).

(** ** The annotated tree *)

(** The statement a user node of a kernel stands for. *)
Inductive ppcg_kernel_stmt : Type :=
| ppcg_kernel_domain (Stmt : ScopStmt)
| ppcg_kernel_copy (read : bool) (array : isl_id)
| ppcg_kernel_sync
| ppcg_kernel_unknown.                       (* a type the switch does not list *)

(** What a user node points to: the kernel and its device-side tree for
    a node named "kernel", the array for a transfer, the statement
    otherwise. *)
Inductive annotation (T : Type) : Type :=
| anno_kernel (Kernel : ppcg_kernel) (tree : T)
| anno_array (Array : gpu_array_info)
| anno_stmt (KernelStmt : ppcg_kernel_stmt).
Arguments anno_kernel {T} Kernel tree.
Arguments anno_array {T} Array.
Arguments anno_stmt {T} KernelStmt.

#[local] Unset Elimination Schemes.
Inductive isl_ast_node : Type :=
| isl_ast_node_block (children : list isl_ast_node)
| isl_ast_node_for (iterator : isl_id) (body : isl_ast_node)
| isl_ast_node_if (then_ else_ : isl_ast_node)
| isl_ast_node_mark (mark : isl_id) (node : isl_ast_node)
| isl_ast_node_user (name : isl_id) (anno : annotation isl_ast_node).
#[local] Set Elimination Schemes.

(** Structural induction on trees, into the children of blocks and into
    the device-side trees of kernels. *)
Section isl_ast_node_induction.

Variable P : isl_ast_node -> Prop.
Hypothesis Hblock : forall children, Forall P children -> P (isl_ast_node_block children).
Hypothesis Hfor : forall iterator body, P body -> P (isl_ast_node_for iterator body).
Hypothesis Hif : forall then_ else_, P then_ -> P else_ -> P (isl_ast_node_if then_ else_).
Hypothesis Hmark : forall mark node, P node -> P (isl_ast_node_mark mark node).
Hypothesis Hkernel : forall name Kernel tree,
  P tree -> P (isl_ast_node_user name (anno_kernel Kernel tree)).
Hypothesis Harray : forall name Array, P (isl_ast_node_user name (anno_array Array)).
Hypothesis Hstmt : forall name KernelStmt,
  P (isl_ast_node_user name (anno_stmt KernelStmt)).

Fixpoint isl_ast_node_ind (Node : isl_ast_node) : P Node :=
  match Node with
  | isl_ast_node_block children =>
      Hblock children
        ((fix all (l : list isl_ast_node) : Forall P l :=
            match l with
            | [] => List.Forall_nil P
            | c :: l' => List.Forall_cons P c l' (isl_ast_node_ind c) (all l')
            end) children)
  | isl_ast_node_for iterator body => Hfor iterator body (isl_ast_node_ind body)
  | isl_ast_node_if then_ else_ =>
      Hif then_ else_ (isl_ast_node_ind then_) (isl_ast_node_ind else_)
  | isl_ast_node_mark mark node => Hmark mark node (isl_ast_node_ind node)
  | isl_ast_node_user name (anno_kernel Kernel tree) =>
      Hkernel name Kernel tree (isl_ast_node_ind tree)
  | isl_ast_node_user name (anno_array Array) => Harray name Array
  | isl_ast_node_user name (anno_stmt KernelStmt) => Hstmt name KernelStmt
  end.

End isl_ast_node_induction.

(** ** The rest of Polly and LLVM, as far as the generator calls it *)

Class External : Type := {
  (** [BlockGenerator::getOrCreateAlloca]: the stack slot of a scalar in
      the given function, and the scalar map afterwards *)
  getOrCreateAlloca :
    ScopArrayInfo -> Function -> list (Value * Value) -> list (isl_id * Value) ->
    Value * list (isl_id * Value);
  (** [createSubstitutions] and [copyStmt] of the block and region
      generators: the value map and the scalar map after the statement
      was copied into the given function *)
  copyStmt :
    ScopStmt -> Function -> list (isl_id * Value) ->
    list (Value * Value) -> list (isl_id * Value) ->
    list (Value * Value) * list (isl_id * Value);
  (** [llvm::verifyModule] on a kernel module: [true] when it is broken *)
  verifyModule : Function -> list (Function * Instr) -> bool;
  (** the text of a kernel module: [createKernelASM], or the module printed
      and rewritten by [createKernelSPIR] *)
  kernelText : GPUArch -> Function -> list (Function * Instr) -> string;
  (** the value [IslNodeBuilder::addParameters] materialises for a parameter *)
  parameterValue : isl_id -> Value;
  (** PPCG: [get_schedule], [map_to_device] and [generate_code]; [None]
      when there is no permutable band and no tree is generated *)
  generate_code :
    Scop -> MustKillsInfo -> list gpu_array_info -> option isl_ast_node
}.

(** ** The generator *)

Section Lowering.

Context `{Ext : External}.
Variable Opt : Options.
Variable S : Scop.
Variable Prog : list gpu_array_info.
Variable Runtime : GPURuntime.
Variable Arch : GPUArch.

(** [Prog->array[i]] *)
Definition Prog_array (i : nat) : Gen gpu_array_info :=
  match Prog !! i with
  | Some Array => ret Array
  | None => fatal "index past the end of Prog->array"
  end.

(** [IDToValue[Id]] where the value is used at once. *)
Definition IDToValue_at (Id : isl_id) : Gen Value :=
  st <- get ;;
  match assoc_lookup Id (IDToValue st) with
  | Some Val => ret Val
  | None => fatal "null value for an isl id"
  end.

Definition BlockGen_getOrCreateAlloca (SAI : ScopArrayInfo) : Gen Value :=
  st <- get ;;
  let r := getOrCreateAlloca SAI (InsertFunction st) (ValueMap st) (ScalarMap st) in
  modify (set_ScalarMap r.2) ;;
  ret r.1.

(** Return the name to set for the ptx_kernel. *)
Definition getKernelFuncName (Kernel_id : Z) : string :=
  String.append "FUNC_"
    (String.append (FunctionName S)
       (String.append "_KERNEL_" (pretty Kernel_id))).

Definition createCallInitContext : Gen Value :=
  emit (ICall (polly_initContext Runtime)) ;;
  ret (RuntimeResult "polly_initContext" "").

Definition createCallFreeContext : Gen unit :=
  emit (ICall polly_freeContext).

Definition createCallGetKernel (kernel : Z) (Buffer : string) : Gen Value :=
  emit (ICall (polly_getKernel kernel Buffer)) ;;
  ret (RuntimeResult "polly_getKernel" (getKernelFuncName kernel)).

(** An operand of a call of the run-time library. [Builder.CreateCall]
    takes the values it is given for operands: with a null pointer among
    them the call is outside its contract, and the run is not followed
    further. *)
Definition operand (V : option DevPtr) : Gen DevPtr :=
  match V with
  | Some V => ret V
  | None => fatal "null operand of a call"
  end.

Definition createCallGetDevicePtr (array : isl_id) (Allocation : option DevPtr)
    : Gen DevPtr :=
  _ <- operand Allocation ;;
  emit (ICall (polly_getDevicePtr array)) ;;
  ret (mkDevPtr (RuntimeResult "polly_getDevicePtr" array) []).

Definition createCallLaunchKernel (kernel : Z) (GridDimX GridDimY : pw_aff)
    (BlockDimX BlockDimY BlockDimZ : Z) (Parameters : list (option SlotValue))
    : Gen unit :=
  emit (ICall (polly_launchKernel kernel GridDimX GridDimY
                 BlockDimX BlockDimY BlockDimZ Parameters)).

Definition createCallFreeKernel (kernel : Z) : Gen unit :=
  emit (ICall (polly_freeKernel kernel)).

Definition createCallFreeDeviceMemory (array : isl_id) (Array : option DevPtr)
    : Gen unit :=
  assert_ (negb (ManagedMemory Opt))
          "Managed memory does not allocate or free memory for device" ;;
  _ <- operand Array ;;
  emit (ICall (polly_freeDeviceMemory array)).

Definition createCallAllocateMemoryForDevice (array : isl_id) (Size : pw_aff)
    : Gen DevPtr :=
  assert_ (negb (ManagedMemory Opt))
          "Managed memory does not allocate or free memory for device" ;;
  emit (ICall (polly_allocateMemoryForDevice array Size)) ;;
  ret (mkDevPtr (RuntimeResult "polly_allocateMemoryForDevice" array) []).

Definition createCallCopyFromHostToDevice (array : isl_id)
    (DeviceData : option DevPtr) (Size : pw_aff) : Gen unit :=
  assert_ (negb (ManagedMemory Opt))
          "Managed memory does not transfer memory between device and host" ;;
  _ <- operand DeviceData ;;
  emit (ICall (polly_copyFromHostToDevice array Size)).

Definition createCallCopyFromDeviceToHost (array : isl_id)
    (DeviceData : option DevPtr) (Size : pw_aff) : Gen unit :=
  assert_ (negb (ManagedMemory Opt))
          "Managed memory does not transfer memory between device and host" ;;
  _ <- operand DeviceData ;;
  emit (ICall (polly_copyFromDeviceToHost array Size)).

Definition createCallSynchronizeDevice : Gen unit :=
  assert_ (ManagedMemory Opt)
          "explicit synchronization is only necessary for managed memory" ;;
  emit (ICall polly_synchronizeDevice).

(** The size in bytes the transfer and the allocation of an array use:
    [getArraySize] less the elements below [getArrayOffset]. *)
Definition sizeLessOffset (Array : gpu_array_info) : pw_aff :=
  let ScopArray := user Array in
  let ArraySize := getArraySize Array in
  match getArrayOffset Array with
  | Some Offset =>
      isl_pw_aff_sub ArraySize
        (isl_pw_aff_mul Offset (Some (ElemSizeInBytes ScopArray)))
  | None => ArraySize
  end.

Definition allocateDeviceArrays : Gen unit :=
  assert_ (negb (ManagedMemory Opt))
          "Managed memory will directly send host pointers to the kernel" ;;
  for_each Prog (fun Array =>
    let ScopArray := user Array in
    DevArray <- createCallAllocateMemoryForDevice (name Array) (sizeLessOffset Array) ;;
    modify (fun st =>
      set_DeviceAllocations
        (assoc_insert (BasePtrId ScopArray) (Some DevArray) (DeviceAllocations st)) st)).

Definition freeDeviceArrays : Gen unit :=
  assert_ (negb (ManagedMemory Opt)) "Managed memory does not use device arrays" ;;
  st <- get ;;
  for_each (DeviceAllocations st)
    (fun Array => createCallFreeDeviceMemory Array.1 Array.2).

Definition initializeAfterRTH : Gen unit :=
  modify (fun st => SetInsertPoint (InsertFunction st) "polly.acc.initialize" st) ;;
  _ <- createCallInitContext ;;
  if negb (ManagedMemory Opt) then allocateDeviceArrays else ret tt.

Definition finalize : Gen unit :=
  (if negb (ManagedMemory Opt) then freeDeviceArrays else ret tt) ;;
  createCallFreeContext.

(** Check if one string is a prefix of another. *)
Definition isPrefix (String_ Prefix : string) : bool := String.prefix Prefix String_.

(** The host pointer of an array: the stack slot of a scalar, the base
    pointer otherwise, moved to the first element accessed. *)
Definition hostPointer (Array : gpu_array_info) (ArrayInfo : ScopArrayInfo)
    : Gen DevPtr :=
  HostPtr <- (if gpu_array_is_scalar Array then BlockGen_getOrCreateAlloca ArrayInfo
              else ret (BasePtr ArrayInfo)) ;;
  match getArrayOffset Array with
  | Some Offset => ret (CreateGEP (mkDevPtr HostPtr []) Offset)
  | None => ret (mkDevPtr HostPtr [])
  end.

Definition getOrCreateManagedDeviceArray (Array : gpu_array_info)
    (ArrayInfo : ScopArrayInfo) : Gen (option DevPtr) :=
  assert_ (ManagedMemory Opt) "Only used when you wish to get a host pointer" ;;
  st <- get ;;
  match assoc_lookup (BasePtrId ArrayInfo) (DeviceAllocations st) with
  | Some it => ret it
  | None =>
      HostPtr <- hostPointer Array ArrayInfo ;;
      modify (fun st =>
        set_DeviceAllocations
          (assoc_insert (BasePtrId ArrayInfo) (Some HostPtr) (DeviceAllocations st)) st) ;;
      ret (Some HostPtr)
  end.

Inductive DataDirection := HOST_TO_DEVICE | DEVICE_TO_HOST.

(** [DeviceAllocations[ScopArray]]: a null entry is made for a new key. *)
Definition DeviceAllocations_at (key : isl_id) : Gen (option DevPtr) :=
  st <- get ;;
  match assoc_lookup key (DeviceAllocations st) with
  | Some DevPtr => ret DevPtr
  | None =>
      modify (fun st =>
        set_DeviceAllocations (assoc_insert key None (DeviceAllocations st)) st) ;;
      ret None
  end.

Definition createDataTransfer (Array : gpu_array_info) (Direction : DataDirection)
    : Gen unit :=
  assert_ (negb (ManagedMemory Opt)) "Managed memory needs no data transfers" ;;
  let ScopArray := user Array in
  DevPtr <- DeviceAllocations_at (BasePtrId ScopArray) ;;
  _ <- hostPointer Array ScopArray ;;
  match Direction with
  | HOST_TO_DEVICE =>
      createCallCopyFromHostToDevice (name Array) DevPtr (sizeLessOffset Array)
  | DEVICE_TO_HOST =>
      createCallCopyFromDeviceToHost (name Array) DevPtr (sizeLessOffset Array)
  end.

Definition createKernelCopy (read : bool) (array : isl_id) : Gen unit :=
  if read then emit (ISharedRead array) else emit (ISharedWrite array).

Definition createScopStmt (Stmt : ScopStmt) : Gen unit :=
  st <- get ;;
  let r := copyStmt Stmt (InsertFunction st) (IDToValue st) (ValueMap st) (ScalarMap st) in
  modify (set_ValueMap r.1) ;;
  modify (set_ScalarMap r.2) ;;
  emit (ICopyStmt (StmtName Stmt)).

Definition createKernelSync : Gen unit := emit IBarrier.

(** *** The closure of a kernel *)

(** Collect llvm::Values referenced from a node. The two components are
    [SubtreeValues] and [SCEVs] of the [SubtreeReferences]; [None] when the
    annotation of a node named "Stmt..." is no domain statement. *)
Definition collectReferencesInGPUStmt (Node : isl_ast_node)
    (References : list Value * list (list Value))
    : option (list Value * list (list Value)) :=
  match Node with
  | isl_ast_node_user Str anno =>
      if negb (isPrefix Str "Stmt") then Some References
      else match anno with
           | anno_stmt (ppcg_kernel_domain Stmt) =>
               (* addReferencesFromStmt(Stmt, User, false) *)
               Some (sv_insert_all (ReferencedValues Stmt) References.1,
                     sv_insert_all (ReferencedSCEVs Stmt) References.2)
           | _ => None
           end
  | _ => Some References
  end.

(** [isl_ast_node_foreach_descendant_top_down] with the callback above. *)
Fixpoint foreach_descendant_top_down (Node : isl_ast_node)
    (References : list Value * list (list Value))
    : option (list Value * list (list Value)) :=
  References ← collectReferencesInGPUStmt Node References;
  match Node with
  | isl_ast_node_block children =>
      (fix visit (l : list isl_ast_node) (R : list Value * list (list Value)) :=
         match l with
         | [] => Some R
         | c :: l' => R' ← foreach_descendant_top_down c R; visit l' R'
         end) children References
  | isl_ast_node_for _ body => foreach_descendant_top_down body References
  | isl_ast_node_if then_ else_ =>
      References ← foreach_descendant_top_down then_ References;
      foreach_descendant_top_down else_ References
  | isl_ast_node_mark _ node => foreach_descendant_top_down node References
  | isl_ast_node_user _ _ => Some References
  end.

(** Check if F is a function that we can code-generate in a GPU kernel. *)
Definition isValidFunctionInKernel (F : Value) : bool :=
  match F with
  | FunctionValue Name intrinsic _ => intrinsic && String.prefix "llvm.sqrt" Name
  | _ => false
  end.

(** Do not take [Function] as a subtree value. *)
Definition isValidSubtreeValue (V : Value) : bool := negb (isaFunction V).

(** Return [Function]s from [RawSubtreeValues]. *)
Fixpoint getFunctionsFromRawSubtreeValues (RawSubtreeValues : list Value)
    (SubtreeFunctions : list Value) : Gen (list Value) :=
  match RawSubtreeValues with
  | [] => ret SubtreeFunctions
  | It :: rest =>
      if isaFunction It then
        assert_ (isValidFunctionInKernel It)
                "Code should have bailed out by this point" ;;
        getFunctionsFromRawSubtreeValues rest (sv_insert It SubtreeFunctions)
      else getFunctionsFromRawSubtreeValues rest SubtreeFunctions
  end.

(** Remove from [SubtreeValues] the values bound to the ids [Ids]. *)
Fixpoint removeValuesOfIds (Ids : list isl_id) (SubtreeValues : list Value)
    : Gen (list Value) :=
  match Ids with
  | [] => ret SubtreeValues
  | Id :: rest =>
      st <- get ;;
      match assoc_lookup Id (IDToValue st) with
      | None => fatal "assert(IDToValue.count(Id))"
      | Some Val => removeValuesOfIds rest (sv_remove Val SubtreeValues)
      end
  end.

Definition getReferencesInKernel (Kernel : ppcg_kernel) (tree : isl_ast_node)
    : Gen (list Value * list Value) :=
  st <- get ;;
  let SubtreeValues := sv_insert_all (map snd (IDToValue st)) [] in
  match foreach_descendant_top_down tree (SubtreeValues, []) with
  | None => fatal "the annotation of a statement node is not a domain statement"
  | Some References =>
      let SubtreeValues :=
        fold_left (fun SV Expr => sv_insert_all Expr SV) References.2 References.1 in
      let SubtreeValues :=
        fold_left (fun SV SAI => sv_remove (BasePtr SAI) SV) (Arrays S) SubtreeValues in
      SubtreeValues <- removeValuesOfIds (ParamSpace S) SubtreeValues ;;
      SubtreeValues <- removeValuesOfIds (space_set Kernel) SubtreeValues ;;
      let ValidSubtreeValues :=
        sv_insert_all (List.filter isValidSubtreeValue SubtreeValues) [] in
      ValidSubtreeFunctions <- getFunctionsFromRawSubtreeValues SubtreeValues [] ;;
      ret (ValidSubtreeValues, ValidSubtreeFunctions)
  end.

(** *** Launch geometry *)

Definition CreateTrunc32 (v : pw_aff) : pw_aff := (fun z => z mod 2 ^ 32) <$> v.

Definition getGridSizes (Kernel : ppcg_kernel) : pw_aff * pw_aff :=
  let Sizes :=
    map (fun i => CreateTrunc32 (mjoin (grid_size Kernel !! i)))
        (seq 0 (Z.to_nat (n_grid Kernel)))
    ++ replicate (Z.to_nat (3 - n_grid Kernel)) (Some 1) in
  (mjoin (Sizes !! 0%nat), mjoin (Sizes !! 1%nat)).

Definition getBlockSizes (Kernel : ppcg_kernel) : Z * Z * Z :=
  let Sizes :=
    map (fun i => default 0 (block_dim Kernel !! i))
        (seq 0 (Z.to_nat (n_block Kernel)))
    ++ replicate (Z.to_nat (3 - n_block Kernel)) 1 in
  (default 0 (Sizes !! 0%nat), default 0 (Sizes !! 1%nat), default 0 (Sizes !! 2%nat)).

(** *** Launch parameters *)

(** The local variables of [createLaunchParameters]. *)
Record LaunchState : Type := mkLaunchState {
  Index : nat;
  ArgSizes : list Z;
  Parameters : list (option SlotValue)
}.

(** The launch state after [ArgSizes[Index] = size], the store of the
    parameter into its slot, and [Index++]. *)
Definition parameterStored (slot : SlotValue) (size : Z) (L : LaunchState)
    : LaunchState :=
  {| Index := Nat.succ (Index L);
     ArgSizes := <[Index L := size]> (ArgSizes L);
     Parameters := <[Index L := Some slot]> (Parameters L) |}.

(** [ArgSizes[Index] = size], the store of the parameter into its slot,
    and [Index++]. [ArgSizes] is a [std::vector] of [F->arg_size()]
    entries and [operator[]] does not check its index: a write past the
    end is undefined, and the run is not followed further. *)
Definition storeParameter (slot : SlotValue) (size : Z) (L : LaunchState)
    : Gen LaunchState :=
  if (Index L <? length (ArgSizes L))%nat then ret (parameterStored slot size L)
  else fatal "ArgSizes[Index] is past the end of the vector".

(** Store a specific kernel launch parameter in the array of kernel launch
    parameters. The array has [2 * NumArgs] slots and [Index] is below
    that: at most [NumArgs] parameters are stored before the [NumArgs] size
    words. *)
Definition insertStoreParameter (Param : SlotValue) (L : LaunchState) : LaunchState :=
  {| Index := Nat.succ (Index L);
     ArgSizes := ArgSizes L;
     Parameters := <[Index L := Some Param]> (Parameters L) |}.

Definition launchArrayParameter (Kernel : ppcg_kernel) (L : LaunchState) (i : nat)
    : Gen LaunchState :=
  if negb (ppcg_kernel_requires_array_argument Kernel i) then ret L
  else
    Array <- Prog_array i ;;
    let SAI := user Array in
    DevArray <- (if ManagedMemory Opt then getOrCreateManagedDeviceArray Array SAI
                 else
                   DevArray <- DeviceAllocations_at (BasePtrId SAI) ;;
                   DevArray <- createCallGetDevicePtr (name Array) DevArray ;;
                   ret (Some DevArray)) ;;
    match DevArray with
    | None => fatal "Array to be offloaded to device not initialized"
    | Some DevArray =>
        let DevArray :=
          match getArrayOffset Array with
          | Some Offset => CreateGEP DevArray (isl_pw_aff_neg Offset)
          | None => DevArray
          end in
        if gpu_array_is_read_only_scalar Array then
          ValPtr <- (if ManagedMemory Opt then ret DevArray
                     else
                       Alloca <- BlockGen_getOrCreateAlloca SAI ;;
                       ret (mkDevPtr Alloca [])) ;;
          storeParameter (ScalarPointer ValPtr) (ElemSizeInBytes SAI) L
        else
          storeParameter (BoxedDevicePointer DevArray) (ElemSizeInBytes SAI) L
    end.

Definition launchValueParameter (L : LaunchState) (Val : Value) : Gen LaunchState :=
  storeParameter (BoxedValue Val) (computeSizeInBytes (getType Val)) L.

Definition launchIdParameter (L : LaunchState) (Id : isl_id) : Gen LaunchState :=
  Val <- IDToValue_at Id ;;
  launchValueParameter L Val.

Definition launchSizeParameter (L : LaunchState) (i : nat) : LaunchState :=
  insertStoreParameter (BoxedSize (default 0 (ArgSizes L !! i))) L.

(** Create kernel launch parameters. *)
Definition createLaunchParameters (Kernel : ppcg_kernel) (F : Function)
    (SubtreeValues : list Value) : Gen LaunchState :=
  let NumArgs := arg_size F in
  let L := mkLaunchState 0 (replicate NumArgs 0) (replicate (2 * NumArgs) None) in
  L <- fold_gen (seq 0 (length Prog)) L (launchArrayParameter Kernel) ;;
  L <- fold_gen (space_set Kernel) L launchIdParameter ;;
  L <- fold_gen (space_param Kernel) L launchIdParameter ;;
  L <- fold_gen SubtreeValues L launchValueParameter ;;
  ret (fold_left launchSizeParameter (seq 0 NumArgs) L).

(** *** The kernel function *)

(** The type of the formal argument for array [i]. *)
Definition arrayArgumentType (Array : gpu_array_info) : Ty :=
  if gpu_array_is_read_only_scalar Array then ElementType (user Array)
  else getInt8PtrTy 1.

Definition declareArrayArgument (Kernel : ppcg_kernel) (Args : list Ty) (i : nat)
    : Gen (list Ty) :=
  if negb (ppcg_kernel_requires_array_argument Kernel i) then ret Args
  else
    Array <- Prog_array i ;;
    ret (Args ++ [arrayArgumentType Array]).

Definition declareParameterArgument (Args : list Ty) (Id : isl_id) : Gen (list Ty) :=
  Val <- IDToValue_at Id ;;
  ret (Args ++ [getType Val]).

(** The argument types of the declaration, in the order of the four loops
    that push them. *)
Definition kernelArgumentTypes (Kernel : ppcg_kernel) (SubtreeValues : list Value)
    : Gen (list Ty) :=
  Args <- fold_gen (seq 0 (length Prog)) [] (declareArrayArgument Kernel) ;;
  let Args :=
    fold_left (fun Args _ => Args ++ [getInt64Ty]) (space_set Kernel) Args in
  Args <- fold_gen (space_param Kernel) Args declareParameterArgument ;;
  ret (fold_left (fun Args V => Args ++ [getType V]) SubtreeValues Args).

(** [&*Arg] for the argument iterator at position [Arg]. *)
Definition Argument_at (FN : Function) (Arg : nat) : Gen Value :=
  match FnKernel FN, FnArgs FN !! Arg with
  | Some kernel, Some ty => ret (KernelArgument kernel Arg ty)
  | _, _ => fatal "argument iterator past the end"
  end.

Definition bindArrayArgument (Kernel : ppcg_kernel) (FN : Function) (Arg i : nat)
    : Gen nat :=
  if negb (ppcg_kernel_requires_array_argument Kernel i) then ret Arg
  else
    Array <- Prog_array i ;;
    Val <- Argument_at FN Arg ;;
    modify (fun st => set_LocalArrays (LocalArrays st ++ [Val]) st) ;;
    modify (fun st => set_KernelIds (KernelIds st ++ [name Array]) st) ;;
    modify (fun st => set_IDToSAI (assoc_insert (name Array) Val (IDToSAI st)) st) ;;
    ret (Nat.succ Arg).

Definition bindHostIterator (FN : Function) (Arg : nat) (Id : isl_id) : Gen nat :=
  Val <- Argument_at FN Arg ;;
  modify (fun st => set_IDToValue (assoc_insert Id Val (IDToValue st)) st) ;;
  ret (Nat.succ Arg).

Definition bindParameter (FN : Function) (Arg : nat) (Id : isl_id) : Gen nat :=
  NewVal <- Argument_at FN Arg ;;
  Val <- IDToValue_at Id ;;
  modify (fun st => set_ValueMap (assoc_insert Val NewVal (ValueMap st)) st) ;;
  modify (fun st => set_IDToValue (assoc_insert Id NewVal (IDToValue st)) st) ;;
  ret (Nat.succ Arg).

Definition bindSubtreeValue (FN : Function) (Arg : nat) (V : Value) : Gen nat :=
  NewVal <- Argument_at FN Arg ;;
  modify (fun st => set_ValueMap (assoc_insert V NewVal (ValueMap st)) st) ;;
  ret (Nat.succ Arg).

(** Create the declaration of a kernel function. *)
Definition createKernelFunctionDecl (Kernel : ppcg_kernel) (SubtreeValues : list Value)
    : Gen Function :=
  let Identifier := getKernelFuncName (id Kernel) in
  Args <- kernelArgumentTypes Kernel SubtreeValues ;;
  let FN := mkFunction Identifier (Some (id Kernel)) Args in
  Arg <- fold_gen (seq 0 (Z.to_nat (n_array Kernel))) 0%nat (bindArrayArgument Kernel FN) ;;
  Arg <- fold_gen (space_set Kernel) Arg (bindHostIterator FN) ;;
  Arg <- fold_gen (space_param Kernel) Arg (bindParameter FN) ;;
  _ <- fold_gen SubtreeValues Arg (bindSubtreeValue FN) ;;
  ret FN.

(** Insert intrinsic functions to obtain thread and block ids. *)
Definition insertKernelIntrinsics (Kernel : ppcg_kernel) : Gen unit :=
  let IntrinsicsBID :=
    ["llvm.nvvm.read.ptx.sreg.ctaid.x"; "llvm.nvvm.read.ptx.sreg.ctaid.y"] in
  let IntrinsicsTID :=
    ["llvm.nvvm.read.ptx.sreg.tid.x"; "llvm.nvvm.read.ptx.sreg.tid.y";
     "llvm.nvvm.read.ptx.sreg.tid.z"] in
  let addId (Ids Intrinsics : list string) (i : nat) : Gen unit :=
    match Intrinsics !! i with
    | None => fatal "index past the end of the intrinsics"
    | Some Intr =>
        let Id := default "" (Ids !! i) in
        emit (IReadIndex Intr) ;;
        modify (fun st =>
          set_IDToValue
            (assoc_insert Id (KernelIntrinsicRead (id Kernel) Intr) (IDToValue st)) st)
    end in
  for_each (seq 0 (Z.to_nat (n_grid Kernel))) (addId (block_ids Kernel) IntrinsicsBID) ;;
  for_each (seq 0 (Z.to_nat (n_block Kernel))) (addId (thread_ids Kernel) IntrinsicsTID).

Definition prepareKernelArgument (Kernel : ppcg_kernel) (FN : Function) (Arg i : nat)
    : Gen nat :=
  if negb (ppcg_kernel_requires_array_argument Kernel i) then ret Arg
  else
    Array <- Prog_array i ;;
    let SAI := user Array in
    if (0 <? getNumberOfDimensions SAI)%nat then ret (Nat.succ Arg)
    else
      _ <- Argument_at FN Arg ;;
      (if negb (gpu_array_is_read_only_scalar Array)
       then emit (ILoadScalarArgument (name Array) Arg) else ret tt) ;;
      _ <- BlockGen_getOrCreateAlloca SAI ;;
      emit (IStoreScalarSlot (name Array)) ;;
      ret (Nat.succ Arg).

(** Prepare the kernel arguments for kernel code generation. *)
Definition prepareKernelArguments (Kernel : ppcg_kernel) (FN : Function) : Gen unit :=
  _ <- fold_gen (seq 0 (Z.to_nat (n_array Kernel))) 0%nat
         (prepareKernelArgument Kernel FN) ;;
  ret tt.

(** One round of the loop of [finalizeKernelArguments]; the local
    variables are the argument iterator and [StoredScalar]. *)
Definition finalizeKernelArgument (Kernel : ppcg_kernel) (FN : Function)
    (L : nat * bool) (i : nat) : Gen (nat * bool) :=
  let Arg := L.1 in
  if negb (ppcg_kernel_requires_array_argument Kernel i) then ret L
  else
    Array <- Prog_array i ;;
    let SAI := user Array in
    if (0 <? getNumberOfDimensions SAI)%nat then ret (Nat.succ Arg, L.2)
    else if gpu_array_is_read_only_scalar Array then ret (Nat.succ Arg, L.2)
    else
      _ <- BlockGen_getOrCreateAlloca SAI ;;
      _ <- Argument_at FN Arg ;;
      emit (IStoreScalarArgument (name Array) Arg) ;;
      ret (Nat.succ Arg, true).

(** Finalize the generation of the kernel arguments. *)
Definition finalizeKernelArguments (Kernel : ppcg_kernel) : Gen unit :=
  st <- get ;;
  let FN := InsertFunction st in
  L <- fold_gen (seq 0 (Z.to_nat (n_array Kernel))) (0%nat, false)
         (finalizeKernelArgument Kernel FN) ;;
  let StoredScalar := L.2 in
  if StoredScalar then
    if negb (n_block Kernel =? 0) || negb (n_grid Kernel =? 0)
    then modify (set_BuildSuccessful false)
    else ret tt
  else ret tt.

(** Create declarations for kernel variable. *)
Definition createKernelVariables (Kernel : ppcg_kernel) : Gen unit :=
  for_each (var Kernel) (fun Var =>
    Allocation <-
      match var_type Var with
      | ppcg_access_shared => ret (KernelVariable (id Kernel) (var_name Var) true)
      | ppcg_access_private => ret (KernelVariable (id Kernel) (var_name Var) false)
      | ppcg_access_global => fatal "unknown variable type"
      end ;;
    modify (fun st =>
      set_IDToValue (assoc_insert (var_name Var) Allocation (IDToValue st)) st) ;;
    modify (fun st => set_LocalArrays (LocalArrays st ++ [Allocation]) st) ;;
    modify (fun st => set_KernelIds (KernelIds st ++ [var_name Var]) st) ;;
    modify (fun st =>
      set_IDToSAI (assoc_insert (var_name Var) Allocation (IDToSAI st)) st)).

(** Create kernel function. *)
Definition createKernelFunction (Kernel : ppcg_kernel) (SubtreeValues : list Value)
    (SubtreeFunctions : list Value) : Gen unit :=
  FN <- createKernelFunctionDecl Kernel SubtreeValues ;;
  modify (set_GPUModule (Some FN)) ;;
  modify (SetInsertPoint FN "") ;;
  emit IRetVoid ;;
  modify (SetInsertPoint FN "ret") ;;
  prepareKernelArguments Kernel FN ;;
  createKernelVariables Kernel ;;
  insertKernelIntrinsics Kernel.

(** Setup the creation of functions referenced by the GPU kernel. *)
Definition setupKernelSubtreeFunctions (SubtreeFunctions : list Value) : Gen unit :=
  for_each SubtreeFunctions (fun Fn =>
    st <- get ;;
    let Clone :=
      match Fn with
      | FunctionValue ClonedFnName intrinsic _ =>
          FunctionValue ClonedFnName intrinsic (GPUModule st ≫= FnKernel)
      | _ => Fn
      end in
    assert_ (bool_decide (assoc_lookup Fn (ValueMap st) = None))
            "Fn already present in ValueMap" ;;
    modify (fun st => set_ValueMap (assoc_insert Fn Clone (ValueMap st)) st)).

(** Finalize the generation of the kernel function. *)
Definition finalizeKernelFunction : Gen string :=
  st <- get ;;
  match GPUModule st with
  | None => fatal "null GPUModule"
  | Some M =>
      if verifyModule M (Code st) then
        if FailOnVerifyModuleFailure Opt then fatal "VerifyModule failed."
        else
          modify (set_BuildSuccessful false) ;;
          ret ""
      else
        let Assembly := kernelText Arch M (Code st) in
        modify (set_GPUModule None) ;;
        ret Assembly
  end.

(** [std::max] on the loop depths. *)
Definition noteKernelDepth (Kernel : ppcg_kernel) : Gen unit :=
  let depth := Z.of_nat (length (space_set Kernel)) in
  if 1 <? n_grid Kernel then
    modify (fun st => set_DeepestParallel (Z.max (DeepestParallel st) depth) st)
  else
    modify (fun st => set_DeepestSequential (Z.max (DeepestSequential st) depth) st).

(** Create GPU kernel. [lowerTree] is [create] on the device-side tree
    of the kernel. *)
Definition createKernel (Kernel : ppcg_kernel) (tree : isl_ast_node)
    (lowerTree : Gen unit) : Gen unit :=
  noteKernelDepth Kernel ;;
  let BlockDim := getBlockSizes Kernel in
  Refs <- getReferencesInKernel Kernel tree ;;
  let SubtreeValues := Refs.1 in
  let SubtreeFunctions := Refs.2 in
  st <- get ;;
  let HostInsertFunction := InsertFunction st in
  let HostInsertPoint := InsertBefore st in
  let HostIDs := IDToValue st in
  let HostValueMap := ValueMap st in
  let HostScalarMap := ScalarMap st in
  modify (set_ScalarMap []) ;;
  createKernelFunction Kernel SubtreeValues SubtreeFunctions ;;
  setupKernelSubtreeFunctions SubtreeFunctions ;;
  lowerTree ;;
  finalizeKernelArguments Kernel ;;
  st <- get ;;
  let F := InsertFunction st in
  modify (set_IDToValue HostIDs) ;;
  modify (set_ValueMap HostValueMap) ;;
  modify (set_ScalarMap HostScalarMap) ;;
  modify (set_IDToSAI []) ;;
  modify (set_LocalArrays []) ;;
  ASMString <- finalizeKernelFunction ;;
  modify (SetInsertPoint HostInsertFunction HostInsertPoint) ;;
  L <- createLaunchParameters Kernel F SubtreeValues ;;
  _ <- createCallGetKernel (id Kernel) ASMString ;;
  let GridDim := getGridSizes Kernel in
  createCallLaunchKernel (id Kernel) GridDim.1 GridDim.2
    BlockDim.1.1 BlockDim.1.2 BlockDim.2 (Parameters L) ;;
  createCallFreeKernel (id Kernel) ;;
  modify (set_KernelIds []).

(** Create code for user-defined AST nodes. [lowerTree] is [create] on the
    tree of the kernel when the node carries one. *)
Definition createUser (Str : isl_id) (anno : annotation isl_ast_node)
    (lowerTree : Gen unit) : Gen unit :=
  if String.eqb Str "kernel" then
    match anno with
    | anno_kernel Kernel tree => createKernel Kernel tree lowerTree
    | _ => fatal "the annotation of a kernel node is not a kernel"
    end
  else if isPrefix Str "to_device" then
    if negb (ManagedMemory Opt) then
      match anno with
      | anno_array Array => createDataTransfer Array HOST_TO_DEVICE
      | _ => fatal "the user of a transfer node is not an array"
      end
    else ret tt
  else if isPrefix Str "from_device" then
    if negb (ManagedMemory Opt) then
      match anno with
      | anno_array Array => createDataTransfer Array DEVICE_TO_HOST
      | _ => fatal "the user of a transfer node is not an array"
      end
    else createCallSynchronizeDevice
  else
    match anno with
    | anno_stmt (ppcg_kernel_domain Stmt) => createScopStmt Stmt
    | anno_stmt (ppcg_kernel_copy read array) => createKernelCopy read array
    | anno_stmt ppcg_kernel_sync => createKernelSync
    | anno_stmt ppcg_kernel_unknown => ret tt
    | _ => fatal "the annotation of a statement node is not a kernel statement"
    end.

(** Modelled from the spec: [IslNodeBuilder::create], the walker that
    [GPUNodeBuilder] inherits, is not in this file. It consumes the tree
    node by node: the children of a block in order, the body of a loop
    with its iterator bound to the loop counter, both branches of a
    condition, and each user node through [createUser]. *)
Fixpoint create (Node : isl_ast_node) : Gen unit :=
  match Node with
  | isl_ast_node_block children =>
      (fix create_all (l : list isl_ast_node) : Gen unit :=
         match l with
         | [] => ret tt
         | c :: l' => create c ;; create_all l'
         end) children
  | isl_ast_node_for iterator body =>
      modify (fun st =>
        set_IDToValue
          (assoc_insert iterator
             (InductionVariable iterator (FnKernel (InsertFunction st)))
             (IDToValue st)) st) ;;
      create body ;;
      modify (fun st => set_IDToValue (assoc_erase iterator (IDToValue st)) st)
  | isl_ast_node_if then_ else_ => create then_ ;; create else_
  | isl_ast_node_mark _ node => create node
  | isl_ast_node_user Str anno =>
      createUser Str anno
        match anno with
        | anno_kernel _ tree => create tree
        | _ => ret tt
        end
  end.

(** The condition of the branch that guards the generated code. *)
Inductive Guard := GuardTrue | GuardRTC | GuardFalse.

(** The node builder as [generateCode] sets it up: the parameters are
    materialised, nothing else is bound, and code goes into the host
    function. *)
Definition initialBuilder : GPUNodeBuilder :=
  {| BuildSuccessful := true;
     DeepestSequential := 0;
     DeepestParallel := 0;
     IDToValue := map (fun Id => (Id, parameterValue Id)) (ParamSpace S);
     ValueMap := [];
     ScalarMap := [];
     IDToSAI := [];
     LocalArrays := [];
     KernelIds := [];
     DeviceAllocations := [];
     GPUModule := None;
     InsertFunction := mkFunction (FunctionName S) None [];
     InsertBefore := "polly.start";
     Code := [] |}.

(** Generate code for a given GPU AST described by [Root]: the guard of
    the generated code and the node builder at the end. *)
Definition generateCode (Root : isl_ast_node) : Result Guard :=
  let Guard_ := GuardTrue in              (* executeScopConditionally with getTrue() *)
  let Guard_ := GuardRTC in               (* setOperand(0, RTC) *)
  match (initializeAfterRTH ;; create Root ;; finalize) initialBuilder with
  | Fatal msg st => Fatal msg st
  | Ok _ NodeBuilder =>
      let Guard_ :=
        if DeepestParallel NodeBuilder <? DeepestSequential NodeBuilder
        then GuardFalse else Guard_ in
      let Guard_ :=
        if negb (BuildSuccessful NodeBuilder) then GuardFalse else Guard_ in
      Ok Guard_ NodeBuilder
  end.

End Lowering.

(** ** The pass *)

Section Pass.

Context `{Ext : External}.
Variable Opt : Options.
Variable Runtime : GPURuntime.
Variable Architecture : GPUArch.

Definition isFunctionPointer (SrcVal : Value) : bool :=
  match getType SrcVal with
  | PointerTy FunctionTy _ => true
  | _ => false
  end.

(** Check if the basic block contains a function we cannot codegen for GPU
    kernels. [None]: the callee of a call is a null pointer. *)
Fixpoint containsInvalidKernelFunctionInInsts (Insts : list Instruction) : option bool :=
  match Insts with
  | [] => Some false
  | Inst :: rest =>
      if IsCall Inst then
        match getCalledFunction Inst with
        | None => None                   (* assert(F && "F is an invalid pointer") *)
        | Some F =>
            if isValidFunctionInKernel F then containsInvalidKernelFunctionInInsts rest
            else if existsb isFunctionPointer (Operands Inst) then Some true
            else containsInvalidKernelFunctionInInsts rest
        end
      else if existsb isFunctionPointer (Operands Inst) then Some true
      else containsInvalidKernelFunctionInInsts rest
  end.

Definition containsInvalidKernelFunctionInBllock (BB : BasicBlock) : option bool :=
  containsInvalidKernelFunctionInInsts (Insts BB).

Fixpoint containsInvalidKernelFunctionInBlocks (Blocks : list BasicBlock) : option bool :=
  match Blocks with
  | [] => Some false
  | BB :: rest =>
      match containsInvalidKernelFunctionInBllock BB with
      | None => None
      | Some true => Some true
      | Some false => containsInvalidKernelFunctionInBlocks rest
      end
  end.

(** Return whether the Scop S uses functions in a way that we do not
    support. *)
Fixpoint containsInvalidKernelFunctionInStmts (Stmts : list ScopStmt) : option bool :=
  match Stmts with
  | [] => Some false
  | Stmt :: rest =>
      match containsInvalidKernelFunctionInBlocks (StmtBlocks Stmt) with
      | None => None
      | Some true => Some true
      | Some false => containsInvalidKernelFunctionInStmts rest
      end
  end.

Definition containsInvalidKernelFunction (S : Scop) : option bool :=
  containsInvalidKernelFunctionInStmts (Stmts S).

(** What a run of the pass on a region leaves behind. *)
Inductive PassOutcome : Type :=
| BailedOut
    (* returned false before anything was built: the region is as it was *)
| NothingGenerated
    (* returned true, PPCG produced no tree: the region is as it was *)
| Generated (guard : Guard) (NodeBuilder : GPUNodeBuilder)
    (* returned true: the generated code, behind its guard, and the
       region marked as to be skipped *)
| Aborted (msg : string).

Definition runOnScop (CurrentScop : Scop) : PassOutcome :=
  match containsInvalidKernelFunction CurrentScop with
  | None => Aborted "F is an invalid pointer"
  | Some true => BailedOut
  | Some false =>
      match computeMustKillsInfo CurrentScop, createArrays CurrentScop with
      | Some KillsInfo, Some PPCGProg =>
          match generate_code CurrentScop KillsInfo PPCGProg with
          | Some tree =>
              match generateCode Opt CurrentScop PPCGProg Runtime Architecture tree with
              | Ok guard NodeBuilder => Generated guard NodeBuilder
              | Fatal msg _ => Aborted msg
              end
          | None => NothingGenerated
          end
      | _, _ => Aborted "assertion failed while setting up the PPCG scop"
      end
  end.

End Pass.


(** ** Vocabulary of the properties *)

(** The kernels [create] lowers, in the order it meets them: the nodes
    named "kernel" and, after each, those of its device-side tree. *)
Fixpoint kernelsOf (Node : isl_ast_node) : list ppcg_kernel :=
  match Node with
  | isl_ast_node_block children =>
      (fix all (l : list isl_ast_node) : list ppcg_kernel :=
         match l with
         | [] => []
         | c :: l' => kernelsOf c ++ all l'
         end) children
  | isl_ast_node_for _ body => kernelsOf body
  | isl_ast_node_if then_ else_ => kernelsOf then_ ++ kernelsOf else_
  | isl_ast_node_mark _ node => kernelsOf node
  | isl_ast_node_user Str (anno_kernel Kernel tree) =>
      if String.eqb Str "kernel" then Kernel :: kernelsOf tree else []
  | isl_ast_node_user _ _ => []
  end.

(** The number of host loops around a kernel, and whether it counts as
    parallel. *)
Definition kernelDepth (Kernel : ppcg_kernel) : Z :=
  Z.of_nat (length (space_set Kernel)).
Definition isParallel (Kernel : ppcg_kernel) : bool := 1 <? n_grid Kernel.

(** The largest depth among the parallel ([p = true]) or the other
    ([p = false]) kernels of a list, and [d0]. *)
Definition deepest (p : bool) (Kernels : list ppcg_kernel) (d0 : Z) : Z :=
  fold_left Z.max
    (map kernelDepth (List.filter (fun K => Bool.eqb (isParallel K) p) Kernels)) d0.

(** The elements the statements of the region access, and those of one
    array among them. *)
Definition accessedElements (S : Scop) : union_set :=
  isl_union_map_range (isl_union_map_intersect_domain (Accesses S) (Domains S)).

Definition accessedElementsOf (S : Scop) (Array : ScopArrayInfo) : point_set :=
  isl_union_set_extract_set (accessedElements S) (getSpace Array).

(** The range [0 .. s - 1] of an inner dimension of declared size [s]. *)
Definition innerInterval (s : Z) : interval := mkInterval (Some 0) (Some (s - 1)).


(** The smallest index accessed in dimension 0 of the array with the id
    of [Array], in the region [S]. *)
Definition outerMinimum (S : Scop) (Array : ScopArrayInfo) : pw_aff :=
  match arrayOf S Array with
  | Some Array' => isl_set_dim_min (accessedElementsOf S Array') 0
  | None => None
  end.


(** The scalars a [MustKillsInfo] kills, and when the uses of a scalar all
    lie inside the region. *)
Definition inKillSet (Info : MustKillsInfo) (SAI : ScopArrayInfo) : Prop :=
  BasePtrId SAI ∈ map killed (TaggedMustKills Info).

Definition usedOnlyInRegion (S : Scop) (SAI : ScopArrayInfo) : Prop :=
  Forall (fun U => exists Inst, U = UserInstruction Inst /\ Region_contains S Inst = true)
         (BasePtrUsers SAI).

(** The selection rule of [computeMustKillsInfo], as a test on one array. *)
Definition userContained (S : Scop) (U : User) : bool :=
  match dyn_cast_Instruction U with
  | Some Inst => Region_contains S Inst
  | None => false
  end.

Definition selected (S : Scop) (SAI : ScopArrayInfo) : bool :=
  isPHIKind SAI || (isValueKind SAI && forallb (userContained S) (BasePtrUsers SAI)).

Definition usersAreInstructions (SAI : ScopArrayInfo) : Prop :=
  Forall (fun U => is_Some (dyn_cast_Instruction U)) (BasePtrUsers SAI).

(** Whether [finalizeKernelArguments] stores the [i]-th array back: it is
    an argument of the kernel, has no dimension and is not a read-only
    scalar. *)
Definition storedScalar (Prog : list gpu_array_info) (Kernel : ppcg_kernel) (i : nat)
    : bool :=
  ppcg_kernel_requires_array_argument Kernel i &&
  match Prog !! i with
  | Some Array =>
      negb (0 <? getNumberOfDimensions (user Array))%nat &&
      negb (gpu_array_is_read_only_scalar Array)
  | None => false
  end.

Definition storesScalar (Prog : list gpu_array_info) (Kernel : ppcg_kernel) : bool :=
  existsb (storedScalar Prog Kernel) (seq 0 (Z.to_nat (n_array Kernel))).

(** The grid or the block of the kernel has at least one dimension. *)
Definition hasDimensions (Kernel : ppcg_kernel) : bool :=
  negb (n_block Kernel =? 0) || negb (n_grid Kernel =? 0).

(** What the statements of a kernel tree reference, together with the
    values the ids are bound to: the set [getReferencesInKernel] filters. *)
Definition referencedIn (tree : isl_ast_node) (st : GPUNodeBuilder)
    : option (list Value) :=
  References ← foreach_descendant_top_down tree
                 (sv_insert_all (map snd (IDToValue st)) [], []);
  Some (fold_left (fun SV Expr => sv_insert_all Expr SV) References.2 References.1).

(** The value one of the ids is bound to. *)
Definition boundTo (Ids : list isl_id) (st : GPUNodeBuilder) (V : Value) : Prop :=
  exists Id, Id ∈ Ids /\ assoc_lookup Id (IDToValue st) = Some V.

Definition isBasePtr (S : Scop) (V : Value) : Prop :=
  exists SAI, SAI ∈ Arrays S /\ V = BasePtr SAI.

(** The values a kernel gets through arguments of their own: the base
    pointers of the arrays, the parameters, and the iterators of the
    space of the kernel. *)
Definition passedImplicitly (S : Scop) (K : ppcg_kernel) (st : GPUNodeBuilder)
    (V : Value) : Prop :=
  isBasePtr S V \/ boundTo (ParamSpace S) st V \/ boundTo (space_set K) st V.

(** The instructions of the statements of a region. *)
Definition instructionsOf (S : Scop) : list Instruction :=
  flat_map (fun Stmt => flat_map Insts (StmtBlocks Stmt)) (Stmts S).

(** An operand of the instruction is a function that is not valid in a
    kernel. *)
Definition namesInvalidFunction (Inst : Instruction) : Prop :=
  exists F, F ∈ Operands Inst /\ isaFunction F = true /\ isValidFunctionInKernel F = false.

Definition referencesInvalidFunction (S : Scop) : Prop :=
  exists Inst, Inst ∈ instructionsOf S /\ namesInvalidFunction Inst.

(** A call of a function that is valid in a kernel. *)
Definition isIntrinsicCall (Inst : Instruction) : bool :=
  IsCall Inst &&
  match getCalledFunction Inst with
  | Some F => isValidFunctionInKernel F
  | None => false
  end.

(** What the types of LLVM give: a call names its callee, and the
    arguments of an intrinsic that is valid in a kernel are no functions. *)
Definition wellFormedInstruction (Inst : Instruction) : bool :=
  (negb (IsCall Inst) || bool_decide (is_Some (getCalledFunction Inst))) &&
  (negb (isIntrinsicCall Inst) ||
   forallb (fun V => negb (isaFunction V)) (removelast (Operands Inst))).

(** The arrays a kernel takes as arguments, in the order of the program. *)
Definition requiredArray (Prog : list gpu_array_info) (K : ppcg_kernel) (i : nat)
    : option gpu_array_info :=
  if ppcg_kernel_requires_array_argument K i then Prog !! i else None.

Definition requiredArrays (Prog : list gpu_array_info) (K : ppcg_kernel)
    : list gpu_array_info :=
  omap (requiredArray Prog K) (seq 0 (length Prog)).

(** The slot of an array holds the address of the value of a read-only
    scalar, and the address of a copy of the device pointer otherwise. *)
Definition isSlotOf (Array : gpu_array_info) (slot : SlotValue) : Prop :=
  if gpu_array_is_read_only_scalar Array
  then exists ValPtr, slot = ScalarPointer ValPtr
  else exists DevArray, slot = BoxedDevicePointer DevArray.

(** The value an id is bound to. *)
Definition boundIn (st : GPUNodeBuilder) (Id : isl_id) (V : Value) : Prop :=
  assoc_lookup Id (IDToValue st) = Some V.

(** The launch state after [storeParameter] for slots and size words in
    turn. *)
Definition storeAll (ps : list (SlotValue * Z)) (L : LaunchState) : LaunchState :=
  fold_left (fun L p => parameterStored p.1 p.2 L) ps L.

(** The slot and the size word of a value passed as it is. *)
Definition valueSlot (V : Value) : SlotValue * Z :=
  (BoxedValue V, computeSizeInBytes (getType V)).

(** The first slots and size words of a launch state for [n] arguments
    are filled, the others are as allocated. *)
Definition packed (n : nat) (L : LaunchState) (vals : list SlotValue) (sizes : list Z)
    : Prop :=
  Index L = length vals /\ length sizes = length vals /\ (length vals <= n)%nat /\
  ArgSizes L = sizes ++ replicate (n - length vals) 0 /\
  Parameters L = map Some vals ++ replicate (2 * n - length vals) None.

(** ** Vocabulary for reasoning about runs *)

(** [inv R c]: every run of [c], completed or not, takes a state to one
    related to it by [R]. *)
Definition inv {A : Type} (R : relation GPUNodeBuilder) (c : Gen A) : Prop :=
  forall st, R st (final_state (c st)).

(** [okrel R c]: every run of [c] that completes does. *)
Definition okrel {A : Type} (R : relation GPUNodeBuilder) (c : Gen A) : Prop :=
  forall st a st', c st = Ok a st' -> R st st'.

(** Same value of a component before and after. *)
Definition same {X : Type} (f : GPUNodeBuilder -> X) : relation GPUNodeBuilder :=
  fun st st' => f st' = f st.

(** The two loop depths, sequential first. *)
Definition depths (st : GPUNodeBuilder) : Z * Z := (DeepestSequential st, DeepestParallel st).

(** The loop depths after in terms of those before. *)
Definition upd (g : Z * Z -> Z * Z) : relation GPUNodeBuilder :=
  fun st st' => depths st' = g (depths st).

(** The depths once a kernel, and once a list of kernels, is noted. *)
Definition noteDepth (d : Z * Z) (K : ppcg_kernel) : Z * Z :=
  if isParallel K then (d.1, Z.max d.2 (kernelDepth K))
  else (Z.max d.1 (kernelDepth K), d.2).

Definition depthsAfter (Kernels : list ppcg_kernel) (d : Z * Z) : Z * Z :=
  fold_left noteDepth Kernels d.

(** The host side of the builder, which [createKernel] saves and
    restores: the bindings of the ids, the value map, the scalar map and
    the insertion point. *)
Definition hostSide (st : GPUNodeBuilder) :=
  (IDToValue st, ValueMap st, ScalarMap st, (InsertFunction st, InsertBefore st)).

(** Scalar maps that differ by stack slots made in the function [F] under
    the value map [VM]. *)
Inductive allocaSteps `{External} (F : Function) (VM : list (Value * Value))
    : relation (list (isl_id * Value)) :=
| allocaSteps_refl SM : allocaSteps F VM SM SM
| allocaSteps_step SAI SM SM' :
    allocaSteps F VM (getOrCreateAlloca SAI F VM SM).2 SM' -> allocaSteps F VM SM SM'.

(** The host side is as before but for stack slots made in the function
    of the insertion point. *)
Definition hostAllocas `{External} : relation GPUNodeBuilder := fun st st' =>
  IDToValue st' = IDToValue st /\ ValueMap st' = ValueMap st /\
  InsertFunction st' = InsertFunction st /\ InsertBefore st' = InsertBefore st /\
  allocaSteps (InsertFunction st) (ValueMap st) (ScalarMap st) (ScalarMap st').

(** The calls that allocate, free or copy device memory. *)
Definition isMemoryCall (i : Instr) : bool :=
  match i with
  | ICall (polly_allocateMemoryForDevice _ _)
  | ICall (polly_freeDeviceMemory _)
  | ICall (polly_copyFromHostToDevice _ _)
  | ICall (polly_copyFromDeviceToHost _ _) => true
  | _ => false
  end.

(** The call that waits for the device. *)
Definition isSynchronize (i : Instr) : bool :=
  match i with
  | ICall polly_synchronizeDevice => true
  | _ => false
  end.

(** How many of the instructions inserted so far satisfy [p]. *)
Definition calls (p : Instr -> bool) (st : GPUNodeBuilder) : nat :=
  length (List.filter p (map snd (Code st))).

Definition memoryCalls : GPUNodeBuilder -> nat := calls isMemoryCall.
Definition synchronizations : GPUNodeBuilder -> nat := calls isSynchronize.
Definition hostCalls (st : GPUNodeBuilder) : nat * nat :=
  (memoryCalls st, synchronizations st).

(** [n] more synchronizations after than before. *)
Definition adds (n : nat) : relation GPUNodeBuilder :=
  fun st st' => synchronizations st' = (synchronizations st + n)%nat.

(** The nodes [createUser] takes for transfers from the device, in the
    tree and in the trees of its kernels. *)
Fixpoint fromDeviceNodes (Node : isl_ast_node) : nat :=
  match Node with
  | isl_ast_node_block children =>
      (fix all (l : list isl_ast_node) : nat :=
         match l with
         | [] => 0
         | c :: l' => fromDeviceNodes c + all l'
         end)%nat children
  | isl_ast_node_for _ body => fromDeviceNodes body
  | isl_ast_node_if then_ else_ => (fromDeviceNodes then_ + fromDeviceNodes else_)%nat
  | isl_ast_node_mark _ node => fromDeviceNodes node
  | isl_ast_node_user Str anno =>
      if String.eqb Str "kernel" then
        match anno with
        | anno_kernel _ tree => fromDeviceNodes tree
        | _ => 0%nat
        end
      else if isPrefix Str "to_device" then 0%nat
      else if isPrefix Str "from_device" then 1%nat
      else 0%nat
  end.

(** ** Vocabulary of the further properties *)

(** The product of the numbers of a list. *)
Definition product (l : list Z) : Z := fold_right Z.mul 1 l.

(** A number within the bounds of an interval, where it has them. *)
Definition inInterval (x : Z) (i : interval) : Prop :=
  (forall l, lower i = Some l -> l <= x) /\ (forall u, upper i = Some u -> x <= u).

(** A point of a set. *)
Definition inSet (p : list Z) (s : set) : Prop :=
  match s with
  | empty_set _ => False
  | box d => Forall2 inInterval p d
  end.

(** The calls of the run-time library the host code is made of, by kind. *)
Inductive CallKind : Type :=
| KindInitContext | KindFreeContext | KindAllocate | KindFree
| KindCopyToDevice | KindCopyFromDevice | KindSynchronize
| KindGetDevicePtr | KindGetKernel | KindLaunch | KindFreeKernel.

#[global] Instance CallKind_eq_dec : EqDecision CallKind.
Proof. solve_decision. Defined.

(** The kind of a call. *)
Definition kindOf (c : RuntimeCall) : CallKind :=
  match c with
  | polly_initContext _ => KindInitContext
  | polly_freeContext => KindFreeContext
  | polly_allocateMemoryForDevice _ _ => KindAllocate
  | polly_freeDeviceMemory _ => KindFree
  | polly_copyFromHostToDevice _ _ => KindCopyToDevice
  | polly_copyFromDeviceToHost _ _ => KindCopyFromDevice
  | polly_synchronizeDevice => KindSynchronize
  | polly_getDevicePtr _ => KindGetDevicePtr
  | polly_getKernel _ _ => KindGetKernel
  | polly_launchKernel _ _ _ _ _ _ _ => KindLaunch
  | polly_freeKernel _ => KindFreeKernel
  end.

(** Is the instruction a call of kind [k]? *)
Definition isCallOf (k : CallKind) (i : Instr) : bool :=
  match i with
  | ICall c => bool_decide (kindOf c = k)
  | _ => false
  end.

(** How many calls of each kind a piece of code contains: context set-up
    and tear-down apart, the calls that manage device memory, move data and
    run kernels. *)
Record Census : Type := mkCensus {
  allocations : nat;
  releases : nat;
  copiesToDevice : nat;
  copiesFromDevice : nat;
  waits : nat;
  kernelsLoaded : nat;
  launches : nat;
  kernelsReleased : nat
}.

(** The census of a piece of code. *)
Definition censusOf (code : list Instr) : Census :=
  let count k := length (List.filter (isCallOf k) code) in
  {| allocations := count KindAllocate;
     releases := count KindFree;
     copiesToDevice := count KindCopyToDevice;
     copiesFromDevice := count KindCopyFromDevice;
     waits := count KindSynchronize;
     kernelsLoaded := count KindGetKernel;
     launches := count KindLaunch;
     kernelsReleased := count KindFreeKernel |}.

(** The census of all the code inserted so far. *)
Definition census (st : GPUNodeBuilder) : Census := censusOf (map snd (Code st)).

(** The census of two pieces of code, one after the other. *)
Definition census_add (a b : Census) : Census :=
  {| allocations := allocations a + allocations b;
     releases := releases a + releases b;
     copiesToDevice := copiesToDevice a + copiesToDevice b;
     copiesFromDevice := copiesFromDevice a + copiesFromDevice b;
     waits := waits a + waits b;
     kernelsLoaded := kernelsLoaded a + kernelsLoaded b;
     launches := launches a + launches b;
     kernelsReleased := kernelsReleased a + kernelsReleased b |}%nat.

(** The census of no code. *)
Definition census_zero : Census := mkCensus 0 0 0 0 0 0 0 0.

(** The calls made between two states of the builder. *)
Definition tallies (v : Census) : relation GPUNodeBuilder :=
  fun st st' => census st' = census_add (census st) v.

(** The nodes [createUser] takes for transfers to the device. *)
Fixpoint toDeviceNodes (Node : isl_ast_node) : nat :=
  match Node with
  | isl_ast_node_block children =>
      (fix all (l : list isl_ast_node) : nat :=
         match l with
         | [] => 0
         | c :: l' => toDeviceNodes c + all l'
         end)%nat children
  | isl_ast_node_for _ body => toDeviceNodes body
  | isl_ast_node_if then_ else_ => (toDeviceNodes then_ + toDeviceNodes else_)%nat
  | isl_ast_node_mark _ node => toDeviceNodes node
  | isl_ast_node_user Str anno =>
      if String.eqb Str "kernel" then
        match anno with
        | anno_kernel _ tree => toDeviceNodes tree
        | _ => 0%nat
        end
      else if isPrefix Str "to_device" then 1%nat
      else 0%nat
  end.

(** The calls [create] makes for a tree. *)
Definition treeCensus (managed : bool) (Node : isl_ast_node) : Census :=
  {| allocations := 0;
     releases := 0;
     copiesToDevice := if managed then 0 else toDeviceNodes Node;
     copiesFromDevice := if managed then 0 else fromDeviceNodes Node;
     waits := if managed then fromDeviceNodes Node else 0;
     kernelsLoaded := length (kernelsOf Node);
     launches := length (kernelsOf Node);
     kernelsReleased := length (kernelsOf Node) |}.

(** The ids of the arrays of the program. *)
Definition arrayIds (Prog : list gpu_array_info) : list isl_id :=
  map (fun Array => BasePtrId (user Array)) Prog.

(** The arrays of the transfer nodes of a tree are among those with the
    ids [Ids]. *)
Fixpoint transfersKnown (Ids : list isl_id) (Node : isl_ast_node) : Prop :=
  match Node with
  | isl_ast_node_block children =>
      (fix all (l : list isl_ast_node) : Prop :=
         match l with
         | [] => True
         | c :: l' => transfersKnown Ids c /\ all l'
         end) children
  | isl_ast_node_for _ body => transfersKnown Ids body
  | isl_ast_node_if then_ else_ => transfersKnown Ids then_ /\ transfersKnown Ids else_
  | isl_ast_node_mark _ node => transfersKnown Ids node
  | isl_ast_node_user _ (anno_kernel _ tree) => transfersKnown Ids tree
  | isl_ast_node_user _ (anno_array Array) => BasePtrId (user Array) ∈ Ids
  | isl_ast_node_user _ (anno_stmt _) => True
  end.

(** The device allocations stay as they are, provided there is one for
    each of the ids [Ids]. *)
Definition keeps (Ids : list isl_id) : relation GPUNodeBuilder :=
  fun st st' =>
    (forall id, id ∈ Ids -> is_Some (assoc_lookup id (DeviceAllocations st))) ->
    DeviceAllocations st' = DeviceAllocations st.

(** Once cleared, the flag stays cleared. *)
Definition sticky : relation GPUNodeBuilder :=
  fun st st' => BuildSuccessful st = false -> BuildSuccessful st' = false.

(** An instruction that is not a call, or a call that names its callee:
    [getCalledFunction] is null for an indirect call. *)
Definition callIsDirect (Inst : Instruction) : bool :=
  negb (IsCall Inst) || bool_decide (is_Some (getCalledFunction Inst)).

(** What [containsInvalidKernelFunctionInBllock] looks for: an operand
    with the type of a pointer to a function, in an instruction other than
    a call of an intrinsic that is valid in a kernel. *)
Definition offending (Inst : Instruction) : bool :=
  negb (isIntrinsicCall Inst) && existsb isFunctionPointer (Operands Inst).

(** A formal argument of the function of kernel [k]. *)
Definition isKernelArgument (k : Z) (V : Value) : Prop :=
  exists j ty, V = KernelArgument k j ty.

(** The ids [Ids] and the values [Vals] are bound to formal arguments of
    the kernel [k]. *)
Definition boundToArguments (k : Z) (Ids : list isl_id) (Vals : list Value)
    (st : GPUNodeBuilder) : Prop :=
  (forall Id, Id ∈ Ids ->
     exists V, assoc_lookup Id (IDToValue st) = Some V /\ isKernelArgument k V) /\
  (forall Val, Val ∈ Vals ->
     exists V, assoc_lookup Val (ValueMap st) = Some V /\ isKernelArgument k V).

(** What the loops of [createLaunchParameters] keep: the bindings of the
    ids and the device allocations, and the length of [ArgSizes]. *)
Definition launchFrame (n : nat) (L0 : LaunchState) (st0 : GPUNodeBuilder)
    (L1 : LaunchState) (st1 : GPUNodeBuilder) : Prop :=
  IDToValue st1 = IDToValue st0 /\ DeviceAllocations st1 = DeviceAllocations st0 /\
  Index L1 = (Index L0 + n)%nat /\ length (ArgSizes L1) = length (ArgSizes L0).

(** ** A small region to run the definitions on

    One array [A] of 100 floats accessed as [A[i + 42]] for
    [0 <= i <= 57], a scalar [b] that is only read, a scalar [t] written in
    the region, and a phi node. *)

Module Example.

Definition body : string := "for.body".

Definition inst (n : string) (bb : string) (ops : list Value) : Instruction :=
  mkInstruction n bb false ops.

Definition A : ScopArrayInfo :=
  mkScopArrayInfo (HostValue "A" (PointerTy FloatTy 0)) [] "MemRef_A"
                  MK_Array FloatTy 4 [None] false.
Definition b : ScopArrayInfo :=
  mkScopArrayInfo (HostValue "b" FloatTy)
                  [UserInstruction (inst "mul" body [HostValue "b" FloatTy])]
                  "MemRef_b" MK_Value FloatTy 4 [] true.
Definition t : ScopArrayInfo :=
  mkScopArrayInfo (HostValue "t" FloatTy)
                  [UserInstruction (inst "add" body [HostValue "t" FloatTy]);
                   UserInstruction (inst "ret" "exit" [HostValue "t" FloatTy])]
                  "MemRef_t" MK_Value FloatTy 4 [] false.
Definition phi : ScopArrayInfo :=
  mkScopArrayInfo (HostValue "acc" FloatTy)
                  [UserInstruction (inst "ret" "exit" [HostValue "acc" FloatTy])]
                  "MemRef_acc__phi" MK_PHI FloatTy 4 [] false.

Definition stmt : ScopStmt :=
  mkScopStmt "Stmt_for_body" true
    [mkBasicBlock body [inst "mul" body [HostValue "b" FloatTy];
                        inst "add" body [HostValue "t" FloatTy]]]
    [HostValue "b" FloatTy; HostValue "A" (PointerTy FloatTy 0)] [].

Definition instances : list Z := map Z.of_nat (seq 0 58).

Definition accesses : union_map :=
  map (fun i => (("Stmt_for_body", [i]), ("MemRef_A", [i + 42]))) instances
  ++ map (fun i => (("Stmt_for_body", [i]), ("MemRef_b", []))) instances.

Definition scop : Scop :=
  mkScop "f" [body] [A; b; t; phi] [stmt] ["n"]
         (map (fun i => ("Stmt_for_body", [i])) instances) accesses [].


(** A matrix of 10 rows of 8 floats of which rows 2 to 6 are accessed. *)
Definition M : ScopArrayInfo :=
  mkScopArrayInfo (HostValue "M" (PointerTy FloatTy 0)) [] "MemRef_M"
                  MK_Array FloatTy 4 [None; Some (Some 8)] false.

Definition matrix_scop : Scop :=
  mkScop "g" [body] [M; A] [] []
         (map (fun i => ("Stmt_g", [i])) [2; 3; 4; 5; 6])
         (map (fun i => (("Stmt_g", [i]), ("MemRef_M", [i; 1]))) [2; 3; 4; 5; 6]) [].

(** The array [A] accessed as [A[i + k]] for [0 <= i <= 9], where [k] is
    a parameter of the region. *)
Definition sliding_at (k : Z) (elsewhere : list Scop) : Scop :=
  mkScop "s" [body] [A] [] ["k"]
         (map (fun i => ("Stmt_s", [i])) (map Z.of_nat (seq 0 10)))
         (map (fun i => (("Stmt_s", [i]), ("MemRef_A", [i + k]))) (map Z.of_nat (seq 0 10)))
         elsewhere.

(** The region where [k] is 0, [k] being 0 or 5 in its context. *)
Definition sliding : Scop := sliding_at 0 [sliding_at 5 []].

(** The rest of Polly for the runs below: scalars get one stack slot per
    function, made on demand; copying a statement leaves the maps alone;
    kernel modules verify; parameters are [i64] values of the host. *)
#[global] Instance external : External := {|
  getOrCreateAlloca SAI F VM SM :=
    match assoc_lookup (BasePtrId SAI) SM with
    | Some Addr => (Addr, SM)
    | None =>
        let Addr := ScalarAlloca (BasePtrId SAI) (FnKernel F) in
        (Addr, assoc_insert (BasePtrId SAI) Addr SM)
    end;
  copyStmt Stmt F IDs VM SM := (VM, SM);
  verifyModule F code := false;
  kernelText arch F code := "// kernel";
  parameterValue Id := HostValue Id getInt64Ty;
  generate_code S KillsInfo PPCGProg := None
|}.

Definition prog : list gpu_array_info := default [] (createArrays scop).

Definition array_A : gpu_array_info :=
  default (mkGpuArrayInfo "" 0 0 (empty_set 0) [] [] false A) (prog !! 0%nat).

(** A kernel over [A], [b] and [t] with a grid of 2 blocks of 32
    threads. *)
Definition kernel0 : ppcg_kernel :=
  {| id := 0; n_array := 4; n_grid := 1; n_block := 1;
     grid_size := [Some 2]; block_dim := [32];
     block_ids := ["b0"]; thread_ids := ["t0"];
     space_set := []; space_param := ["n"];
     requires_array_argument := [true; true; true; false];
     var := [] |}.

Definition device_tree : isl_ast_node :=
  isl_ast_node_for "c1"
    (isl_ast_node_user "Stmt_for_body" (anno_stmt (ppcg_kernel_domain stmt))).

Definition host_tree : isl_ast_node :=
  isl_ast_node_block
    [isl_ast_node_user "to_device_MemRef_A" (anno_array array_A);
     isl_ast_node_user "kernel" (anno_kernel kernel0 device_tree);
     isl_ast_node_user "from_device_MemRef_A" (anno_array array_A)].

(** A kernel over [A] alone, launched once per iteration of a host loop
    with a single block of a single thread. *)
Definition kernel1 : ppcg_kernel :=
  {| id := 1; n_array := 4; n_grid := 1; n_block := 1;
     grid_size := [Some 1]; block_dim := [1];
     block_ids := ["b0"]; thread_ids := ["t0"];
     space_set := ["c0"]; space_param := ["n"];
     requires_array_argument := [true; false; false; false];
     var := [] |}.

Definition loop_tree : isl_ast_node :=
  isl_ast_node_for "c0"
    (isl_ast_node_user "kernel" (anno_kernel kernel1 device_tree)).

(** The same kernel storing the scalar [t] as well. *)
Definition kernel2 : ppcg_kernel :=
  {| id := 2; n_array := 4; n_grid := 1; n_block := 1;
     grid_size := [Some 1]; block_dim := [1];
     block_ids := ["b0"]; thread_ids := ["t0"];
     space_set := ["c0"]; space_param := ["n"];
     requires_array_argument := [true; false; true; false];
     var := [] |}.

(** The same kernel without grid and block dimensions. *)
Definition kernel3 : ppcg_kernel :=
  {| id := 3; n_array := 4; n_grid := 0; n_block := 0;
     grid_size := []; block_dim := [];
     block_ids := []; thread_ids := [];
     space_set := ["c0"]; space_param := ["n"];
     requires_array_argument := [true; false; true; false];
     var := [] |}.

(** The builder inside the host loop over [c0], and inside the function
    of a kernel in that loop once [createKernelFunction] has built it. *)
Definition in_loop : GPUNodeBuilder :=
  set_IDToValue (("c0", InductionVariable "c0" None) :: IDToValue (initialBuilder scop))
                (initialBuilder scop).

Definition in_kernel (Kernel : ppcg_kernel) : GPUNodeBuilder :=
  final_state (createKernelFunction scop prog Kernel [] [] in_loop).

Definition device : Options := mkOptions false false.
Definition managed : Options := mkOptions true false.

(** A statement that takes the square root of a value [x] of the host
    and indexes with a value [m]. *)
Definition sqrt_stmt : ScopStmt :=
  mkScopStmt "Stmt_sqrt" true
    [mkBasicBlock body
       [mkInstruction "call" body true
          [HostValue "x" FloatTy; FunctionValue "llvm.sqrt.f32" true None]]]
    [HostValue "A" (PointerTy FloatTy 0); HostValue "x" FloatTy;
     FunctionValue "llvm.sqrt.f32" true None; InductionVariable "c0" None]
    [[HostValue "m" getInt64Ty; HostValue "n" getInt64Ty]].

Definition sqrt_tree : isl_ast_node :=
  isl_ast_node_for "c1"
    (isl_ast_node_user "Stmt_sqrt" (anno_stmt (ppcg_kernel_domain sqrt_stmt))).

(** A region whose statement calls [llvm.sqrt.f32] and then the routine
    [expf] of the C library. *)
Definition calling_stmt : ScopStmt :=
  mkScopStmt "Stmt_call" true
    [mkBasicBlock body
       [mkInstruction "root" body true
          [HostValue "x" FloatTy; FunctionValue "llvm.sqrt.f32" true None];
        mkInstruction "exp" body true
          [HostValue "x" FloatTy; FunctionValue "expf" false None]]]
    [HostValue "x" FloatTy] [].

Definition calling_scop : Scop :=
  mkScop "h" [body] [A] [calling_stmt] ["n"] [("Stmt_call", [0])]
         [(("Stmt_call", [0]), ("MemRef_A", [0]))] [].

(** A region whose statement calls through the function pointer [fp] and
    then the routine [expf] of the C library. *)
Definition indirect_stmt : ScopStmt :=
  mkScopStmt "Stmt_call" true
    [mkBasicBlock body
       [mkInstruction "ind" body true
          [HostValue "x" FloatTy; HostValue "fp" (PointerTy FunctionTy 0)];
        mkInstruction "exp" body true
          [HostValue "x" FloatTy; FunctionValue "expf" false None]]]
    [HostValue "x" FloatTy] [].

Definition indirect_scop : Scop :=
  mkScop "h" [body] [A] [indirect_stmt] ["n"] [("Stmt_call", [0])]
         [(("Stmt_call", [0]), ("MemRef_A", [0]))] [].

(** The builder once the runtime context is set up and the device
    arrays are allocated. *)
Definition initialized : GPUNodeBuilder :=
  final_state (initializeAfterRTH device prog CUDA (initialBuilder scop)).

End Example.

(* ===================================================================== *)
(** * Part II: the properties                                             *)
(* ===================================================================== *)

(** ** Kill-set selection *)

Section KillSet.

Variable S : Scop.

Lemma usersContained_forallb (Us : list User) :
  Forall (fun U => is_Some (dyn_cast_Instruction U)) Us ->
  usersContained S Us = Some (forallb (userContained S) Us).
Proof.
  induction 1 as [|U Us [Inst HU] _ IH]; simpl; [reflexivity|].
  unfold userContained at 1. rewrite HU.
  destruct (Region_contains S Inst); simpl; [exact IH | reflexivity].
Qed.

Lemma forallb_userContained (Us : list User) :
  forallb (userContained S) Us = true <->
  Forall (fun U => exists Inst, U = UserInstruction Inst /\ Region_contains S Inst = true) Us.
Proof.
  rewrite forallb_forall, Forall_forall. split; intros H U HU.
  - specialize (H U (proj1 (list_elem_of_In _ _) HU)). unfold userContained in H.
    destruct U as [Inst|]; simpl in H; [eauto | discriminate].
  - destruct (H U (proj2 (list_elem_of_In _ _) HU)) as (Inst & -> & HI). exact HI.
Qed.

Lemma collectKillMemIds_filter (arrays : list ScopArrayInfo) (acc : list isl_id) :
  Forall (fun SAI => isValueKind SAI = true -> usersAreInstructions SAI) arrays ->
  collectKillMemIds S arrays acc
  = Some (acc ++ map BasePtrId (List.filter (selected S) arrays)).
Proof.
  intros H. revert acc. induction H as [|SAI arrays HSAI _ IH]; intros acc; simpl.
  { by rewrite app_nil_r. }
  unfold selected at 1, isScalarUsesContainedInScop.
  destruct (isPHIKind SAI); simpl.
  { rewrite IH, <- app_assoc. reflexivity. }
  destruct (isValueKind SAI) eqn:HV; simpl; [|apply IH].
  rewrite (usersContained_forallb _ (HSAI eq_refl)).
  destruct (forallb (userContained S) (BasePtrUsers SAI)); simpl; [|apply IH].
  rewrite IH, <- app_assoc. reflexivity.
Qed.

Lemma addKill_fold (ids : list isl_id) (Info : MustKillsInfo) :
  map killed (TaggedMustKills (fold_left addKill ids Info))
  = map killed (TaggedMustKills Info) ++ ids.
Proof.
  revert Info. induction ids as [|x ids IH]; intros Info; simpl.
  { by rewrite app_nil_r. }
  rewrite IH. simpl. rewrite map_app, <- app_assoc. reflexivity.
Qed.

Lemma addKill_fold_schedule (ids : list isl_id) (Info : MustKillsInfo) :
  KillsSchedule (fold_left addKill ids Info) = None <->
  ids = [] /\ KillsSchedule Info = None.
Proof.
  revert Info. induction ids as [|x ids IH]; intros Info; simpl.
  { tauto. }
  rewrite IH. simpl. split; [|intros [? _]; discriminate].
  intros [_ H]. destruct (KillsSchedule Info); discriminate.
Qed.

Lemma NoDup_map_inj {A B : Type} (f : A -> B) (l : list A) (x y : A) :
  NoDup (map f l) -> x ∈ l -> y ∈ l -> f x = f y -> x = y.
Proof.
  induction l as [|a l IH]; simpl; intros Hnd Hx Hy Hf.
  { by apply elem_of_nil in Hx. }
  apply NoDup_cons in Hnd as [Ha Hnd].
  apply elem_of_cons in Hx as [->|Hx]; apply elem_of_cons in Hy as [->|Hy]; auto.
  - exfalso. apply Ha. rewrite Hf. apply (list_elem_of_fmap_2 f _ _ Hy).
  - exfalso. apply Ha. rewrite <- Hf. apply (list_elem_of_fmap_2 f _ _ Hx).
Qed.

(** C3. The must-kill set of a region contains every phi-kind scalar,
    contains a value-kind scalar exactly when all users of its base
    pointer are instructions of the region (so never one with a use
    outside), and contains nothing else. The run completes whenever the
    users of the value-kind scalars are instructions, which the code
    asserts; the ids of the arrays are pairwise distinct. *)
Theorem must_kill_selection :
  Forall (fun SAI => isValueKind SAI = true -> usersAreInstructions SAI) (Arrays S) ->
  NoDup (map BasePtrId (Arrays S)) ->
  exists Info,
    computeMustKillsInfo S = Some Info /\
    (KillsSchedule Info = None <-> TaggedMustKills Info = []) /\
    forall SAI, SAI ∈ Arrays S ->
      (isPHIKind SAI = true -> inKillSet Info SAI) /\
      (isValueKind SAI = true ->
         (inKillSet Info SAI <-> usedOnlyInRegion S SAI)) /\
      (isPHIKind SAI = false -> isValueKind SAI = false -> ~ inKillSet Info SAI).
Proof.
  intros Husers Hnd. unfold computeMustKillsInfo.
  rewrite (collectKillMemIds_filter _ _ Husers). simpl.
  eexists. split; [reflexivity|].
  set (ids := map BasePtrId (List.filter (selected S) (Arrays S))).
  assert (Hin : forall SAI, SAI ∈ Arrays S ->
            (inKillSet (fold_left addKill ids (mkMustKillsInfo None [])) SAI
             <-> selected S SAI = true)).
  { intros SAI HSAI. unfold inKillSet. rewrite addKill_fold. simpl. subst ids. split.
    - intros H. apply list_elem_of_fmap in H as (SAI' & Hid & H').
      apply list_elem_of_In, filter_In in H' as [H' Hsel].
      apply list_elem_of_In in H'.
      by rewrite (NoDup_map_inj BasePtrId _ SAI SAI' Hnd HSAI H' Hid).
    - intros Hsel. apply list_elem_of_fmap_2, list_elem_of_In, filter_In.
      split; [by apply list_elem_of_In | exact Hsel]. }
  split.
  { rewrite addKill_fold_schedule. split.
    - intros [Hids _]. generalize (addKill_fold ids (mkMustKillsInfo None [])).
      rewrite Hids. simpl. reflexivity.
    - intros Hnil. split; [|reflexivity].
      generalize (addKill_fold ids (mkMustKillsInfo None [])).
      rewrite Hnil. simpl. intros <-. reflexivity. }
  intros SAI HSAI. specialize (Hin SAI HSAI). unfold selected in Hin.
  split; [|split].
  - intros HP. apply Hin. by rewrite HP.
  - intros HV. rewrite Hin, HV. unfold usedOnlyInRegion.
    rewrite <- forallb_userContained. simpl.
    destruct (isPHIKind SAI) eqn:HP; [|reflexivity].
    unfold isPHIKind, isValueKind in *.
    apply bool_decide_eq_true in HP, HV. congruence.
  - intros HP HV. rewrite Hin, HP, HV. discriminate.
Qed.

End KillSet.

(** ** Extents *)

Lemma isl_set_n_dim_constrain (s : set) (i : nat) (c : interval) :
  isl_set_n_dim (constrain s i c) = isl_set_n_dim s.
Proof. destruct s; simpl; [reflexivity | apply length_alter]. Qed.

Lemma isl_set_n_dim_universe (n : nat) : isl_set_n_dim (isl_set_universe n) = n.
Proof. apply length_replicate. Qed.





(** ** Bounds and offsets *)

Lemma meet_unbounded_l (x : interval) : meet unbounded x = x.
Proof. destruct x as [[l|] [u|]]; reflexivity. Qed.

Lemma meet_unbounded_r (x : interval) : meet x unbounded = x.
Proof. destruct x as [[l|] [u|]]; reflexivity. Qed.

Lemma lookup_fold_alter {A : Type} (g : nat -> A -> A) (k a : nat) (d : list A) (j : nat) :
  fold_left (fun d i => alter (g i) i d) (seq a k) d !! j
  = if decide (a <= j < a + k)%nat then g j <$> d !! j else d !! j.
Proof.
  revert a d. induction k as [|k IH]; intros a d; simpl.
  { case_decide; [lia | reflexivity]. }
  rewrite IH. destruct (decide (j = a)) as [->|Hne].
  - rewrite decide_False by lia. rewrite decide_True by lia.
    apply list_lookup_alter_eq.
  - rewrite list_lookup_alter_ne by congruence.
    repeat case_decide; try lia; reflexivity.
Qed.

Lemma lookup_fold_insert_ne {A : Type} (v : nat -> A) (dims : list nat) (b : list A) (j : nat) :
  j ∉ dims ->
  fold_left (fun b i => <[i := v i]> b) dims b !! j = b !! j.
Proof.
  revert b. induction dims as [|i dims IH]; intros b Hj; simpl; [reflexivity|].
  rewrite IH by (intros H; apply Hj; by right).
  apply list_lookup_insert_ne. intros ->. apply Hj. by left.
Qed.

Lemma fold_constrain_box (g : nat -> interval) (dims : list nat) (d : list interval) :
  fold_left (fun E i => constrain E i (g i)) dims (box d)
  = box (fold_left (fun d i => alter (meet (g i)) i d) dims d).
Proof. revert d. induction dims as [|i dims IH]; intros d; simpl; [reflexivity | apply IH]. Qed.

Lemma zip_meet_alter (n : nat) (c : interval) (i : nat) (d : list interval) :
  length d = n ->
  zip_with meet (alter (meet c) i (replicate n unbounded)) d = alter (meet c) i d.
Proof.
  intros Hlen. apply list_eq. intros j. rewrite lookup_zip_with.
  destruct (d !! j) as [x|] eqn:Hx.
  - assert (j < n)%nat by (rewrite <- Hlen; by eapply lookup_lt_Some).
    destruct (decide (i = j)) as [->|Hne].
    + rewrite !list_lookup_alter_eq, Hx, lookup_replicate_2 by done. simpl.
      by rewrite meet_unbounded_r.
    + rewrite !list_lookup_alter_ne, Hx, lookup_replicate_2 by done. simpl.
      by rewrite meet_unbounded_l.
  - destruct (decide (i = j)) as [->|Hne].
    + rewrite !list_lookup_alter_eq, Hx. by destruct (replicate n unbounded !! j).
    + rewrite !list_lookup_alter_ne, Hx by done. by destruct (replicate n unbounded !! j).
Qed.

Lemma boundBySizes_seq (Array : ScopArrayInfo) (n k a : nat) (d : list interval)
    (sz : nat -> Z) :
  (1 <= a)%nat -> length d = n ->
  (forall j, (a <= j < a + k)%nat -> getDimensionSizePw Array j = Some (Some (sz j))) ->
  boundBySizes Array n (seq a k) (box d)
  = Some (box (fold_left (fun d i => alter (meet (at_most (sz i - 1))) i d) (seq a k) d)).
Proof.
  revert a d. induction k as [|k IH]; intros a d Ha Hlen Hsz; simpl; [reflexivity|].
  rewrite (Hsz a) by lia. simpl. rewrite (zip_meet_alter n _ _ _ Hlen).
  apply IH; [lia | by rewrite length_alter | intros j Hj; apply Hsz; lia].
Qed.

Lemma fold_min_le (r : list Z) (x : Z) : fold_left Z.min r x <= x.
Proof.
  revert x. induction r as [|y r IH]; intros x; simpl; [lia|].
  specialize (IH (Z.min x y)). lia.
Qed.

Lemma fold_max_ge (r : list Z) (x : Z) : x <= fold_left Z.max r x.
Proof.
  revert x. induction r as [|y r IH]; intros x; simpl; [lia|].
  specialize (IH (Z.max x y)). lia.
Qed.

Lemma dim_min_le_max (s : point_set) (i : nat) (mn mx : Z) :
  isl_set_dim_min s i = Some mn -> isl_set_dim_max s i = Some mx -> mn <= mx.
Proof.
  simpl. destruct (map (coordinate i) s) as [|x r]; simpl; [discriminate|].
  intros [= <-] [= <-]. generalize (fold_min_le r x), (fold_max_ge r x). lia.
Qed.

Lemma getExtent_box (S : Scop) (Array : ScopArrayInfo) (sizes : list Z) (mn mx : Z) :
  DimensionSizesPw Array = None :: map (fun s => Some (Some s)) sizes ->
  isl_set_dim_min (accessedElementsOf S Array) 0 = Some mn ->
  isl_set_dim_max (accessedElementsOf S Array) 0 = Some mx ->
  getExtent S Array
  = Some (box (mkInterval (Some mn) (Some mx) :: map innerInterval sizes)).
Proof.
  intros Hdims Hmin Hmax. unfold getExtent.
  fold (accessedElements S). fold (accessedElementsOf S Array).
  assert (Hn : getNumberOfDimensions Array = Datatypes.S (length sizes)).
  { unfold getNumberOfDimensions. rewrite Hdims. simpl. by rewrite length_map. }
  assert (HU : isl_union_set_is_empty (accessedElements S) = false).
  { unfold accessedElementsOf in Hmin. destruct (accessedElements S); [discriminate | reflexivity]. }
  rewrite HU, Hn, Hmin, Hmax. simpl.
  rewrite Nat.sub_0_r, zip_with_replicate, zip_with_replicate. simpl.
  unfold isl_set_lower_bound_si.
  rewrite (fold_constrain_box (fun _ => at_least 0)).
  set (sz := fun j : nat => default 0 (sizes !! (j - 1)%nat)).
  assert (Hpw : getDimensionSizePw Array 0 = None).
  { unfold getDimensionSizePw. by rewrite Hdims. }
  rewrite Hpw.
  rewrite (boundBySizes_seq Array (Datatypes.S (length sizes)) _ 1 _ sz).
  - f_equal. f_equal. apply list_eq. intros [|j].
    + rewrite !lookup_fold_alter. rewrite !decide_False by lia. reflexivity.
    + rewrite !lookup_fold_alter. simpl.
      change (map innerInterval sizes) with (innerInterval <$> sizes).
      rewrite list_lookup_fmap.
      destruct (sizes !! j) as [s|] eqn:Hs.
      * assert (j < length sizes)%nat by (by eapply lookup_lt_Some).
        rewrite !decide_True by lia. rewrite lookup_replicate_2 by done. simpl.
        unfold sz. simpl. rewrite Nat.sub_0_r, Hs. reflexivity.
      * apply lookup_ge_None in Hs.
        rewrite !decide_False by lia. apply lookup_replicate_None. lia.
  - lia.
  - set (f := fun d i => alter (meet (at_least 0)) i d).
    assert (forall dims d, length (fold_left f dims d) = length d) as Hlen.
    { induction dims as [|i dims IH]; intros d; simpl; [done|].
      rewrite IH. apply length_alter. }
    rewrite Hlen. simpl. by rewrite length_replicate.
  - intros [|j] Hj; [lia|]. unfold getDimensionSizePw. rewrite Hdims. simpl.
    change (map (fun s => Some (Some s)) sizes) with ((fun s => Some (Some s)) <$> sizes).
    rewrite list_lookup_fmap. unfold sz. simpl. rewrite Nat.sub_0_r.
    destruct (sizes !! j) eqn:Hs; [reflexivity|].
    apply lookup_ge_None in Hs. lia.
Qed.

Lemma inner_nonempty (sizes : list Z) :
  Forall (fun s => 1 <= s) sizes ->
  existsb interval_is_empty (map innerInterval sizes) = false.
Proof.
  induction 1 as [|s sizes Hs _ IH]; simpl; [reflexivity|].
  rewrite IH, orb_false_r. unfold interval_is_empty. simpl. lia.
Qed.

Lemma box_nonempty (mn mx : Z) (sizes : list Z) :
  mn <= mx -> Forall (fun s => 1 <= s) sizes ->
  box_is_empty (box (mkInterval (Some mn) (Some mx) :: map innerInterval sizes)) = false.
Proof.
  intros Hle Hs. simpl. rewrite (inner_nonempty _ Hs), orb_false_r.
  unfold interval_is_empty. simpl. lia.
Qed.

Lemma mapM_lower_inner (sizes : list Z) :
  mapM lower (map innerInterval sizes) = Some (replicate (length sizes) 0).
Proof. induction sizes as [|s sizes IH]; simpl; [reflexivity|]. by rewrite IH. Qed.

Lemma points_nonempty (k : nat) :
  existsb interval_is_empty (map exactly (replicate k 0)) = false.
Proof. induction k as [|k IH]; simpl; [reflexivity | exact IH]. Qed.

Lemma zero_points_subset (k : nat) :
  forallb (fun p : interval * interval => interval_subset p.1 p.2)
          (zip (map exactly (replicate k 0)) (replicate k (exactly 0))) = true.
Proof. induction k as [|k IH]; simpl; [reflexivity | exact IH]. Qed.

Lemma zero_set_box (n : nat) :
  fold_left (fun Z i => isl_set_fix_si Z i 0) (seq 0 n) (isl_set_universe n)
  = box (replicate n (exactly 0)).
Proof.
  unfold isl_set_fix_si, isl_set_universe.
  rewrite (fold_constrain_box (fun _ => exactly 0)). f_equal.
  apply list_eq. intros j. rewrite lookup_fold_alter.
  destruct (decide (j < n)%nat).
  - rewrite decide_True by lia. by rewrite !lookup_replicate_2.
  - rewrite decide_False by lia.
    rewrite (proj1 (lookup_replicate_None n unbounded j)) by lia.
    symmetry. apply lookup_replicate_None. lia.
Qed.

Lemma lexmin_box (mn mx : Z) (sizes : list Z) :
  mn <= mx -> Forall (fun s => 1 <= s) sizes ->
  isl_set_lexmin (box (mkInterval (Some mn) (Some mx) :: map innerInterval sizes))
  = box (exactly mn :: map exactly (replicate (length sizes) 0)).
Proof.
  intros Hle Hs. unfold isl_set_lexmin. rewrite (box_nonempty _ _ _ Hle Hs).
  simpl mapM. rewrite mapM_lower_inner. reflexivity.
Qed.

(** At one valuation, the smallest element of the extent is the origin
    exactly when the smallest index accessed in dimension 0 is 0. *)
Lemma minIsOrigin_box (mn mx : Z) (sizes : list Z) :
  mn <= mx -> Forall (fun s => 1 <= s) sizes ->
  minIsOrigin (box (mkInterval (Some mn) (Some mx) :: map innerInterval sizes))
  = (mn =? 0).
Proof.
  intros Hle Hs. unfold minIsOrigin. rewrite (lexmin_box _ _ _ Hle Hs).
  cbn [isl_set_n_dim length]. rewrite length_map, length_replicate, zero_set_box.
  unfold isl_set_is_subset. simpl.
  rewrite points_nonempty, zero_points_subset, orb_false_r, andb_true_r.
  unfold interval_is_empty, interval_subset. simpl. rewrite Z.ltb_irrefl. simpl.
  destruct (Z.eqb_spec mn 0) as [->|Hne]; [reflexivity|].
  destruct (0 <=? mn) eqn:H1, (mn <=? 0) eqn:H2; simpl; try reflexivity. lia.
Qed.

(** The offset is dropped exactly when the smallest index accessed is 0 at
    every valuation. *)
Lemma getArrayOffset_box (P : gpu_array_info) (mn mx : Z) (sizes : list Z) :
  n_index P = Datatypes.S (length sizes) ->
  extent P = box (mkInterval (Some mn) (Some mx) :: map innerInterval sizes) ->
  mn <= mx -> Forall (fun s => 1 <= s) sizes ->
  let Min := box (exactly mn :: map exactly (replicate (length sizes) 0)) in
  getArrayOffset P =
    if (mn =? 0) && forallb minIsOrigin (extent_elsewhere P) then None
    else Some (fold_left
                 (fun Result i =>
                    let Result :=
                      if (0 <? i)%nat then isl_pw_aff_mul Result (bound_at P (i - 1))
                      else Result in
                    isl_pw_aff_add Result (isl_set_dim_min Min i))
                 (seq 0 (Datatypes.S (length sizes))) (Some 0)).
Proof.
  intros Hn Hext Hle Hs Min.
  assert (HM : isl_set_lexmin (extent P) = Min).
  { rewrite Hext. apply (lexmin_box _ _ _ Hle Hs). }
  assert (Hdim : isl_set_n_dim Min = Datatypes.S (length sizes)).
  { simpl. by rewrite length_map, length_replicate. }
  pose proof (minIsOrigin_box mn mx sizes Hle Hs) as HO.
  rewrite <- Hext in HO. unfold minIsOrigin in HO.
  unfold getArrayOffset, gpu_array_is_scalar.
  rewrite Hn. cbv zeta in HO |- *. rewrite HO, HM, Hdim. reflexivity.
Qed.




(** A scalar that no statement accesses, in a region that accesses other
    arrays, gets the universal extent. *)
Example getExtent_unaccessed_scalar :
  accessedElementsOf Example.scop Example.t = [] /\
  getExtent Example.scop Example.t = Some (isl_set_universe 0).
Proof. split; reflexivity. Qed.


Lemma must_kill_selection_witness :
  exists Info,
    computeMustKillsInfo Example.scop = Some Info /\
    (KillsSchedule Info = None <-> TaggedMustKills Info = []) /\
    forall SAI, SAI ∈ Arrays Example.scop ->
      (isPHIKind SAI = true -> inKillSet Info SAI) /\
      (isValueKind SAI = true ->
         (inKillSet Info SAI <-> usedOnlyInRegion Example.scop SAI)) /\
      (isPHIKind SAI = false -> isValueKind SAI = false -> ~ inKillSet Info SAI).
Proof.
  apply (must_kill_selection Example.scop).
  - unfold usersAreInstructions. apply (bool_decide_unpack _). vm_compute. exact I.
  - apply (bool_decide_unpack _). vm_compute. exact I.
Defined.

Example must_kill_example :
  TaggedMustKills <$> computeMustKillsInfo Example.scop
  = Some [mkTaggedKill "SKill_phantom_MemRef_b" "ref_phantomMemRef_b" "MemRef_b";
          mkTaggedKill "SKill_phantom_MemRef_acc__phi" "ref_phantomMemRef_acc__phi"
                       "MemRef_acc__phi"].
Proof. reflexivity. Qed.


Example array_bound_example :
  (PPCGArray ← createArray Example.scop Example.A;
   Some (bound PPCGArray, getArrayOffset PPCGArray, getArraySize PPCGArray))
  = Some ([Some 100], Some (Some 42), Some 400).
Proof. reflexivity. Qed.

(** Where the smallest index is 0 at the valuation of the run but not at
    another, there is an offset, and it is 0. *)
Example array_offset_example :
  outerMinimum Example.sliding Example.A = Some 0 /\
  (PPCGArray ← createArray Example.sliding Example.A;
   Some (bound PPCGArray, getArrayOffset PPCGArray))
  = Some ([Some 10], Some (Some 0)).
Proof. split; reflexivity. Qed.


(** ** Runs of the generator *)

Section Rules.

Context (R : relation GPUNodeBuilder) `{!PreOrder R}.

Lemma inv_ret {A : Type} (a : A) : inv R (ret a).
Proof. intros st. reflexivity. Qed.

Lemma inv_fatal {A : Type} (msg : string) : inv R (@fatal A msg).
Proof. intros st. reflexivity. Qed.

Lemma inv_get : inv R get.
Proof. intros st. reflexivity. Qed.

Lemma inv_assert (b : bool) (msg : string) : inv R (assert_ b msg).
Proof. intros st. destruct b; reflexivity. Qed.

Lemma inv_modify (f : GPUNodeBuilder -> GPUNodeBuilder) :
  (forall st, R st (f st)) -> inv R (modify f).
Proof. intros H st. apply H. Qed.

Lemma inv_bind {A B : Type} (c : Gen A) (k : A -> Gen B) :
  inv R c -> (forall a, inv R (k a)) -> inv R (bind c k).
Proof.
  intros Hc Hk st. unfold bind. specialize (Hc st).
  destruct (c st) as [a st'|msg st']; simpl in *; [|exact Hc].
  etransitivity; [exact Hc | apply Hk].
Qed.

Lemma inv_bind_fatal {A B : Type} (msg : string) (k : A -> Gen B) :
  inv R (bind (fatal msg) k).
Proof. intros st. reflexivity. Qed.

Lemma inv_for_each {A : Type} (l : list A) (body : A -> Gen unit) :
  (forall x, inv R (body x)) -> inv R (for_each l body).
Proof.
  intros H. induction l as [|x l IH]; simpl; [apply inv_ret|].
  apply inv_bind; [apply H | intros _; exact IH].
Qed.

Lemma inv_fold_gen {A B : Type} (l : list A) (body : B -> A -> Gen B) (b : B) :
  (forall b x, inv R (body b x)) -> inv R (fold_gen l b body).
Proof.
  intros H. revert b. induction l as [|x l IH]; intros b; simpl; [apply inv_ret|].
  apply inv_bind; [apply H | intros b'; apply IH].
Qed.

End Rules.

Ltac inv_step solve_rel :=
  lazymatch goal with
  | H : inv ?R ?c |- inv ?R ?c => exact H
  | |- inv ?R (ret _) => exact (inv_ret R _)
  | |- inv ?R (fatal _) => exact (inv_fatal R _)
  | |- inv ?R get => exact (inv_get R)
  | |- inv ?R (assert_ _ _) => exact (inv_assert R _ _)
  | |- inv ?R (bind (fatal _) _) => exact (inv_bind_fatal R _ _)
  | |- inv ?R (bind (assert_ false _) _) => exact (inv_bind_fatal R _ _)
  | |- inv ?R (bind _ _) => refine (inv_bind R _ _ _ _); [|intros ?]
  | |- inv ?R (modify _) => refine (inv_modify R _ _); intros ?; solve_rel
  | |- inv ?R (for_each _ _) => refine (inv_for_each R _ _ _); intros ?
  | |- inv ?R (fold_gen _ _ _) => refine (inv_fold_gen R _ _ _ _); intros ? ?
  | |- inv _ (match ?x with _ => _ end) => destruct x
  | |- inv _ (let _ := _ in _) => cbv zeta
  end.

Ltac inv_steps solve_rel := repeat (inv_step solve_rel).

Create HintDb gen_unfold.
#[export] Hint Unfold Prog_array IDToValue_at BlockGen_getOrCreateAlloca
  createCallInitContext createCallFreeContext createCallGetKernel
  operand createCallGetDevicePtr createCallLaunchKernel createCallFreeKernel
  createCallFreeDeviceMemory createCallAllocateMemoryForDevice
  createCallCopyFromHostToDevice createCallCopyFromDeviceToHost
  createCallSynchronizeDevice allocateDeviceArrays freeDeviceArrays
  initializeAfterRTH finalize hostPointer getOrCreateManagedDeviceArray
  DeviceAllocations_at createDataTransfer createKernelCopy createScopStmt
  createKernelSync storeParameter launchArrayParameter launchValueParameter
  launchIdParameter createLaunchParameters declareArrayArgument declareParameterArgument
  kernelArgumentTypes Argument_at bindArrayArgument bindHostIterator
  bindParameter bindSubtreeValue createKernelFunctionDecl
  insertKernelIntrinsics prepareKernelArgument prepareKernelArguments
  finalizeKernelArgument finalizeKernelArguments createKernelVariables
  createKernelFunction setupKernelSubtreeFunctions finalizeKernelFunction
  emit : gen_unfold.

#[export] Instance same_preorder {X : Type} (f : GPUNodeBuilder -> X) : PreOrder (same f).
Proof. split; [intros st; reflexivity | intros a b c H1 H2; unfold same in *; congruence]. Qed.


Lemma okrel_of_inv {A : Type} (R : relation GPUNodeBuilder) (c : Gen A) :
  inv R c -> okrel R c.
Proof. intros H st a st' E. specialize (H st). by rewrite E in H. Qed.

Lemma bind_Ok {A B : Type} (c : Gen A) (k : A -> Gen B) st b st'' :
  bind c k st = Ok b st'' -> exists a st', c st = Ok a st' /\ k a st' = Ok b st''.
Proof. unfold bind. destruct (c st) as [a st'|]; [eauto | discriminate]. Qed.

Lemma okrel_upd_bind {A B : Type} (g1 g2 : Z * Z -> Z * Z) (c : Gen A) (k : A -> Gen B) :
  okrel (upd g1) c -> (forall a, okrel (upd g2) (k a)) ->
  okrel (upd (fun d => g2 (g1 d))) (bind c k).
Proof.
  intros Hc Hk st b st'' E. apply bind_Ok in E as (a & st' & E1 & E2).
  unfold upd. rewrite (Hk a _ _ _ E2). f_equal. apply (Hc _ _ _ E1).
Qed.

Lemma okrel_upd_same {A : Type} (c : Gen A) :
  inv (same depths) c -> okrel (upd (fun d => d)) c.
Proof. intros H. apply (okrel_of_inv _ _ H). Qed.

Lemma okrel_upd_ext {A : Type} (g g' : Z * Z -> Z * Z) (c : Gen A) :
  okrel (upd g) c -> (forall d, g d = g' d) -> okrel (upd g') c.
Proof. intros H Hg st a st' E. unfold upd. rewrite <- Hg. apply (H _ _ _ E). Qed.

Ltac depth_inv :=
  autounfold with gen_unfold; inv_steps ltac:(idtac; reflexivity).

Section Depth.
Context `{Ext : External}.
Variables (Opt : Options) (S : Scop) (Prog : list gpu_array_info)
  (Runtime : GPURuntime) (Arch : GPUArch).

Lemma depths_removeValuesOfIds Ids SV : inv (same depths) (removeValuesOfIds Ids SV).
Proof.
  revert SV. induction Ids as [|Id Ids IH]; intros SV; simpl; depth_inv. apply IH.
Qed.

Lemma depths_getFunctions Raw Fns :
  inv (same depths) (getFunctionsFromRawSubtreeValues Raw Fns).
Proof.
  revert Fns. induction Raw as [|It Raw IH]; intros Fns; simpl; depth_inv; apply IH.
Qed.

Lemma depths_getReferencesInKernel K tree :
  inv (same depths) (getReferencesInKernel S K tree).
Proof.
  unfold getReferencesInKernel.
  depth_inv; first [apply depths_removeValuesOfIds | apply depths_getFunctions].
Qed.

Lemma depths_createKernelFunction K SV SF :
  inv (same depths) (createKernelFunction S Prog K SV SF).
Proof. unfold createKernelFunction. depth_inv. Qed.

Lemma depths_createLaunchParameters K F SV :
  inv (same depths) (createLaunchParameters Opt Prog K F SV).
Proof. depth_inv. Qed.

Lemma depths_finalizeKernelArguments K :
  inv (same depths) (finalizeKernelArguments Prog K).
Proof. depth_inv. Qed.

Lemma depths_finalizeKernelFunction : inv (same depths) (finalizeKernelFunction Opt Arch).
Proof. depth_inv. Qed.

Lemma depths_setup SF : inv (same depths) (setupKernelSubtreeFunctions SF).
Proof. depth_inv. Qed.

Lemma depths_createDataTransfer A D : inv (same depths) (createDataTransfer Opt A D).
Proof. depth_inv. Qed.

Lemma noteKernelDepth_upd K : okrel (upd (fun d => noteDepth d K)) (noteKernelDepth K).
Proof.
  intros st a st' E. unfold noteKernelDepth, modify in E. unfold upd, noteDepth, isParallel.
  fold (kernelDepth K) in E.
  destruct (1 <? n_grid K); injection E as _ <-; reflexivity.
Qed.

Ltac upd_step :=
  lazymatch goal with
  | H : okrel (upd _) ?c |- okrel (upd _) ?c => exact H
  | |- okrel (upd _) (bind _ _) => eapply okrel_upd_bind; [|intros ?]
  | |- okrel (upd _) (let _ := _ in _) => cbv zeta
  | |- okrel (upd _) (noteKernelDepth _) => apply noteKernelDepth_upd
  | |- okrel (upd _) _ =>
      apply okrel_upd_same;
      first [ apply depths_getReferencesInKernel
            | apply depths_createKernelFunction
            | apply depths_createLaunchParameters
            | apply depths_finalizeKernelArguments
            | apply depths_finalizeKernelFunction
            | apply depths_setup
            | apply depths_createDataTransfer
            | depth_inv ]
  end.

Lemma createKernel_upd K tree lower g :
  okrel (upd g) lower ->
  okrel (upd (fun d => g (noteDepth d K))) (createKernel Opt S Prog Arch K tree lower).
Proof.
  intros Hl. eapply okrel_upd_ext.
  - unfold createKernel. repeat upd_step.
  - intros d. reflexivity.
Qed.

Lemma createUser_upd Str anno lower :
  (forall K tree, anno = anno_kernel K tree -> okrel (upd (depthsAfter (kernelsOf tree))) lower) ->
  okrel (upd (depthsAfter (kernelsOf (isl_ast_node_user Str anno))))
        (createUser Opt S Prog Arch Str anno lower).
Proof.
  intros Hl. unfold createUser.
  destruct (String.eqb Str "kernel") eqn:Hk.
  - destruct anno as [K tree| |]; try (intros st a st' E; discriminate E).
    simpl kernelsOf. rewrite Hk.
    eapply okrel_upd_ext; [apply createKernel_upd, (Hl K tree eq_refl)|].
    intros d. reflexivity.
  - assert (Hnil : kernelsOf (isl_ast_node_user Str anno) = []).
    { simpl. destruct anno; try reflexivity. by rewrite Hk. }
    rewrite Hnil.
    eapply okrel_upd_ext; [apply okrel_upd_same | intros d; reflexivity].
    repeat lazymatch goal with
    | |- inv _ (if ?b then _ else _) => destruct b
    | |- inv _ (match ?x with _ => _ end) => destruct x
    end; first [apply depths_createDataTransfer | depth_inv].
Qed.

Lemma create_upd (Node : isl_ast_node) :
  okrel (upd (depthsAfter (kernelsOf Node))) (create Opt S Prog Arch Node).
Proof.
  induction Node as [children IH|iterator body IH|then_ else_ IH1 IH2|mark node IH
                    |name K tree IH|name A|name KS] using isl_ast_node_ind.
  - simpl. induction IH as [|c l Hc _ IHl].
    + eapply okrel_upd_ext; [apply okrel_upd_same; depth_inv | reflexivity].
    + eapply okrel_upd_ext; [eapply okrel_upd_bind; [exact Hc | intros _; exact IHl]|].
      intros d. unfold depthsAfter. by rewrite fold_left_app.
  - simpl. eapply okrel_upd_ext; [repeat upd_step | reflexivity].
  - simpl. eapply okrel_upd_ext; [repeat upd_step|].
    intros d. unfold depthsAfter. by rewrite fold_left_app.
  - simpl. exact IH.
  - simpl create. apply createUser_upd. intros K' tree' [= <- <-]. exact IH.
  - simpl create. apply createUser_upd. intros K' tree' [=].
  - simpl create. apply createUser_upd. intros K' tree' [=].
Qed.

Lemma depthsAfter_deepest (Kernels : list ppcg_kernel) (d : Z * Z) :
  depthsAfter Kernels d = (deepest false Kernels d.1, deepest true Kernels d.2).
Proof.
  revert d. induction Kernels as [|K Ks IH]; intros [ds dp]; simpl; [reflexivity|].
  unfold depthsAfter in *. simpl. rewrite IH. unfold noteDepth, deepest. simpl.
  destruct (isParallel K); reflexivity.
Qed.

Lemma depths_initializeAfterRTH : inv (same depths) (initializeAfterRTH Opt Prog Runtime).
Proof. depth_inv. Qed.

Lemma depths_finalize : inv (same depths) (finalize Opt).
Proof. depth_inv. Qed.

(** C10. Code generation notes, for each kernel it lowers, the number of
    host loops around it: in [DeepestParallel] when the kernel has more
    than one grid dimension, in [DeepestSequential] otherwise. At the end
    the guard of the generated code is the constant false when the build
    failed and also when the deepest sequential kernel lies deeper than the
    deepest parallel one, however successful the build. *)
Theorem sequential_depth_disables_guard (Root : isl_ast_node) (guard : Guard)
    (NodeBuilder : GPUNodeBuilder) :
  generateCode Opt S Prog Runtime Arch Root = Ok guard NodeBuilder ->
  DeepestParallel NodeBuilder = deepest true (kernelsOf Root) 0 /\
  DeepestSequential NodeBuilder = deepest false (kernelsOf Root) 0 /\
  guard = (if (DeepestParallel NodeBuilder <? DeepestSequential NodeBuilder)
              || negb (BuildSuccessful NodeBuilder)
           then GuardFalse else GuardRTC) /\
  (deepest true (kernelsOf Root) 0 < deepest false (kernelsOf Root) 0 ->
   guard = GuardFalse).
Proof.
  unfold generateCode. intros H.
  destruct ((initializeAfterRTH Opt Prog Runtime ;; create Opt S Prog Arch Root ;;
             finalize Opt)%gen (initialBuilder S)) as [[] st|] eqn:E; [|discriminate].
  injection H as <- <-.
  apply bind_Ok in E as (? & st1 & E1 & E).
  apply bind_Ok in E as (? & st2 & E2 & E3).
  pose proof (okrel_of_inv _ _ depths_initializeAfterRTH _ _ _ E1) as H1.
  pose proof (create_upd Root _ _ _ E2) as H2.
  pose proof (okrel_of_inv _ _ depths_finalize _ _ _ E3) as H3.
  unfold same, upd in *. rewrite H1 in H2. rewrite H2 in H3.
  rewrite depthsAfter_deepest in H3. simpl in H3.
  injection H3 as Hs Hp. rewrite Hs, Hp.
  split; [reflexivity|]. split; [reflexivity|]. split.
  - destruct (_ <? _); simpl; [by destruct (BuildSuccessful st) | reflexivity].
  - intros Hlt. apply Z.ltb_lt in Hlt. rewrite Hlt.
    destruct (negb (BuildSuccessful st)); reflexivity.
Qed.

End Depth.

Lemma sequential_depth_disables_guard_witness :
  match generateCode Example.device Example.scop Example.prog CUDA NVPTX64
          Example.loop_tree with
  | Ok guard NodeBuilder =>
      BuildSuccessful NodeBuilder = true /\
      DeepestParallel NodeBuilder = deepest true (kernelsOf Example.loop_tree) 0 /\
      DeepestSequential NodeBuilder = deepest false (kernelsOf Example.loop_tree) 0 /\
      guard = (if (DeepestParallel NodeBuilder <? DeepestSequential NodeBuilder)
                  || negb (BuildSuccessful NodeBuilder)
               then GuardFalse else GuardRTC) /\
      (deepest true (kernelsOf Example.loop_tree) 0
       < deepest false (kernelsOf Example.loop_tree) 0 -> guard = GuardFalse)
  | Fatal _ _ => False
  end.
Proof.
  destruct (generateCode Example.device Example.scop Example.prog CUDA NVPTX64
              Example.loop_tree) as [guard NodeBuilder|msg st] eqn:E.
  - split.
    + vm_compute in E. injection E as _ <-. reflexivity.
    + exact (sequential_depth_disables_guard _ _ _ _ _ _ _ _ E).
  - vm_compute in E. discriminate E.
Defined.

Example sequential_depth_example :
  match generateCode Example.device Example.scop Example.prog CUDA NVPTX64
          Example.loop_tree with
  | Ok guard NodeBuilder =>
      (guard, BuildSuccessful NodeBuilder, DeepestSequential NodeBuilder,
       DeepestParallel NodeBuilder) = (GuardFalse, true, 1, 0)
  | Fatal _ _ => False
  end.
Proof. vm_compute. reflexivity. Qed.

(** ** The scalar write-back hazard *)

Section Flag.

Context `{Ext : External}.
Variables (Prog : list gpu_array_info) (K : ppcg_kernel).

Lemma flag_finalizeKernelArgument FN L i :
  inv (same BuildSuccessful) (finalizeKernelArgument Prog K FN L i).
Proof. autounfold with gen_unfold. inv_steps ltac:(idtac; reflexivity). Qed.

Lemma finalizeKernelArgument_stored FN L i st L' st' :
  finalizeKernelArgument Prog K FN L i st = Ok L' st' ->
  L'.2 = L.2 || storedScalar Prog K i.
Proof.
  unfold finalizeKernelArgument, storedScalar, Prog_array.
  destruct (ppcg_kernel_requires_array_argument K i); simpl.
  2:{ intros H. injection H as <- _. by rewrite orb_false_r. }
  destruct (Prog !! i) as [Array|]; simpl; [|discriminate].
  unfold bind at 1. unfold ret at 1.
  destruct (0 <? getNumberOfDimensions (user Array))%nat; simpl.
  { intros H. injection H as <- _. simpl. by rewrite orb_false_r. }
  destruct (gpu_array_is_read_only_scalar Array); simpl.
  { intros H. injection H as <- _. simpl. by rewrite orb_false_r. }
  intros H. apply bind_Ok in H as (? & ? & _ & H).
  apply bind_Ok in H as (? & ? & _ & H).
  apply bind_Ok in H as (? & ? & _ & H).
  injection H as <- _. simpl. by rewrite orb_true_r.
Qed.

Lemma finalize_loop FN l L st :
  match fold_gen l L (finalizeKernelArgument Prog K FN) st with
  | Ok L' st' =>
      L'.2 = L.2 || existsb (storedScalar Prog K) l /\
      BuildSuccessful st' = BuildSuccessful st
  | Fatal _ st' => BuildSuccessful st' = BuildSuccessful st
  end.
Proof.
  revert L st. induction l as [|i l IH]; intros L st; simpl.
  { by rewrite orb_false_r. }
  unfold bind.
  pose proof (flag_finalizeKernelArgument FN L i st) as Hf.
  destruct (finalizeKernelArgument Prog K FN L i st) as [L1 st1|msg st1] eqn:E;
    simpl in Hf; [|exact Hf].
  apply finalizeKernelArgument_stored in E.
  specialize (IH L1 st1). unfold same in Hf.
  destruct (fold_gen l L1 (finalizeKernelArgument Prog K FN) st1) as [L2 st2|msg st2].
  - destruct IH as [-> ->]. rewrite E, Hf, orb_assoc. done.
  - congruence.
Qed.

(** C4 (amended). [finalizeKernelArguments] clears the build-success flag
    exactly when it stores a scalar that is not read-only back and the
    grid or the block of the kernel has at least one dimension, whatever
    the sizes along these dimensions; otherwise the flag is as before. The
    test itself never stops the run: a fatal outcome is that of the loop
    over the arrays, and leaves the flag alone. A kernel with neither grid
    nor block dimension is launched with a 1 x 1 grid of 1 x 1 x 1
    blocks. *)
Theorem scalar_write_back_clears_flag (st : GPUNodeBuilder) :
  match finalizeKernelArguments Prog K st with
  | Ok _ st' =>
      BuildSuccessful st' =
        (if storesScalar Prog K && hasDimensions K then false else BuildSuccessful st)
  | Fatal msg st' =>
      fold_gen (seq 0 (Z.to_nat (n_array K))) (0%nat, false)
               (finalizeKernelArgument Prog K (InsertFunction st)) st
      = Fatal msg st' /\
      BuildSuccessful st' = BuildSuccessful st
  end /\
  (n_grid K = 0 -> n_block K = 0 ->
   getGridSizes K = (Some 1, Some 1) /\ getBlockSizes K = (1, 1, 1)).
Proof.
  split.
  - unfold finalizeKernelArguments, storesScalar, hasDimensions.
    unfold bind at 1. simpl. unfold bind at 1.
    pose proof (finalize_loop (InsertFunction st) (seq 0 (Z.to_nat (n_array K)))
                  (0%nat, false) st) as H.
    destruct (fold_gen _ _ _ st) as [L st1|msg st1]; [|by split].
    destruct H as [-> Hb]. simpl.
    destruct (existsb _ _); simpl; [|exact Hb].
    destruct (negb (n_block K =? 0) || negb (n_grid K =? 0)); simpl; [reflexivity | exact Hb].
  - intros Hg Hb. unfold getGridSizes, getBlockSizes. rewrite Hg, Hb. split; reflexivity.
Qed.

End Flag.

(** C4 as stated fails: [kernel2] is launched with a 1 x 1 grid of
    1 x 1 x 1 blocks, one thread in all, and stores the scalar [t] back;
    its grid and its block have one dimension each, and the flag is
    cleared. *)
Lemma scalar_write_back_claim_refuted :
  getGridSizes Example.kernel2 = (Some 1, Some 1) /\
  getBlockSizes Example.kernel2 = (1, 1, 1) /\
  storesScalar Example.prog Example.kernel2 = true /\
  BuildSuccessful (Example.in_kernel Example.kernel2) = true /\
  exists st,
    finalizeKernelArguments Example.prog Example.kernel2
      (Example.in_kernel Example.kernel2) = Ok tt st /\
    BuildSuccessful st = false.
Proof.
  repeat (split; [vm_compute; reflexivity|]).
  eexists. split; vm_compute; reflexivity.
Qed.

Lemma scalar_write_back_clears_flag_witness :
  (forall st',
     finalizeKernelArguments Example.prog Example.kernel3
       (Example.in_kernel Example.kernel3) = Ok tt st' ->
     BuildSuccessful st' = true) /\
  getGridSizes Example.kernel3 = (Some 1, Some 1) /\
  getBlockSizes Example.kernel3 = (1, 1, 1).
Proof.
  pose proof (scalar_write_back_clears_flag Example.prog Example.kernel3
                (Example.in_kernel Example.kernel3)) as [H1 H2].
  split; [|exact (H2 eq_refl eq_refl)].
  intros st' E. rewrite E in H1. exact H1.
Defined.

Example scalar_write_back_example :
  BuildSuccessful (final_state (finalizeKernelArguments Example.prog Example.kernel3
                                  (Example.in_kernel Example.kernel3))) = true /\
  BuildSuccessful (final_state (finalizeKernelArguments Example.prog Example.kernel0
                                  (Example.in_kernel Example.kernel0))) = false.
Proof. vm_compute. split; reflexivity. Qed.

(** ** The host state around a kernel *)

Section Reads.
Context (R : relation GPUNodeBuilder) `{!PreOrder R}.

Lemma inv_removeValuesOfIds Ids SV : inv R (removeValuesOfIds Ids SV).
Proof.
  revert SV. induction Ids as [|Id Ids IH]; intros SV; simpl.
  - apply inv_ret; exact _.
  - inv_steps ltac:(idtac; reflexivity). apply IH.
Qed.

Lemma inv_getFunctionsFromRawSubtreeValues Raw SF :
  inv R (getFunctionsFromRawSubtreeValues Raw SF).
Proof.
  revert SF. induction Raw as [|It Raw IH]; intros SF; simpl.
  - apply inv_ret; exact _.
  - destruct (isaFunction It); [|apply IH].
    inv_steps ltac:(idtac; reflexivity). apply IH.
Qed.

Lemma inv_getReferencesInKernel S K tree : inv R (getReferencesInKernel S K tree).
Proof.
  unfold getReferencesInKernel.
  inv_steps ltac:(idtac; reflexivity);
    first [apply inv_removeValuesOfIds | apply inv_getFunctionsFromRawSubtreeValues].
Qed.

End Reads.

Section Restore.
Context `{Ext : External}.
Variables (Opt : Options) (S : Scop) (Prog : list gpu_array_info) (Arch : GPUArch).

Lemma allocaSteps_trans F VM SM1 SM2 SM3 :
  allocaSteps F VM SM1 SM2 -> allocaSteps F VM SM2 SM3 -> allocaSteps F VM SM1 SM3.
Proof.
  induction 1; [auto|]. intros H3. eapply allocaSteps_step. apply IHallocaSteps, H3.
Qed.

#[local] Instance hostAllocas_preorder : PreOrder hostAllocas.
Proof.
  split.
  - intros st. repeat split. apply allocaSteps_refl.
  - intros a b c (H1 & H2 & H3 & H4 & H5) (G1 & G2 & G3 & G4 & G5).
    rewrite H3, H2 in G5.
    repeat split; try congruence. eapply allocaSteps_trans; eassumption.
Qed.

Lemma hostAllocas_getOrCreateAlloca SAI : inv hostAllocas (BlockGen_getOrCreateAlloca SAI).
Proof.
  intros st. unfold BlockGen_getOrCreateAlloca, bind, get, modify, ret. simpl.
  repeat split. eapply allocaSteps_step, allocaSteps_refl.
Qed.

Lemma hostAllocas_same st st' :
  hostSide st' = hostSide st -> hostAllocas st st'.
Proof.
  unfold hostSide. intros [= H1 H2 H3 H4 H5]. repeat split; try assumption.
  rewrite H3. apply allocaSteps_refl.
Qed.

Ltac host_inv :=
  inv_steps ltac:(idtac; intros; apply hostAllocas_same; reflexivity).

Lemma hostAllocas_launchArrayParameter K L i :
  inv hostAllocas (launchArrayParameter Opt Prog K L i).
Proof.
  unfold launchArrayParameter, storeParameter, getOrCreateManagedDeviceArray,
    hostPointer, DeviceAllocations_at, createCallGetDevicePtr, operand, Prog_array, emit.
  host_inv; apply hostAllocas_getOrCreateAlloca.
Qed.

Lemma hostAllocas_createLaunchParameters K F SV :
  inv hostAllocas (createLaunchParameters Opt Prog K F SV).
Proof.
  unfold createLaunchParameters, launchIdParameter, launchValueParameter,
    storeParameter, IDToValue_at.
  host_inv; apply hostAllocas_launchArrayParameter.
Qed.

Lemma hostSide_noteKernelDepth K : inv (same hostSide) (noteKernelDepth K).
Proof. unfold noteKernelDepth. inv_steps ltac:(idtac; reflexivity). Qed.

Lemma hostSide_finalizeKernelFunction : inv (same hostSide) (finalizeKernelFunction Opt Arch).
Proof. unfold finalizeKernelFunction. inv_steps ltac:(idtac; reflexivity). Qed.

(** C9 (amended). Lowering a kernel node restores the host side. When
    [createKernel] completes, the launch parameters were created in a state
    [st_r] whose id bindings, value map, scalar map and insertion point are
    those from before the kernel, so nothing bound while the kernel was
    lowered is visible to host code. At the end the id bindings, the value
    map and the insertion point are still those from before the kernel. The
    scalar map need not be: it differs from the one before the kernel by
    the stack slots of the host function that creating the launch
    parameters asked for, and by nothing else. *)
Theorem createKernel_restores_host_state K tree lower st st' :
  createKernel Opt S Prog Arch K tree lower st = Ok tt st' ->
  exists F SV st_r L st_l,
    hostSide st_r = hostSide st /\
    createLaunchParameters Opt Prog K F SV st_r = Ok L st_l /\
    hostSide st' = hostSide st_l /\
    IDToValue st' = IDToValue st /\ ValueMap st' = ValueMap st /\
    InsertFunction st' = InsertFunction st /\ InsertBefore st' = InsertBefore st /\
    allocaSteps (InsertFunction st) (ValueMap st) (ScalarMap st) (ScalarMap st').
Proof.
  unfold createKernel. intros E.
  apply bind_Ok in E as (? & st1 & E1 & E).
  apply bind_Ok in E as (Refs & st2 & E2 & E).
  apply bind_Ok in E as (st2' & ? & [= <- <-] & E).
  apply bind_Ok in E as (? & ? & _ & E).
  apply bind_Ok in E as (? & ? & _ & E).
  apply bind_Ok in E as (? & ? & _ & E).
  apply bind_Ok in E as (? & ? & _ & E).
  apply bind_Ok in E as (? & ? & _ & E).
  apply bind_Ok in E as (st_k & ? & [= <- <-] & E).
  apply bind_Ok in E as (? & ? & [= <- <-] & E).
  apply bind_Ok in E as (? & ? & [= <- <-] & E).
  apply bind_Ok in E as (? & ? & [= <- <-] & E).
  apply bind_Ok in E as (? & ? & [= <- <-] & E).
  apply bind_Ok in E as (? & ? & [= <- <-] & E).
  apply bind_Ok in E as (ASM & st5 & E5 & E).
  apply bind_Ok in E as (? & ? & [= <- <-] & E).
  apply bind_Ok in E as (L & st_l & EL & E).
  apply bind_Ok in E as (? & ? & [= <- <-] & E).
  apply bind_Ok in E as (? & ? & [= <- <-] & E).
  apply bind_Ok in E as (? & ? & [= <- <-] & E).
  injection E as <-.
  pose proof (okrel_of_inv _ _ (hostSide_noteKernelDepth K) _ _ _ E1) as F1.
  pose proof (okrel_of_inv _ _ (inv_getReferencesInKernel (same hostSide) S K tree) _ _ _ E2) as F2.
  pose proof (okrel_of_inv _ _ hostSide_finalizeKernelFunction _ _ _ E5) as F5.
  pose proof (okrel_of_inv _ _ (hostAllocas_createLaunchParameters _ _ _) _ _ _ EL) as HL.
  unfold same in *. rewrite F1 in F2. clear F1 E1 E2.
  assert (Hr : hostSide (SetInsertPoint (InsertFunction st2) (InsertBefore st2) st5)
               = hostSide st).
  { rewrite <- F2. unfold hostSide in *. simpl in *.
    injection F5 as -> -> -> _ _. reflexivity. }
  eexists _, Refs.1, _, L, st_l.
  split; [|split; [exact EL|]]; [exact Hr|]. split; [reflexivity|].
  destruct HL as (G1 & G2 & G3 & G4 & G5).
  unfold hostSide in Hr. injection Hr as R1 R2 R3 R4 R5.
  simpl in *. rewrite R2, R3, R4 in G5.
  repeat split; congruence.
Qed.

End Restore.


(** C9 as stated fails for the scalar map: lowering [kernel0], which reads
    the scalar [b], leaves a stack slot for [b] in the scalar map that was
    not there before the kernel. *)
Lemma createKernel_scalar_map_claim_refuted :
  ~ (forall K tree st st',
       createKernel Example.device Example.scop Example.prog NVPTX64 K tree
         (create Example.device Example.scop Example.prog NVPTX64 tree) st = Ok tt st' ->
       ScalarMap st' = ScalarMap st).
Proof.
  intros H.
  destruct (createKernel Example.device Example.scop Example.prog NVPTX64
              Example.kernel0 Example.device_tree
              (create Example.device Example.scop Example.prog NVPTX64
                 Example.device_tree)
              Example.initialized) as [[] st'|msg st'] eqn:E.
  - specialize (H _ _ _ _ E). vm_compute in E. injection E as <-. discriminate H.
  - vm_compute in E. discriminate E.
Qed.

Lemma createKernel_restores_host_state_witness :
  exists st',
    createKernel Example.device Example.scop Example.prog NVPTX64 Example.kernel0
      Example.device_tree
      (create Example.device Example.scop Example.prog NVPTX64 Example.device_tree)
      Example.initialized = Ok tt st' /\
    IDToValue st' = IDToValue Example.initialized /\
    ValueMap st' = ValueMap Example.initialized /\
    InsertFunction st' = InsertFunction Example.initialized /\
    InsertBefore st' = InsertBefore Example.initialized /\
    allocaSteps (InsertFunction Example.initialized) (ValueMap Example.initialized)
      (ScalarMap Example.initialized) (ScalarMap st').
Proof.
  destruct (createKernel Example.device Example.scop Example.prog NVPTX64
              Example.kernel0 Example.device_tree
              (create Example.device Example.scop Example.prog NVPTX64
                 Example.device_tree)
              Example.initialized) as [[] st'|msg st'] eqn:E.
  - exists st'. split; [reflexivity|].
    destruct (createKernel_restores_host_state _ _ _ _ _ _ _ _ _ E)
      as (F & SV & st_r & L & st_l & _ & _ & _ & H1 & H2 & H3 & H4 & H5).
    auto.
  - vm_compute in E. discriminate E.
Defined.

Example createKernel_host_state_example :
  match createKernel Example.device Example.scop Example.prog NVPTX64 Example.kernel0
          Example.device_tree
          (create Example.device Example.scop Example.prog NVPTX64 Example.device_tree)
          Example.initialized with
  | Ok _ st' =>
      ScalarMap Example.initialized = [] /\
      ScalarMap st' = [("MemRef_b", ScalarAlloca "MemRef_b" None)]
  | Fatal _ _ => False
  end.
Proof. vm_compute. split; reflexivity. Qed.

(** ** The closure of a kernel *)

Section SetVectorFacts.
Context {A : Type} `{EqDecision A}.

Lemma elem_of_sv_insert (x y : A) (l : list A) : x ∈ sv_insert y l <-> x = y \/ x ∈ l.
Proof.
  unfold sv_insert. destruct (decide (y ∈ l)).
  - split; [auto | intros [->|]; auto].
  - rewrite elem_of_app, list_elem_of_singleton. tauto.
Qed.

Lemma NoDup_sv_insert (y : A) (l : list A) : NoDup l -> NoDup (sv_insert y l).
Proof.
  unfold sv_insert. destruct (decide (y ∈ l)); [auto|]. intros H.
  apply NoDup_app. split; [exact H|]. split; [|apply NoDup_singleton].
  intros x Hx Hy. apply list_elem_of_singleton in Hy as ->. contradiction.
Qed.

Lemma elem_of_sv_insert_all (x : A) (xs l : list A) :
  x ∈ sv_insert_all xs l <-> x ∈ xs \/ x ∈ l.
Proof.
  unfold sv_insert_all. revert l. induction xs as [|y xs IH]; intros l; simpl.
  - rewrite elem_of_nil. tauto.
  - rewrite IH, elem_of_sv_insert, elem_of_cons. tauto.
Qed.

Lemma NoDup_sv_insert_all (xs l : list A) : NoDup l -> NoDup (sv_insert_all xs l).
Proof.
  unfold sv_insert_all. revert l. induction xs as [|y xs IH]; intros l H; simpl; [exact H|].
  apply IH, NoDup_sv_insert, H.
Qed.

Lemma elem_of_sv_remove (x y : A) (l : list A) : x ∈ sv_remove y l <-> x ∈ l /\ x <> y.
Proof.
  unfold sv_remove. rewrite !list_elem_of_In, filter_In, negb_true_iff, bool_decide_eq_false.
  reflexivity.
Qed.

Lemma NoDup_List_filter (f : A -> bool) (l : list A) : NoDup l -> NoDup (List.filter f l).
Proof.
  induction 1 as [|x l Hx _ IH]; simpl; [constructor|].
  destruct (f x); [|exact IH]. constructor; [|exact IH].
  rewrite list_elem_of_In, filter_In, <- list_elem_of_In. tauto.
Qed.

Lemma NoDup_sv_remove (y : A) (l : list A) : NoDup l -> NoDup (sv_remove y l).
Proof. apply NoDup_List_filter. Qed.

End SetVectorFacts.

Section Closure.
Variables (S : Scop) (K : ppcg_kernel).

Lemma remove_base_pointers (arrays : list ScopArrayInfo) (SV : list Value) (V : Value) :
  V ∈ fold_left (fun SV SAI => sv_remove (BasePtr SAI) SV) arrays SV <->
  V ∈ SV /\ ~ exists SAI, SAI ∈ arrays /\ V = BasePtr SAI.
Proof.
  revert SV. induction arrays as [|SAI arrays IH]; intros SV; simpl.
  - split; [intros H; split; [exact H|] | tauto].
    intros (? & H' & _). by apply elem_of_nil in H'.
  - rewrite IH, elem_of_sv_remove. split.
    + intros [[H1 H2] H3]. split; [exact H1|]. intros (SAI' & Hin & ->).
      apply elem_of_cons in Hin as [->|Hin]; [congruence | eauto].
    + intros [H1 H2]. split; [split; [exact H1|]|].
      * intros ->. apply H2. exists SAI. split; [left | reflexivity].
      * intros (SAI' & Hin & ->). apply H2. exists SAI'. split; [by right | reflexivity].
Qed.

Lemma NoDup_remove_base_pointers (arrays : list ScopArrayInfo) (SV : list Value) :
  NoDup SV -> NoDup (fold_left (fun SV SAI => sv_remove (BasePtr SAI) SV) arrays SV).
Proof.
  revert SV. induction arrays as [|SAI arrays IH]; intros SV H; simpl; [exact H|].
  apply IH, NoDup_sv_remove, H.
Qed.

Lemma removeValuesOfIds_Ok Ids SV st SV' st' :
  removeValuesOfIds Ids SV st = Ok SV' st' ->
  st' = st /\ (NoDup SV -> NoDup SV') /\
  forall V, V ∈ SV' <-> V ∈ SV /\ ~ boundTo Ids st V.
Proof.
  revert SV. induction Ids as [|Id Ids IH]; intros SV; simpl.
  - intros [= <- <-]. split; [reflexivity|]. split; [auto|]. intros V.
    split; [intros H; split; [exact H|] | tauto].
    intros (? & H' & _). by apply elem_of_nil in H'.
  - unfold bind at 1. simpl.
    destruct (assoc_lookup Id (IDToValue st)) as [Val|] eqn:EId; [|discriminate].
    intros E. apply IH in E as (-> & Hnd & Hin). split; [reflexivity|].
    split; [intros H; apply Hnd, NoDup_sv_remove, H|].
    intros V. rewrite Hin, elem_of_sv_remove. unfold boundTo. split.
    + intros [[H1 H2] H3]. split; [exact H1|]. intros (Id' & Hid & Hl).
      apply elem_of_cons in Hid as [->|Hid]; [congruence | eauto].
    + intros [H1 H2]. split; [split; [exact H1|]|].
      * intros ->. apply H2. exists Id. split; [left | exact EId].
      * intros (Id' & Hid & Hl). apply H2. exists Id'. split; [by right | exact Hl].
Qed.

Lemma getFunctionsFromRawSubtreeValues_Ok Raw SF st Fns st' :
  getFunctionsFromRawSubtreeValues Raw SF st = Ok Fns st' ->
  st' = st /\ (NoDup SF -> NoDup Fns) /\
  (Forall (fun F => isValidFunctionInKernel F = true) SF ->
   Forall (fun F => isValidFunctionInKernel F = true) Fns) /\
  forall V, V ∈ Fns <-> V ∈ SF \/ (V ∈ Raw /\ isaFunction V = true).
Proof.
  revert SF. induction Raw as [|It Raw IH]; intros SF; simpl.
  - intros [= <- <-]. repeat split; auto. 
    intros [H|[H _]]; [exact H | by apply elem_of_nil in H].
  - destruct (isaFunction It) eqn:EIt.
    + unfold bind at 1. unfold assert_.
      destruct (isValidFunctionInKernel It) eqn:EV; [|discriminate]. simpl.
      intros E. apply IH in E as (-> & Hnd & Hv & Hin). split; [reflexivity|].
      split; [intros H; apply Hnd, NoDup_sv_insert, H|]. split.
      * intros H. apply Hv. apply Forall_forall. intros F HF.
        apply elem_of_sv_insert in HF as [->|HF]; [exact EV|].
        revert F HF. by apply Forall_forall.
      * intros V. rewrite Hin, elem_of_sv_insert, elem_of_cons. split.
        -- intros [[->|H]|[H1 H2]]; auto.
        -- intros [H|[[->|H1] H2]]; auto.
    + intros E. apply IH in E as (-> & Hnd & Hv & Hin).
      split; [reflexivity|]. split; [exact Hnd|]. split; [exact Hv|].
      intros V. rewrite Hin, elem_of_cons. split; [tauto|].
      intros [H|[[->|H1] H2]]; [auto | congruence | auto].
Qed.

(** C6. When [getReferencesInKernel] returns the pair [(Vals, Fns)], no
    base pointer of an array, no value of a parameter and no value of an
    iterator of the space of the kernel is in [Vals] or in [Fns]; a value
    is in [Vals] exactly when it is referenced, not one of these, and not
    a function, and in [Fns] exactly when it is referenced, not one of
    these, and a function: the two are disjoint and together they are the
    filtered set, nothing is lost. Both are duplicate free, the functions
    are all valid in a kernel, and the builder is left as it was. *)
Theorem closure_excludes_and_partitions tree st Vals Fns st' :
  getReferencesInKernel S K tree st = Ok (Vals, Fns) st' ->
  st' = st /\
  exists Referenced,
    referencedIn tree st = Some Referenced /\
    (forall V, V ∈ Vals <->
       V ∈ Referenced /\ ~ passedImplicitly S K st V /\ isaFunction V = false) /\
    (forall V, V ∈ Fns <->
       V ∈ Referenced /\ ~ passedImplicitly S K st V /\ isaFunction V = true) /\
    (forall V, passedImplicitly S K st V -> (V ∉ Vals) /\ (V ∉ Fns)) /\
    (forall V, V ∈ Vals -> V ∉ Fns) /\
    NoDup Vals /\ NoDup Fns /\
    Forall (fun F => isValidFunctionInKernel F = true) Fns.
Proof.
  unfold getReferencesInKernel, referencedIn. unfold bind at 1. simpl.
  destruct (foreach_descendant_top_down tree _) as [References|]; [|discriminate]. simpl.
  intros E.
  apply bind_Ok in E as (SV1 & st1 & E1 & E).
  apply bind_Ok in E as (SV2 & st2 & E2 & E).
  apply bind_Ok in E as (Fns' & st3 & E3 & E).
  injection E as <- <- <-.
  apply removeValuesOfIds_Ok in E1 as (-> & N1 & H1).
  apply removeValuesOfIds_Ok in E2 as (-> & N2 & H2).
  apply getFunctionsFromRawSubtreeValues_Ok in E3 as (-> & N3 & V3 & H3).
  split; [reflexivity|]. eexists. split; [reflexivity|].
  set (Referenced := fold_left _ (References.2) (References.1)) in *.
  assert (HSV : forall V, V ∈ SV2 <-> V ∈ Referenced /\ ~ passedImplicitly S K st V).
  { intros V. rewrite H2, H1, remove_base_pointers. unfold passedImplicitly, isBasePtr.
    tauto. }
  assert (HVals : forall V,
            V ∈ sv_insert_all (List.filter isValidSubtreeValue SV2) [] <->
            V ∈ Referenced /\ ~ passedImplicitly S K st V /\ isaFunction V = false).
  { intros V. rewrite elem_of_sv_insert_all, list_elem_of_In, filter_In,
      <- list_elem_of_In, HSV, elem_of_nil.
    unfold isValidSubtreeValue. rewrite negb_true_iff. tauto. }
  assert (HFns : forall V,
            V ∈ Fns' <->
            V ∈ Referenced /\ ~ passedImplicitly S K st V /\ isaFunction V = true).
  { intros V. rewrite H3, HSV, elem_of_nil. tauto. }
  split; [exact HVals|]. split; [exact HFns|]. split.
  { intros V HV. rewrite HVals, HFns. tauto. }
  split.
  { intros V. rewrite HVals, HFns. intros (_ & _ & Hf) (_ & _ & Ht). congruence. }
  split; [apply NoDup_sv_insert_all, NoDup_nil_2|].
  split; [apply N3, NoDup_nil_2 | apply V3, List.Forall_nil].
Qed.

End Closure.

Lemma closure_excludes_and_partitions_witness :
  match getReferencesInKernel Example.scop Example.kernel1 Example.sqrt_tree
          Example.in_loop with
  | Ok Refs st' =>
      st' = Example.in_loop /\
      (forall V, V ∈ Refs.1 -> V ∉ Refs.2) /\
      (forall V, passedImplicitly Example.scop Example.kernel1 Example.in_loop V ->
                 (V ∉ Refs.1) /\ (V ∉ Refs.2))
  | Fatal _ _ => False
  end.
Proof.
  destruct (getReferencesInKernel Example.scop Example.kernel1 Example.sqrt_tree
              Example.in_loop) as [[Vals Fns] st'|msg st'] eqn:E.
  - destruct (closure_excludes_and_partitions _ _ _ _ _ _ _ E)
      as (H0 & Referenced & _ & _ & _ & H3 & H4 & _).
    auto.
  - vm_compute in E. discriminate E.
Defined.

Example closure_example :
  referencedIn Example.sqrt_tree Example.in_loop
  = Some [InductionVariable "c0" None; HostValue "n" getInt64Ty;
          HostValue "A" (PointerTy FloatTy 0); HostValue "x" FloatTy;
          FunctionValue "llvm.sqrt.f32" true None; HostValue "m" getInt64Ty] /\
  getReferencesInKernel Example.scop Example.kernel1 Example.sqrt_tree Example.in_loop
  = Ok ([HostValue "x" FloatTy; HostValue "m" getInt64Ty],
        [FunctionValue "llvm.sqrt.f32" true None]) Example.in_loop.
Proof. vm_compute. split; reflexivity. Qed.

(** ** Functions a kernel cannot call *)

Lemma elem_of_removelast_or_last {A : Type} (x : A) (l : list A) :
  x ∈ l -> x ∈ removelast l \/ last l = Some x.
Proof.
  induction l as [|a l IH]; [intros H; by apply elem_of_nil in H|].
  intros H. destruct l as [|b l].
  - apply list_elem_of_singleton in H as ->. by right.
  - apply elem_of_cons in H as [->|H].
    + left. simpl. left.
    + destruct (IH H) as [H'|H']; [left; simpl; by right | by right].
Qed.

Lemma isFunctionPointer_Function (F : Value) :
  isaFunction F = true -> isFunctionPointer F = true.
Proof. by destruct F. Qed.

Lemma existsb_isFunctionPointer (Inst : Instruction) (F : Value) :
  F ∈ Operands Inst -> isaFunction F = true ->
  existsb isFunctionPointer (Operands Inst) = true.
Proof.
  intros HF Hfn. apply existsb_exists. exists F.
  split; [by apply list_elem_of_In | by apply isFunctionPointer_Function].
Qed.

Lemma intrinsic_call_names_no_invalid (Inst : Instruction) (F : Value) :
  wellFormedInstruction Inst = true -> IsCall Inst = true ->
  getCalledFunction Inst = Some F -> isValidFunctionInKernel F = true ->
  ~ namesInvalidFunction Inst.
Proof.
  unfold wellFormedInstruction, isIntrinsicCall. intros Hwf Hc HF Hv (F' & Hin & Hfn & Hinv).
  rewrite Hc, HF, Hv in Hwf. simpl in Hwf. rename Hwf into Hargs.
  unfold getCalledFunction in HF.
  destruct (elem_of_removelast_or_last _ _ Hin) as [H|H].
  - rewrite forallb_forall in Hargs. apply list_elem_of_In, Hargs in H.
    rewrite Hfn in H. discriminate.
  - rewrite H, Hfn in HF. congruence.
Qed.

Lemma containsInvalidKernelFunctionInInsts_Some (Insts : list Instruction) :
  forallb wellFormedInstruction Insts = true ->
  exists b, containsInvalidKernelFunctionInInsts Insts = Some b /\
            ((exists Inst, Inst ∈ Insts /\ namesInvalidFunction Inst) -> b = true).
Proof.
  induction Insts as [|Inst Insts IH]; simpl.
  { intros _. exists false. split; [reflexivity|]. intros (? & H & _).
    by apply elem_of_nil in H. }
  intros Hwf. apply andb_true_iff in Hwf as [Hwf Hrest].
  destruct (IH Hrest) as (b & Eb & Hb). clear IH.
  assert (Hskip : ~ namesInvalidFunction Inst ->
            (exists Inst', Inst' ∈ Inst :: Insts /\ namesInvalidFunction Inst') -> b = true).
  { intros Hno (Inst' & Hin & Hn). apply elem_of_cons in Hin as [->|Hin]; [contradiction|].
    apply Hb. eauto. }
  assert (Hnames : existsb isFunctionPointer (Operands Inst) = false ->
            ~ namesInvalidFunction Inst).
  { intros Hex (F & Hin & Hfn & _).
    rewrite (existsb_isFunctionPointer _ _ Hin Hfn) in Hex. discriminate. }
  destruct (IsCall Inst) eqn:Hc.
  - assert (Hd : is_Some (getCalledFunction Inst)).
    { unfold wellFormedInstruction in Hwf. rewrite Hc in Hwf. simpl in Hwf.
      apply andb_true_iff in Hwf as [Hd _]. by apply bool_decide_eq_true in Hd. }
    destruct Hd as [F HF]. rewrite HF.
    destruct (isValidFunctionInKernel F) eqn:Hv.
    + exists b. split; [exact Eb|].
      apply Hskip. by apply (intrinsic_call_names_no_invalid _ F).
    + destruct (existsb isFunctionPointer (Operands Inst)) eqn:Hex.
      * exists true. auto.
      * exists b. split; [exact Eb|]. apply Hskip, Hnames, eq_refl.
  - destruct (existsb isFunctionPointer (Operands Inst)) eqn:Hex.
    + exists true. auto.
    + exists b. split; [exact Eb|]. apply Hskip, Hnames, eq_refl.
Qed.

Lemma containsInvalidKernelFunctionInBlocks_Some (Blocks : list BasicBlock) :
  forallb wellFormedInstruction (flat_map Insts Blocks) = true ->
  exists b, containsInvalidKernelFunctionInBlocks Blocks = Some b /\
            ((exists Inst, Inst ∈ flat_map Insts Blocks /\ namesInvalidFunction Inst) ->
             b = true).
Proof.
  induction Blocks as [|BB Blocks IH]; simpl.
  { intros _. exists false. split; [reflexivity|]. intros (? & H & _).
    by apply elem_of_nil in H. }
  rewrite forallb_app. intros Hwf. apply andb_true_iff in Hwf as [Hwf Hrest].
  destruct (containsInvalidKernelFunctionInInsts_Some _ Hwf) as (b1 & E1 & H1).
  destruct (IH Hrest) as (b & Eb & Hb).
  unfold containsInvalidKernelFunctionInBllock. rewrite E1.
  destruct b1; [exists true; auto|].
  exists b. split; [exact Eb|]. intros (Inst & Hin & Hn).
  apply elem_of_app in Hin as [Hin|Hin]; [|apply Hb; eauto].
  assert (false = true); [apply H1; eauto | discriminate].
Qed.

Lemma containsInvalidKernelFunctionInStmts_Some (Stmts : list ScopStmt) :
  forallb wellFormedInstruction
    (flat_map (fun Stmt => flat_map Insts (StmtBlocks Stmt)) Stmts) = true ->
  exists b, containsInvalidKernelFunctionInStmts Stmts = Some b /\
            ((exists Inst, Inst ∈ flat_map (fun Stmt => flat_map Insts (StmtBlocks Stmt)) Stmts
                           /\ namesInvalidFunction Inst) ->
             b = true).
Proof.
  induction Stmts as [|Stmt Stmts IH]; simpl.
  { intros _. exists false. split; [reflexivity|]. intros (? & H & _).
    by apply elem_of_nil in H. }
  rewrite forallb_app. intros Hwf. apply andb_true_iff in Hwf as [Hwf Hrest].
  destruct (containsInvalidKernelFunctionInBlocks_Some _ Hwf) as (b1 & E1 & H1).
  destruct (IH Hrest) as (b & Eb & Hb).
  rewrite E1.
  destruct b1; [exists true; auto|].
  exists b. split; [exact Eb|]. intros (Inst & Hin & Hn).
  apply elem_of_app in Hin as [Hin|Hin]; [|apply Hb; eauto].
  assert (false = true); [apply H1; eauto | discriminate].
Qed.

Section Bail.
Context `{Ext : External}.
Variables (Opt : Options) (Runtime : GPURuntime) (Architecture : GPUArch).

(** Where every call names its callee, and the arguments of an
    [llvm.sqrt] intrinsic are no functions: if an instruction of a
    statement of the region has an operand that is a function other than an
    [llvm.sqrt] intrinsic, the check at the start of [runOnScop] finds it
    and the pass returns before it sets PPCG up or generates anything. *)
Theorem invalid_function_bails_out (S : Scop) :
  forallb wellFormedInstruction (instructionsOf S) = true ->
  referencesInvalidFunction S ->
  containsInvalidKernelFunction S = Some true /\
  runOnScop Opt Runtime Architecture S = BailedOut.
Proof.
  intros Hwf Href. unfold runOnScop, containsInvalidKernelFunction.
  destruct (containsInvalidKernelFunctionInStmts_Some _ Hwf) as (b & -> & Hb).
  rewrite (Hb Href). split; reflexivity.
Qed.
End Bail.

Lemma invalid_function_bails_out_witness :
  containsInvalidKernelFunction Example.calling_scop = Some true /\
  runOnScop Example.device CUDA NVPTX64 Example.calling_scop = BailedOut.
Proof.
  apply invalid_function_bails_out.
  - reflexivity.
  - exists (mkInstruction "exp" Example.body true
              [HostValue "x" FloatTy; FunctionValue "expf" false None]).
    split.
    + apply list_elem_of_In. simpl. auto.
    + exists (FunctionValue "expf" false None).
      split; [apply list_elem_of_In; simpl; auto | split; reflexivity].
Defined.

(** C7. The check does not get as far for a region with an indirect call:
    [getCalledFunction] is null for it, and [isValidFunctionInKernel]
    asserts that its argument is not. In [indirect_scop] the statement
    calls through a function pointer and then calls [expf], a routine that
    is not an [llvm.sqrt] intrinsic; the pass stops at the assertion
    instead of giving the region up. *)
Theorem indirect_call_aborts_pass :
  referencesInvalidFunction Example.indirect_scop /\
  containsInvalidKernelFunction Example.indirect_scop = None /\
  runOnScop Example.device CUDA NVPTX64 Example.indirect_scop
  = Aborted "F is an invalid pointer".
Proof.
  split; [|split; reflexivity].
  exists (mkInstruction "exp" Example.body true
            [HostValue "x" FloatTy; FunctionValue "expf" false None]).
  split.
  - apply list_elem_of_In. simpl. auto.
  - exists (FunctionValue "expf" false None).
    split; [apply list_elem_of_In; simpl; auto | split; reflexivity].
Qed.

Example valid_function_example :
  containsInvalidKernelFunction Example.scop = Some false /\
  containsInvalidKernelFunction
    (mkScop "h" [Example.body] [Example.A] [Example.sqrt_stmt] [] [] [] []) = Some false.
Proof. split; reflexivity. Qed.

(** ** Managed memory *)

Lemma inv_weaken {A X Y : Type} (f : GPUNodeBuilder -> X) (g : X -> Y) (c : Gen A) :
  inv (same f) c -> inv (same (fun st => g (f st))) c.
Proof. intros H st. unfold same. f_equal. apply H. Qed.

Lemma okrel_adds_bind {A B : Type} (n1 n2 : nat) (c : Gen A) (k : A -> Gen B) :
  okrel (adds n1) c -> (forall a, okrel (adds n2) (k a)) ->
  okrel (adds (n1 + n2)) (bind c k).
Proof.
  intros Hc Hk st b st'' E. apply bind_Ok in E as (a & st' & E1 & E2).
  unfold adds. rewrite (Hk a _ _ _ E2), (Hc _ _ _ E1). lia.
Qed.

Lemma okrel_adds_same {A : Type} (c : Gen A) :
  inv (same hostCalls) c -> okrel (adds 0) c.
Proof.
  intros H st a st' E. pose proof (okrel_of_inv _ _ H _ _ _ E) as H'.
  unfold same, hostCalls, adds in *. injection H' as _ ->. lia.
Qed.

Lemma okrel_adds_ext {A : Type} (n n' : nat) (c : Gen A) :
  okrel (adds n) c -> n = n' -> okrel (adds n') c.
Proof. intros H <-. exact H. Qed.

Lemma calls_zero (p : Instr -> bool) (st : GPUNodeBuilder) :
  calls p st = 0%nat -> Forall (fun c => p c.2 = false) (Code st).
Proof.
  unfold calls. induction (Code st) as [|c l IH]; simpl; [constructor|].
  destruct (p c.2) eqn:E; simpl; [discriminate|]. intros H. constructor; auto.
Qed.

Ltac solve_calls :=
  intros; unfold same, hostCalls, memoryCalls, synchronizations, calls; simpl;
  rewrite ?map_app, ?List.filter_app, ?List.length_app; simpl;
  rewrite ?Nat.add_0_r; reflexivity.

Section Managed.
Context `{Ext : External}.
Variables (Opt : Options) (S : Scop) (Prog : list gpu_array_info)
  (Runtime : GPURuntime) (Arch : GPUArch).
Hypothesis HM : ManagedMemory Opt = true.

Ltac calls_inv :=
  autounfold with gen_unfold; rewrite ?HM; cbn [negb];
  inv_steps ltac:(idtac; solve_calls).

Lemma calls_createKernelFunction K SV SF :
  inv (same hostCalls) (createKernelFunction S Prog K SV SF).
Proof. calls_inv. Qed.

Lemma calls_createLaunchParameters K F SV :
  inv (same hostCalls) (createLaunchParameters Opt Prog K F SV).
Proof. calls_inv. Qed.

Lemma calls_finalizeKernelArguments K :
  inv (same hostCalls) (finalizeKernelArguments Prog K).
Proof. calls_inv. Qed.

Lemma calls_finalizeKernelFunction : inv (same hostCalls) (finalizeKernelFunction Opt Arch).
Proof. calls_inv. Qed.

Lemma calls_setup SF : inv (same hostCalls) (setupKernelSubtreeFunctions SF).
Proof. calls_inv. Qed.

Lemma calls_noteKernelDepth K : inv (same hostCalls) (noteKernelDepth K).
Proof. unfold noteKernelDepth. calls_inv. Qed.

Lemma calls_initializeAfterRTH : inv (same hostCalls) (initializeAfterRTH Opt Prog Runtime).
Proof. calls_inv. Qed.

Lemma calls_finalize : inv (same hostCalls) (finalize Opt).
Proof. calls_inv. Qed.

Lemma calls_createKernel_rest K tree lower (R : relation GPUNodeBuilder) `{!PreOrder R} :
  (forall A (c : Gen A), inv (same hostCalls) c -> inv R c) ->
  inv R lower -> inv R (createKernel Opt S Prog Arch K tree lower).
Proof.
  intros HR Hl. unfold createKernel.
  repeat lazymatch goal with
  | H : inv ?R ?c |- inv ?R ?c => exact H
  | |- inv ?R (bind _ _) => refine (inv_bind R _ _ _ _); [|intros ?]
  | |- inv _ (let _ := _ in _) => cbv zeta
  | |- inv ?R _ =>
      apply HR;
      first [ apply inv_getReferencesInKernel; exact _
            | apply calls_createKernelFunction
            | apply calls_createLaunchParameters
            | apply calls_finalizeKernelArguments
            | apply calls_finalizeKernelFunction
            | apply calls_setup
            | apply calls_noteKernelDepth
            | calls_inv ]
  end.
Qed.

Lemma memory_of_hostCalls {A : Type} (c : Gen A) :
  inv (same hostCalls) c -> inv (same memoryCalls) c.
Proof. apply (inv_weaken hostCalls fst). Qed.

Lemma calls_statement (KS : ppcg_kernel_stmt) :
  inv (same hostCalls)
    match KS with
    | ppcg_kernel_domain Stmt => createScopStmt Stmt
    | ppcg_kernel_copy read array => createKernelCopy read array
    | ppcg_kernel_sync => createKernelSync
    | ppcg_kernel_unknown => ret tt
    end.
Proof. destruct KS; calls_inv. Qed.

Lemma memory_createUser Str anno lower :
  inv (same memoryCalls) lower ->
  inv (same memoryCalls) (createUser Opt S Prog Arch Str anno lower).
Proof.
  intros Hl. unfold createUser. rewrite HM. cbn [negb].
  destruct (String.eqb Str "kernel").
  { destruct anno; try apply inv_fatal; try exact _.
    apply calls_createKernel_rest; [exact _ | exact (@memory_of_hostCalls) | exact Hl]. }
  destruct (isPrefix Str "to_device"); [apply inv_ret; exact _|].
  destruct (isPrefix Str "from_device"); [calls_inv|].
  destruct anno; try apply inv_fatal; try exact _.
  apply memory_of_hostCalls, calls_statement.
Qed.

Lemma memory_create (Node : isl_ast_node) :
  inv (same memoryCalls) (create Opt S Prog Arch Node).
Proof.
  induction Node as [children IH|iterator body IH|then_ else_ IH1 IH2|mark node IH
                    |name K tree IH|name A|name KS] using isl_ast_node_ind.
  - simpl. induction IH as [|c l Hc _ IHl].
    + apply inv_ret; exact _.
    + apply inv_bind; [exact _ | exact Hc | intros _; exact IHl].
  - simpl. inv_steps ltac:(idtac; solve_calls).
  - simpl. inv_steps ltac:(idtac; solve_calls).
  - simpl. exact IH.
  - simpl create. apply memory_createUser, IH.
  - simpl create. apply memory_createUser, inv_ret; exact _.
  - simpl create. apply memory_createUser, inv_ret; exact _.
Qed.

Ltac adds_step :=
  lazymatch goal with
  | H : okrel (adds _) ?c |- okrel (adds _) ?c => exact H
  | |- okrel (adds _) (bind _ _) => eapply okrel_adds_bind; [|intros ?]
  | |- okrel (adds _) (let _ := _ in _) => cbv zeta
  | |- okrel (adds _) _ =>
      apply okrel_adds_same;
      first [ apply inv_getReferencesInKernel; exact _
            | apply calls_createKernelFunction
            | apply calls_createLaunchParameters
            | apply calls_finalizeKernelArguments
            | apply calls_finalizeKernelFunction
            | apply calls_setup
            | apply calls_noteKernelDepth
            | calls_inv ]
  end.

Lemma adds_createKernel K tree lower n :
  okrel (adds n) lower -> okrel (adds n) (createKernel Opt S Prog Arch K tree lower).
Proof.
  intros Hl. eapply okrel_adds_ext.
  - unfold createKernel. repeat adds_step.
  - simpl. lia.
Qed.

Lemma okrel_fatal {A : Type} (R : relation GPUNodeBuilder) (msg : string) :
  okrel R (fatal (A := A) msg).
Proof. intros st a st' E. discriminate E. Qed.

Lemma adds_createUser Str anno lower :
  (forall K tree, anno = anno_kernel K tree -> okrel (adds (fromDeviceNodes tree)) lower) ->
  okrel (adds (fromDeviceNodes (isl_ast_node_user Str anno)))
        (createUser Opt S Prog Arch Str anno lower).
Proof.
  intros Hl. unfold createUser. simpl fromDeviceNodes. rewrite HM. cbn [negb].
  destruct (String.eqb Str "kernel").
  { destruct anno as [K tree| |]; try apply okrel_fatal.
    apply adds_createKernel, (Hl K tree eq_refl). }
  destruct (isPrefix Str "to_device").
  { apply okrel_adds_same, inv_ret; exact _. }
  destruct (isPrefix Str "from_device").
  { intros st a st' E. unfold createCallSynchronizeDevice in E. rewrite HM in E.
    injection E as _ <-. unfold adds, synchronizations, calls. simpl.
    rewrite map_app, List.filter_app, List.length_app. reflexivity. }
  destruct anno; try apply okrel_fatal.
  apply okrel_adds_same, calls_statement.
Qed.

Lemma adds_create (Node : isl_ast_node) :
  okrel (adds (fromDeviceNodes Node)) (create Opt S Prog Arch Node).
Proof.
  induction Node as [children IH|iterator body IH|then_ else_ IH1 IH2|mark node IH
                    |name K tree IH|name A|name KS] using isl_ast_node_ind.
  - simpl. induction IH as [|c l Hc _ IHl].
    + apply okrel_adds_same, inv_ret; exact _.
    + apply okrel_adds_bind; [exact Hc | intros _; exact IHl].
  - simpl. eapply okrel_adds_ext; [repeat adds_step | simpl; lia].
  - simpl. apply okrel_adds_bind; [exact IH1 | intros _; exact IH2].
  - simpl. exact IH.
  - simpl create. apply adds_createUser. intros K' tree' [= <- <-]. exact IH.
  - simpl create. apply adds_createUser. intros K' tree' [=].
  - simpl create. apply adds_createUser. intros K' tree' [=].
Qed.

(** C5. With managed memory, the code [generateCode] inserts contains no
    call that allocates, frees or copies device memory, whether the run
    completes or stops at a fatal error; when it completes, the code
    contains as many calls of [polly_synchronizeDevice] as the tree has
    nodes for transfers from the device. A node for a transfer to the
    device inserts nothing, a node for a transfer from the device inserts
    this one call. *)
Theorem managed_memory_calls (Root : isl_ast_node) :
  match generateCode Opt S Prog Runtime Arch Root with
  | Ok _ NodeBuilder =>
      Forall (fun c => isMemoryCall c.2 = false) (Code NodeBuilder) /\
      synchronizations NodeBuilder = fromDeviceNodes Root
  | Fatal _ NodeBuilder =>
      Forall (fun c => isMemoryCall c.2 = false) (Code NodeBuilder)
  end /\
  (forall Str anno lower,
     String.eqb Str "kernel" = false -> isPrefix Str "to_device" = true ->
     createUser Opt S Prog Arch Str anno lower = ret tt) /\
  (forall Str anno lower,
     String.eqb Str "kernel" = false -> isPrefix Str "to_device" = false ->
     isPrefix Str "from_device" = true ->
     createUser Opt S Prog Arch Str anno lower = emit (ICall polly_synchronizeDevice)).
Proof.
  split; [|split].
  - assert (Hmem : inv (same memoryCalls)
                     (initializeAfterRTH Opt Prog Runtime ;; create Opt S Prog Arch Root ;;
                      finalize Opt)).
    { apply inv_bind; [exact _ | apply memory_of_hostCalls, calls_initializeAfterRTH|].
      intros _. apply inv_bind; [exact _ | apply memory_create|].
      intros _. apply memory_of_hostCalls, calls_finalize. }
    assert (Hsync : okrel (adds (fromDeviceNodes Root))
                      (initializeAfterRTH Opt Prog Runtime ;; create Opt S Prog Arch Root ;;
                       finalize Opt)).
    { eapply okrel_adds_ext.
      - eapply okrel_adds_bind; [apply okrel_adds_same, calls_initializeAfterRTH|].
        intros _. eapply okrel_adds_bind; [apply adds_create|].
        intros _. apply okrel_adds_same, calls_finalize.
      - simpl. lia. }
    unfold generateCode. specialize (Hmem (initialBuilder S)).
    specialize (Hsync (initialBuilder S)).
    destruct ((initializeAfterRTH Opt Prog Runtime ;; create Opt S Prog Arch Root ;;
               finalize Opt) (initialBuilder S)) as [[] st|msg st]; simpl in Hmem.
    + split; [apply calls_zero, Hmem|]. apply (Hsync tt st eq_refl).
    + apply calls_zero, Hmem.
  - intros Str anno lower Hk Ht. unfold createUser. by rewrite Hk, Ht, HM.
  - intros Str anno lower Hk Ht Hf. unfold createUser, createCallSynchronizeDevice.
    by rewrite Hk, Ht, Hf, HM.
Qed.

End Managed.

Lemma managed_memory_calls_witness :
  match generateCode Example.managed Example.scop Example.prog CUDA NVPTX64
          Example.host_tree with
  | Ok _ NodeBuilder =>
      Forall (fun c => isMemoryCall c.2 = false) (Code NodeBuilder) /\
      synchronizations NodeBuilder = 1%nat
  | Fatal _ _ => False
  end.
Proof.
  pose proof (proj1 (managed_memory_calls Example.managed Example.scop Example.prog
                       CUDA NVPTX64 eq_refl Example.host_tree)) as H.
  destruct (generateCode Example.managed Example.scop Example.prog CUDA NVPTX64
              Example.host_tree) as [guard st|msg st] eqn:E.
  - exact H.
  - vm_compute in E. discriminate E.
Defined.

Example device_memory_calls_example :
  match generateCode Example.device Example.scop Example.prog CUDA NVPTX64
          Example.host_tree with
  | Ok _ NodeBuilder => (memoryCalls NodeBuilder, synchronizations NodeBuilder) = (10, 0)%nat
  | Fatal _ _ => False
  end.
Proof. vm_compute. reflexivity. Qed.

(** ** Launch parameters and formal arguments *)

Lemma insert_at_end {A : Type} (l : list A) (m : nat) (x y : A) :
  <[length l := y]> (l ++ replicate (Datatypes.S m) x) = (l ++ [y]) ++ replicate m x.
Proof.
  rewrite insert_app_r_alt by lia. rewrite Nat.sub_diag. simpl.
  by rewrite <- app_assoc.
Qed.

Lemma packed_store n L vals sizes slot size :
  packed n L vals sizes -> (length vals < n)%nat ->
  packed n (parameterStored slot size L) (vals ++ [slot]) (sizes ++ [size]).
Proof.
  intros (HI & Hlen & Hle & HA & HP) Hlt. unfold packed, parameterStored, Nat.succ.
  cbn [Index ArgSizes Parameters length].
  rewrite !length_app. cbn [length]. rewrite HI, HA, HP.
  split; [lia|]. split; [lia|]. split; [lia|]. split.
  - replace (n - length vals)%nat with (Datatypes.S (n - (length vals + 1))) by lia.
    rewrite <- Hlen. apply insert_at_end.
  - replace (2 * n - length vals)%nat with (Datatypes.S (2 * n - (length vals + 1))) by lia.
    rewrite map_app. cbn [map].
    rewrite <- (length_map Some vals) at 1. apply insert_at_end.
Qed.

Lemma packed_storeAll n ps L vals sizes :
  packed n L vals sizes -> (length vals + length ps <= n)%nat ->
  packed n (storeAll ps L) (vals ++ map fst ps) (sizes ++ map snd ps).
Proof.
  unfold storeAll. revert L vals sizes.
  induction ps as [|[slot size] ps IH]; intros L vals sizes HL Hle; simpl in *.
  - by rewrite !app_nil_r.
  - rewrite (cons_middle slot), (cons_middle size), !app_assoc.
    apply IH; [apply packed_store; [exact HL | lia]|].
    rewrite length_app. simpl. lia.
Qed.

Lemma packed_initial n :
  packed n (mkLaunchState 0 (replicate n 0) (replicate (2 * n) None)) [] [].
Proof. unfold packed. simpl. rewrite !Nat.sub_0_r. repeat split; lia. Qed.

Lemma storeAll_app ps qs L : storeAll (ps ++ qs) L = storeAll qs (storeAll ps L).
Proof. apply fold_left_app. Qed.

Lemma size_slots (idx : list nat) (L : LaunchState) (pre : list (option SlotValue)) (m : nat) :
  Parameters L = pre ++ replicate m None -> Index L = length pre ->
  (length idx <= m)%nat ->
  let L' := fold_left launchSizeParameter idx L in
  ArgSizes L' = ArgSizes L /\
  Parameters L' =
    pre ++ map (fun i => Some (BoxedSize (default 0 (ArgSizes L !! i)))) idx
        ++ replicate (m - length idx) None.
Proof.
  revert L pre m. induction idx as [|i idx IH]; intros L pre m HP HI Hle; simpl in *.
  - rewrite Nat.sub_0_r. by split.
  - destruct m as [|m]; [lia|].
    destruct (IH (launchSizeParameter L i)
                 (pre ++ [Some (BoxedSize (default 0 (ArgSizes L !! i)))]) m)
      as [HA HP'].
    + unfold launchSizeParameter, insertStoreParameter. simpl.
      rewrite HP, HI. apply insert_at_end.
    + unfold launchSizeParameter, insertStoreParameter, Nat.succ. simpl.
      rewrite length_app. simpl. lia.
    + lia.
    + split; [exact HA|]. rewrite HP'. by rewrite <- app_assoc.
Qed.

Lemma map_lookup_seq (sizes : list Z) :
  map (fun i => default 0 (sizes !! i)) (seq 0 (length sizes)) = sizes.
Proof.
  induction sizes as [|x sizes IH]; simpl; [reflexivity|].
  f_equal. rewrite <- seq_shift, map_map. exact IH.
Qed.

Lemma map_lookup_seq_box (sizes : list Z) :
  map (fun i => Some (BoxedSize (default 0 (sizes !! i)))) (seq 0 (length sizes))
  = map (fun z => Some (BoxedSize z)) sizes.
Proof.
  transitivity (map (fun z => Some (BoxedSize z))
                  (map (fun i => default 0 (sizes !! i)) (seq 0 (length sizes)))).
  - by rewrite map_map.
  - by rewrite map_lookup_seq.
Qed.

Lemma map_const_length {A B C : Type} (c : C) (l : list A) (k : list B) :
  length l = length k -> map (fun _ => c) l = map (fun _ => c) k.
Proof.
  revert k. induction l as [|x l IH]; intros [|y k]; simpl; try discriminate; [done|].
  intros [= H]. f_equal. by apply IH.
Qed.

Section Launch.
Context `{Ext : External}.
Variables (Opt : Options) (S : Scop) (Prog : list gpu_array_info) (K : ppcg_kernel).

Lemma declareArrayArguments_Ok l acc st Args st' :
  fold_gen l acc (declareArrayArgument Prog K) st = Ok Args st' ->
  st' = st /\ Args = acc ++ map arrayArgumentType (omap (requiredArray Prog K) l).
Proof.
  revert acc st. induction l as [|i l IH]; intros acc st; simpl.
  - intros [= <- <-]. by rewrite app_nil_r.
  - intros E. apply bind_Ok in E as (Args1 & st1 & E1 & E).
    apply IH in E as (-> & ->). clear IH.
    unfold declareArrayArgument, Prog_array, requiredArray in *.
    destruct (ppcg_kernel_requires_array_argument K i); simpl in *.
    + destruct (Prog !! i) as [Array|]; [|discriminate].
      injection E1 as <- <-. simpl. by rewrite <- app_assoc.
    + injection E1 as <- <-. done.
Qed.

Lemma declareParameterArguments_Ok Ids acc st Args st' :
  fold_gen Ids acc declareParameterArgument st = Ok Args st' ->
  st' = st /\ exists Vals, Forall2 (boundIn st) Ids Vals /\ Args = acc ++ map getType Vals.
Proof.
  revert acc st. induction Ids as [|Id Ids IH]; intros acc st; simpl.
  - intros [= <- <-]. split; [reflexivity|]. exists []. split; [constructor|].
    by rewrite app_nil_r.
  - intros E. apply bind_Ok in E as (Args1 & st1 & E1 & E).
    unfold declareParameterArgument, IDToValue_at in E1.
    apply bind_Ok in E1 as (Val & st2 & E1 & E2).
    apply bind_Ok in E1 as (st0 & st3 & [= <- <-] & E1).
    destruct (assoc_lookup Id (IDToValue st)) as [V|] eqn:EV; [|discriminate].
    injection E1 as <- <-. injection E2 as <- <-.
    apply IH in E as (-> & Vals & HV & ->). split; [reflexivity|].
    exists (V :: Vals). split; [by constructor|]. simpl. by rewrite <- app_assoc.
Qed.

Lemma push_types {A : Type} (f : A -> Ty) (l : list A) (acc : list Ty) :
  fold_left (fun Args x => Args ++ [f x]) l acc = acc ++ map f l.
Proof.
  revert acc. induction l as [|x l IH]; intros acc; simpl; [by rewrite app_nil_r|].
  by rewrite IH, <- app_assoc.
Qed.

Lemma kernelArgumentTypes_Ok SV st Args st' :
  kernelArgumentTypes Prog K SV st = Ok Args st' ->
  st' = st /\
  exists paramVals,
    Forall2 (boundIn st) (space_param K) paramVals /\
    Args = map arrayArgumentType (requiredArrays Prog K)
           ++ map (fun _ => getInt64Ty) (space_set K)
           ++ map getType paramVals ++ map getType SV.
Proof.
  unfold kernelArgumentTypes. intros E.
  apply bind_Ok in E as (Args1 & st1 & E1 & E).
  apply bind_Ok in E as (Args2 & st2 & E2 & E).
  injection E as <- <-.
  apply declareArrayArguments_Ok in E1 as (-> & ->).
  apply declareParameterArguments_Ok in E2 as (-> & Vals & HV & ->).
  split; [reflexivity|]. exists Vals. split; [exact HV|].
  rewrite (push_types getType), (push_types (fun _ => getInt64Ty)). simpl.
  by rewrite <- !app_assoc.
Qed.

Lemma createKernelFunctionDecl_Ok SV st F st' :
  createKernelFunctionDecl S Prog K SV st = Ok F st' ->
  exists Args, kernelArgumentTypes Prog K SV st = Ok Args st /\ FnArgs F = Args.
Proof.
  unfold createKernelFunctionDecl. intros E.
  apply bind_Ok in E as (Args & st1 & E1 & E).
  apply bind_Ok in E as (? & ? & _ & E).
  apply bind_Ok in E as (? & ? & _ & E).
  apply bind_Ok in E as (? & ? & _ & E).
  apply bind_Ok in E as (? & ? & _ & E).
  injection E as <- _.
  destruct (kernelArgumentTypes_Ok _ _ _ _ E1) as [-> _].
  exists Args. by split.
Qed.

Lemma storeParameter_Ok slot size L st L' st' :
  storeParameter slot size L st = Ok L' st' ->
  st' = st /\ L' = parameterStored slot size L.
Proof.
  unfold storeParameter. destruct (_ <? _)%nat; [|discriminate].
  intros [= <- <-]. by split.
Qed.

Lemma launchArrayParameter_Ok L i st L' st' :
  launchArrayParameter Opt Prog K L i st = Ok L' st' ->
  IDToValue st' = IDToValue st /\
  match requiredArray Prog K i with
  | Some Array =>
      exists slot, isSlotOf Array slot /\
                   L' = parameterStored slot (ElemSizeInBytes (user Array)) L
  | None => L' = L
  end.
Proof.
  intros E. split.
  { pose proof (okrel_of_inv _ _ (hostAllocas_launchArrayParameter Opt Prog K L i)
                  _ _ _ E) as H. apply H. }
  unfold launchArrayParameter, Prog_array, requiredArray in *.
  destruct (ppcg_kernel_requires_array_argument K i); simpl in *.
  2:{ by injection E as <- _. }
  destruct (Prog !! i) as [Array|]; [|discriminate].
  apply bind_Ok in E as (Array' & st1 & [= <- <-] & E).
  apply bind_Ok in E as (DevArray & st2 & _ & E).
  destruct DevArray as [DevArray|]; [|discriminate].
  unfold isSlotOf. destruct (gpu_array_is_read_only_scalar Array).
  - apply bind_Ok in E as (ValPtr & st3 & _ & E).
    apply storeParameter_Ok in E as [_ ->]. eauto.
  - apply storeParameter_Ok in E as [_ ->]. eauto.
Qed.

Lemma launchArrayParameters_Ok l L st L' st' :
  fold_gen l L (launchArrayParameter Opt Prog K) st = Ok L' st' ->
  IDToValue st' = IDToValue st /\
  exists slots,
    Forall2 isSlotOf (omap (requiredArray Prog K) l) slots /\
    L' = storeAll (zip slots (map (fun Array => ElemSizeInBytes (user Array))
                                  (omap (requiredArray Prog K) l))) L.
Proof.
  revert L st. induction l as [|i l IH]; intros L st; simpl.
  - intros [= <- <-]. split; [reflexivity|]. exists []. split; [constructor | reflexivity].
  - intros E. apply bind_Ok in E as (L1 & st1 & E1 & E).
    apply launchArrayParameter_Ok in E1 as (HI & H1).
    apply IH in E as (HI' & slots & Hs & ->). split; [congruence|].
    destruct (requiredArray Prog K i) as [Array|].
    + destruct H1 as (slot & Hslot & ->). exists (slot :: slots).
      split; [by constructor | reflexivity].
    + subst L1. exists slots. by split.
Qed.

Lemma launchIdParameters_Ok Ids L st L' st' :
  fold_gen Ids L launchIdParameter st = Ok L' st' ->
  st' = st /\
  exists Vals, Forall2 (boundIn st) Ids Vals /\ L' = storeAll (map valueSlot Vals) L.
Proof.
  revert L st. induction Ids as [|Id Ids IH]; intros L st; simpl.
  - intros [= <- <-]. split; [reflexivity|]. exists []. split; [constructor | reflexivity].
  - intros E. apply bind_Ok in E as (L1 & st1 & E1 & E).
    unfold launchIdParameter, IDToValue_at in E1.
    apply bind_Ok in E1 as (Val & st2 & E1 & E2).
    apply bind_Ok in E1 as (st0 & st3 & [= <- <-] & E1).
    destruct (assoc_lookup Id (IDToValue st)) as [V|] eqn:EV; [|discriminate].
    injection E1 as <- <-. apply storeParameter_Ok in E2 as [-> ->].
    apply IH in E as (-> & Vals & HV & ->). split; [reflexivity|].
    exists (V :: Vals). split; [by constructor | reflexivity].
Qed.

Lemma Forall2_boundIn_agree st1 st2 Ids Vals1 Vals2 :
  (forall Id, Id ∈ Ids -> assoc_lookup Id (IDToValue st2) = assoc_lookup Id (IDToValue st1)) ->
  Forall2 (boundIn st1) Ids Vals1 -> Forall2 (boundIn st2) Ids Vals2 -> Vals1 = Vals2.
Proof.
  intros Hag H1. revert Vals2. induction H1 as [|Id V1 Ids Vals1 HV1 _ IH]; intros Vals2 H2.
  - by inversion H2.
  - inversion H2 as [|? V2 ? Vals2' HV2 H2']; subst. unfold boundIn in *.
    rewrite (Hag Id) in HV2 by left. f_equal; [congruence|].
    apply IH; [|exact H2']. intros Id' Hin. apply Hag. by right.
Qed.

Lemma launchValueParameters_storeAll SV L st L' st' :
  fold_gen SV L launchValueParameter st = Ok L' st' ->
  st' = st /\ L' = storeAll (map valueSlot SV) L.
Proof.
  revert L st. induction SV as [|V SV IH]; intros L st; simpl.
  - intros [= <- <-]. by split.
  - intros E. apply bind_Ok in E as (L1 & st1 & E1 & E).
    apply storeParameter_Ok in E1 as [-> ->]. apply IH in E as [-> ->]. by split.
Qed.

Lemma fst_valueSlot Vals : map fst (map valueSlot Vals) = map BoxedValue Vals.
Proof. rewrite map_map. reflexivity. Qed.

Lemma snd_valueSlot Vals :
  map snd (map valueSlot Vals) = map (fun V => computeSizeInBytes (getType V)) Vals.
Proof. rewrite map_map. reflexivity. Qed.

(** C1 (amended). Let [createKernelFunctionDecl] declare the kernel
    function [F] and let [createLaunchParameters] build the launch
    parameters for [F], the ids of the parameters being bound to the same
    values at both calls. Then there are as many value slots, and as many
    size words, as [F] has formal arguments, and slots and formals come in
    the same order: the arrays the kernel requires, the host iterators, the
    parameters, the closure values; the slots of the size words follow.
    The size word of an array is the size of an element of the array,
    whatever the type of the formal; the size word of any other slot is
    [computeSizeInBytes] of the type of the value passed, which is the type
    of the formal for parameters and closure values. *)
Theorem launch_parameters_match_declaration SV st1 F st1' st2 L st2' :
  createKernelFunctionDecl S Prog K SV st1 = Ok F st1' ->
  createLaunchParameters Opt Prog K F SV st2 = Ok L st2' ->
  (forall Id, Id ∈ space_param K ->
     assoc_lookup Id (IDToValue st2) = assoc_lookup Id (IDToValue st1)) ->
  exists arraySlots iterVals paramVals,
    Forall2 isSlotOf (requiredArrays Prog K) arraySlots /\
    Forall2 (boundIn st2) (space_set K) iterVals /\
    Forall2 (boundIn st2) (space_param K) paramVals /\
    FnArgs F = map arrayArgumentType (requiredArrays Prog K)
               ++ map (fun _ => getInt64Ty) iterVals
               ++ map getType paramVals ++ map getType SV /\
    ArgSizes L = map (fun Array => ElemSizeInBytes (user Array)) (requiredArrays Prog K)
                 ++ map (fun V => computeSizeInBytes (getType V))
                        (iterVals ++ paramVals ++ SV) /\
    Parameters L = map Some (arraySlots ++ map BoxedValue (iterVals ++ paramVals ++ SV)
                             ++ map BoxedSize (ArgSizes L)) /\
    length (ArgSizes L) = arg_size F.
Proof.
  intros ED EL Hag.
  destruct (createKernelFunctionDecl_Ok _ _ _ _ ED) as (Args & EA & HF).
  destruct (kernelArgumentTypes_Ok _ _ _ _ EA) as (_ & paramVals1 & HP1 & HArgs).
  unfold createLaunchParameters in EL.
  apply bind_Ok in EL as (La & sta & Ea & EL).
  apply bind_Ok in EL as (Lb & stb & Eb & EL).
  apply bind_Ok in EL as (Lc & stc & Ec & EL).
  apply bind_Ok in EL as (Ld & std & Ed & EL).
  injection EL as <- _.
  apply launchArrayParameters_Ok in Ea as (HIa & slots & Hslots & ->).
  apply launchIdParameters_Ok in Eb as (-> & iterVals & Hiter & ->).
  apply launchIdParameters_Ok in Ec as (-> & paramVals & Hparam & ->).
  apply launchValueParameters_storeAll in Ed as (_ & ->).
  assert (Hb : forall Id V, boundIn sta Id V <-> boundIn st2 Id V).
  { intros Id V. unfold boundIn. by rewrite HIa. }
  assert (Hiter2 : Forall2 (boundIn st2) (space_set K) iterVals).
  { eapply Forall2_impl; [exact Hiter | intros ? ?; apply Hb]. }
  assert (Hparam2 : Forall2 (boundIn st2) (space_param K) paramVals).
  { eapply Forall2_impl; [exact Hparam | intros ? ?; apply Hb]. }
  assert (paramVals1 = paramVals) as ->.
  { eapply Forall2_boundIn_agree; eassumption. }
  fold (requiredArrays Prog K) in Hslots |- *.
  set (Arrays := requiredArrays Prog K) in *.
  set (esizes := map (fun Array => ElemSizeInBytes (user Array)) Arrays) in *.
  assert (Hls : length Arrays = length slots) by apply (Forall2_length _ _ _ Hslots).
  pose proof (Forall2_length _ _ _ Hiter2) as Hli.
  assert (Hn : arg_size F = (length Arrays + length iterVals + length paramVals
                              + length SV)%nat).
  { unfold arg_size. rewrite HF, HArgs, !length_app, !length_map.
    unfold isl_id in *. lia. }
  set (n := arg_size F) in *.
  rewrite <- !storeAll_app.
  change (omap (requiredArray Prog K) (seq 0 (length Prog))) with Arrays. fold esizes.
  set (ps := zip slots esizes ++ map valueSlot iterVals ++ map valueSlot paramVals
             ++ map valueSlot SV).
  assert (Hfst : map fst ps = slots ++ map BoxedValue (iterVals ++ paramVals ++ SV)).
  { subst ps. rewrite !map_app, !fst_valueSlot. f_equal.
    apply fst_zip. subst esizes. rewrite length_map. lia. }
  assert (Hsnd : map snd ps = esizes ++ map (fun V => computeSizeInBytes (getType V))
                                          (iterVals ++ paramVals ++ SV)).
  { subst ps. rewrite !map_app, !snd_valueSlot. f_equal.
    apply snd_zip. subst esizes. rewrite length_map. lia. }
  assert (Hlen : length ps = n).
  { rewrite <- (length_map fst), Hfst, length_app, !length_map, !length_app. lia. }
  destruct (packed_storeAll n ps _ [] [] (packed_initial n)) as (HI & _ & _ & HA & HP).
  { simpl. lia. }
  cbn [app] in HI, HA, HP. rewrite length_map, Hlen in HI, HA, HP.
  rewrite Nat.sub_diag in HA. cbn [replicate] in HA. rewrite app_nil_r in HA.
  destruct (size_slots (seq 0 n) (storeAll ps (mkLaunchState 0 (replicate n 0)
                                                 (replicate (2 * n) None)))
              (map Some (map fst ps)) (2 * n - n)) as [HA' HP'].
  { exact HP. }
  { rewrite HI, !length_map. by rewrite Hlen. }
  { rewrite length_seq. lia. }
  exists slots, iterVals, paramVals.
  split; [exact Hslots|]. split; [exact Hiter2|]. split; [exact Hparam2|].
  split; [rewrite HF, HArgs; f_equal; f_equal; by apply map_const_length|].
  split; [rewrite HA', HA; exact Hsnd|].
  split.
  - rewrite HP', HA', HA, length_seq.
    replace (2 * n - n - n)%nat with 0%nat by lia. simpl. rewrite app_nil_r.
    rewrite <- Hlen at 1. rewrite <- (length_map snd ps), map_lookup_seq_box.
    rewrite Hfst, !map_app, <- app_assoc, !map_map. reflexivity.
  - rewrite HA', HA, length_map. exact Hlen.
Qed.

End Launch.

(** C1 as stated fails for the size words: for the array [A] of floats
    and for the scalar [t] the formal is a pointer, of 8 bytes on a 64-bit
    device and of 4 on a 32-bit one, and the size word is 4, the size of
    an element; for a closure value of pointer type the size word is 0. *)
Lemma launch_size_claim_refuted :
  exists F st1' L st2',
    createKernelFunctionDecl Example.scop Example.prog Example.kernel0
      [HostValue "p" (PointerTy FloatTy 0)] Example.initialized = Ok F st1' /\
    createLaunchParameters Example.device Example.prog Example.kernel0 F
      [HostValue "p" (PointerTy FloatTy 0)] Example.initialized = Ok L st2' /\
    FnArgs F = [getInt8PtrTy 1; FloatTy; getInt8PtrTy 1; getInt64Ty; PointerTy FloatTy 0] /\
    ArgSizes L = [4; 4; 4; 8; 0] /\
    map (sizeOfType true) (FnArgs F) = [8; 4; 8; 8; 8] /\
    map (sizeOfType false) (FnArgs F) = [4; 4; 4; 8; 4].
Proof. do 4 eexists. vm_compute. repeat split. Qed.

Lemma launch_parameters_match_declaration_witness :
  exists F st1' L st2',
    createKernelFunctionDecl Example.scop Example.prog Example.kernel0 []
      Example.initialized = Ok F st1' /\
    createLaunchParameters Example.device Example.prog Example.kernel0 F []
      Example.initialized = Ok L st2' /\
    length (ArgSizes L) = arg_size F.
Proof.
  destruct (createKernelFunctionDecl Example.scop Example.prog Example.kernel0 []
              Example.initialized) as [F st1'|msg st1'] eqn:ED;
    [|vm_compute in ED; discriminate ED].
  destruct (createLaunchParameters Example.device Example.prog Example.kernel0 F []
              Example.initialized) as [L st2'|msg st2'] eqn:EL.
  - exists F, st1', L, st2'. split; [reflexivity|]. split; [exact EL|].
    destruct (launch_parameters_match_declaration _ _ _ _ _ _ _ _ _ _ _ ED EL
                (fun _ _ => eq_refl))
      as (arraySlots & iterVals & paramVals & _ & _ & _ & _ & _ & _ & H).
    exact H.
  - vm_compute in ED. injection ED as <- _. vm_compute in EL. discriminate EL.
Defined.

(** * Part III: further properties of the code *)

(** *** Names of kernels *)

Section Names.
Variable S : Scop.

(** X2. Kernels with different ids get functions with different names. *)
Theorem getKernelFuncName_distinct (id1 id2 : Z) :
  id1 <> id2 -> getKernelFuncName S id1 <> getKernelFuncName S id2.
Proof.
  unfold getKernelFuncName. intros Hne H. apply Hne.
  apply String.app_inj, String.app_inj, String.app_inj in H.
  by apply pretty_Z_inj in H.
Qed.
End Names.

Lemma getKernelFuncName_distinct_witness :
  getKernelFuncName Example.scop 0 <> getKernelFuncName Example.scop 1.
Proof. apply getKernelFuncName_distinct. lia. Defined.

(** *** Sizes and offsets of arrays *)

Lemma fold_left_ext_in {A B : Type} (f g : A -> B -> A) (l : list B) (a : A) :
  (forall a x, x ∈ l -> f a x = g a x) -> fold_left f l a = fold_left g l a.
Proof.
  revert a. induction l as [|x l IH]; intros a H; simpl; [reflexivity|].
  rewrite (H a x) by left. apply IH. intros a' y Hy. apply H. by right.
Qed.

Lemma lookup_fold_insert_eq {A : Type} (v : nat -> A) (dims : list nat) (b : list A) (j : nat) :
  j ∈ dims -> (j < length b)%nat ->
  fold_left (fun b i => <[i := v i]> b) dims b !! j = Some (v j).
Proof.
  revert b. induction dims as [|i dims IH]; intros b Hj Hlt; simpl.
  { by apply elem_of_nil in Hj. }
  destruct (decide (j ∈ dims)) as [Hin|Hnin].
  - apply IH; [exact Hin | by rewrite length_insert].
  - rewrite lookup_fold_insert_ne by exact Hnin.
    apply elem_of_cons in Hj as [->|Hj]; [|contradiction].
    by apply list_lookup_insert_eq.
Qed.

Lemma fold_mul_bounds (b : nat -> Z) (k s : nat) (r : Z) :
  fold_left (fun r i => r * b i) (seq s k) r = r * product (map b (seq s k)).
Proof.
  revert s r. induction k as [|k IH]; intros s r; simpl; [lia|].
  rewrite IH. unfold product. lia.
Qed.

Lemma map_nth_seq (B : list Z) (k : nat) :
  (k <= length B)%nat -> map (fun j => nth j B 0) (seq 0 k) = take k B.
Proof.
  revert k. induction B as [|x B IH]; intros [|k] Hk; simpl in *; try reflexivity; [lia|].
  f_equal. rewrite <- seq_shift, map_map. apply IH. lia.
Qed.

Section Sizes.
Variables (S : Scop) (Array : ScopArrayInfo) (sizes : list Z) (mn mx : Z).
Hypothesis Hdims : DimensionSizesPw Array = None :: map (fun s => Some (Some s)) sizes.
Hypothesis Hs : Forall (fun s => 1 <= s) sizes.
Hypothesis Hmin : isl_set_dim_min (accessedElementsOf S Array) 0 = Some mn.
Hypothesis Hmax : isl_set_dim_max (accessedElementsOf S Array) 0 = Some mx.

Lemma createArray_bounds :
  exists P,
    createArray S Array = Some P /\
    user P = Array /\
    size P = getPrimitiveSizeInBits (ElementType Array) / 8 /\
    n_index P = Datatypes.S (length sizes) /\
    extent P = box (mkInterval (Some mn) (Some mx) :: map innerInterval sizes) /\
    forall j, (j <= length sizes)%nat -> bound_at P j = Some (nth j ((mx + 1) :: sizes) 0).
Proof.
  pose proof (dim_min_le_max _ _ _ _ Hmin Hmax) as Hle.
  assert (Hn : getNumberOfDimensions Array = Datatypes.S (length sizes)).
  { unfold getNumberOfDimensions. rewrite Hdims. simpl. by rewrite length_map. }
  unfold createArray. rewrite (getExtent_box _ _ _ _ _ Hdims Hmin Hmax). simpl.
  eexists. split; [reflexivity|].
  split; [reflexivity|]. split; [reflexivity|]. split; [exact Hn|]. split; [reflexivity|].
  intros j Hj. unfold bound_at, setArrayBounds. cbn [bound n_index extent].
  rewrite Hn. change ((0 <? Datatypes.S (length sizes))%nat) with true. cbv iota.
  set (E := box _).
  set (b0 := if isl_set_is_empty E then _ else _).
  assert (Hlen : length b0 = Datatypes.S (length sizes)).
  { subst b0. destruct (isl_set_is_empty E);
      rewrite length_insert, length_replicate; reflexivity. }
  destruct j as [|j].
  - rewrite lookup_fold_insert_ne.
    2:{ intros H. apply list_elem_of_In, in_seq in H. lia. }
    subst b0 E. simpl. rewrite (inner_nonempty _ Hs), orb_false_r.
    unfold interval_is_empty. simpl.
    destruct (mx <? mn) eqn:Hlt; [lia|]. simpl.
    rewrite Nat.sub_0_r, drop_ge by (by rewrite length_map).
    unfold interval_is_empty. simpl. rewrite Hlt. reflexivity.
  - rewrite (lookup_fold_insert_eq (fun i => mjoin (getDimensionSizePw Array i))).
    + unfold getDimensionSizePw. rewrite Hdims. simpl.
      rewrite list_lookup_fmap.
      destruct (sizes !! j) as [s|] eqn:Es.
      * simpl. f_equal. symmetry. by apply nth_lookup_Some with (d := 0) in Es.
      * apply lookup_ge_None in Es. lia.
    + apply list_elem_of_In, in_seq. lia.
    + eapply Nat.lt_le_trans; [|apply Nat.eq_le_incl; symmetry; exact Hlen]. lia.
Qed.

Lemma fold_pw_mul (b : nat -> Z) (l : list nat) (r : Z) :
  fold_left (fun Res i => isl_pw_aff_mul Res (Some (b i))) l (Some r)
  = Some (fold_left (fun r i => r * b i) l r).
Proof. revert r. induction l as [|i l IH]; intros r; simpl; [reflexivity | apply IH]. Qed.

Lemma product_bounds_tail :
  map (fun j => nth j ((mx + 1) :: sizes) 0) (seq 1 (length sizes)) = sizes.
Proof.
  rewrite <- seq_shift, map_map. simpl.
  rewrite (map_nth_seq sizes (length sizes)) by lia. apply firstn_all.
Qed.

Lemma getArraySize_bounds (P : gpu_array_info) :
  n_index P = Datatypes.S (length sizes) ->
  (forall j, (j <= length sizes)%nat -> bound_at P j = Some (nth j ((mx + 1) :: sizes) 0)) ->
  getArraySize P = Some (size P * product ((mx + 1) :: sizes)).
Proof.
  intros Hn Hb. unfold getArraySize, gpu_array_is_scalar. rewrite Hn. simpl negb. cbv iota.
  simpl Nat.sub. rewrite Nat.sub_0_r.
  rewrite (fold_left_ext_in _
             (fun Res i => isl_pw_aff_mul Res (Some (nth i ((mx + 1) :: sizes) 0)))).
  2:{ intros a i Hi. apply list_elem_of_In, in_seq in Hi. rewrite Hb by lia. reflexivity. }
  rewrite (Hb 0%nat) by lia. rewrite fold_pw_mul, fold_mul_bounds, product_bounds_tail.
  simpl. f_equal.
Qed.

Lemma lexmin_dim_min (k i : nat) :
  (i <= k)%nat ->
  isl_set_dim_min (box (exactly mn :: map exactly (replicate k 0))) i
  = Some (if (0 <? i)%nat then 0 else mn).
Proof.
  intros Hi. simpl. rewrite points_nonempty, orb_false_r.
  unfold interval_is_empty. simpl. rewrite Z.ltb_irrefl.
  destruct i as [|i]; simpl; [reflexivity|].
  rewrite list_lookup_fmap, lookup_replicate_2 by lia. reflexivity.
Qed.

Lemma getArrayOffset_bounds (P : gpu_array_info) :
  n_index P = Datatypes.S (length sizes) ->
  extent P = box (mkInterval (Some mn) (Some mx) :: map innerInterval sizes) ->
  (forall j, (j <= length sizes)%nat -> bound_at P j = Some (nth j ((mx + 1) :: sizes) 0)) ->
  getArrayOffset P =
    if (mn =? 0) && forallb minIsOrigin (extent_elsewhere P) then None
    else Some (Some (mn * product (take (length sizes) ((mx + 1) :: sizes)))).
Proof.
  intros Hn He Hb.
  pose proof (dim_min_le_max _ _ _ _ Hmin Hmax) as Hle.
  rewrite (getArrayOffset_box P mn mx sizes Hn He Hle Hs).
  destruct ((mn =? 0) && _); [reflexivity|]. f_equal.
  cbn [seq fold_left]. rewrite (lexmin_dim_min _ 0) by lia. simpl Nat.ltb. cbv iota.
  rewrite (fold_left_ext_in _
             (fun Res i => isl_pw_aff_mul Res
                             (Some (nth (i - 1) ((mx + 1) :: sizes) 0)))).
  2:{ intros a i Hi. apply list_elem_of_In, in_seq in Hi.
      rewrite lexmin_dim_min by lia.
      destruct i as [|i]; [lia|]. simpl Nat.ltb. cbv iota.
      rewrite Hb by lia. destruct a as [r|]; simpl; [|reflexivity].
      rewrite Z.add_0_r. reflexivity. }
  simpl isl_pw_aff_add.
  rewrite (fold_pw_mul (fun i => nth (i - 1) ((mx + 1) :: sizes) 0)), fold_mul_bounds.
  f_equal. f_equal. f_equal.
  rewrite <- seq_shift, map_map.
  rewrite <- (map_nth_seq ((mx + 1) :: sizes) (length sizes)) by (simpl; lia).
  apply map_ext. intros j. f_equal. lia.
Qed.

End Sizes.

(** X4. For an array with dimensions whose outermost size is not declared,
    whose inner sizes [sizes] are positive and whose accessed elements have
    the indices [mn] to [mx] in dimension 0, [getArraySize] is the size of
    an element times [mx + 1] times the inner sizes. [getArrayOffset] is
    not null where [mn] is not 0, and an offset that is not null is [mn]
    times all these bounds but the last: the loop multiplies by the bound
    of the dimension before. *)
Theorem array_size_and_offset (S : Scop) (Array : ScopArrayInfo) (sizes : list Z) (mn mx : Z) :
  DimensionSizesPw Array = None :: map (fun s => Some (Some s)) sizes ->
  Forall (fun s => 1 <= s) sizes ->
  isl_set_dim_min (accessedElementsOf S Array) 0 = Some mn ->
  isl_set_dim_max (accessedElementsOf S Array) 0 = Some mx ->
  exists P,
    createArray S Array = Some P /\
    getArraySize P
    = Some (getPrimitiveSizeInBits (ElementType Array) / 8 * product ((mx + 1) :: sizes)) /\
    (mn <> 0 -> getArrayOffset P <> None) /\
    (getArrayOffset P <> None ->
       getArrayOffset P
       = Some (Some (mn * product (take (length sizes) ((mx + 1) :: sizes))))).
Proof.
  intros Hdims Hs Hmin Hmax.
  destruct (createArray_bounds S Array sizes mn mx Hdims Hs Hmin Hmax)
    as (P & HP & Hu & Hsz & Hn & He & Hb).
  exists P. split; [exact HP|]. split.
  - rewrite (getArraySize_bounds sizes mx P Hn Hb), Hsz. reflexivity.
  - rewrite (getArrayOffset_bounds S Array sizes mn mx Hs Hmin Hmax P Hn He Hb).
    destruct (Z.eqb_spec mn 0) as [Hz|Hne]; cbn [andb].
    + split; [by intros H|]. destruct (forallb _ _); [by intros H | reflexivity].
    + split; [discriminate | reflexivity].
Qed.

(** X3. For a one-dimensional array whose accessed elements have the
    indices [mn] to [mx], the number of bytes allocated on the device and
    copied by a transfer is [mx + 1] times the primitive size of the element
    type in bytes, less [mn] times [getElemSizeInBytes]. Where the two sizes
    of an element agree, that is [mx - mn + 1] elements. *)
Theorem transfer_size_one_dimensional (S : Scop) (Array : ScopArrayInfo) (mn mx : Z) :
  DimensionSizesPw Array = [None] ->
  isl_set_dim_min (accessedElementsOf S Array) 0 = Some mn ->
  isl_set_dim_max (accessedElementsOf S Array) 0 = Some mx ->
  exists P,
    createArray S Array = Some P /\
    sizeLessOffset P
    = Some ((mx + 1) * (getPrimitiveSizeInBits (ElementType Array) / 8)
            - mn * ElemSizeInBytes Array) /\
    (getPrimitiveSizeInBits (ElementType Array) / 8 = ElemSizeInBytes Array ->
     sizeLessOffset P = Some ((mx - mn + 1) * ElemSizeInBytes Array)).
Proof.
  intros Hdims Hmin Hmax.
  destruct (createArray_bounds S Array [] mn mx Hdims (List.Forall_nil _) Hmin Hmax)
    as (P & HP & Hu & Hsz & Hn & He & Hb).
  exists P. split; [exact HP|].
  assert (H : sizeLessOffset P
              = Some ((mx + 1) * (getPrimitiveSizeInBits (ElementType Array) / 8)
                      - mn * ElemSizeInBytes Array)).
  { unfold sizeLessOffset.
    rewrite (getArraySize_bounds [] mx P Hn Hb).
    rewrite (getArrayOffset_bounds S Array [] mn mx (List.Forall_nil _) Hmin Hmax P Hn He Hb).
    rewrite Hu, Hsz. unfold product. simpl.
    destruct (Z.eqb_spec mn 0) as [->|Hne]; cbn [andb];
      [destruct (forallb _ _)|]; simpl; f_equal; lia. }
  split; [exact H|]. intros Hsize. rewrite H, Hsize. f_equal. lia.
Qed.

Lemma transfer_size_one_dimensional_witness :
  (exists P, createArray Example.scop Example.A = Some P /\
             sizeLessOffset P = Some ((99 - 42 + 1) * 4)) /\
  (exists P, createArray Example.sliding Example.A = Some P /\
             sizeLessOffset P = Some ((9 - 0 + 1) * 4)).
Proof.
  split.
  - destruct (transfer_size_one_dimensional Example.scop Example.A 42 99)
      as (P & HP & _ & H); [reflexivity..|].
    exists P. split; [exact HP | apply H; reflexivity].
  - destruct (transfer_size_one_dimensional Example.sliding Example.A 0 9)
      as (P & HP & _ & H); [reflexivity..|].
    exists P. split; [exact HP | apply H; reflexivity].
Defined.

Lemma array_size_and_offset_witness :
  exists P, createArray Example.matrix_scop Example.M = Some P /\
            getArraySize P = Some 224 /\ getArrayOffset P = Some (Some 14).
Proof.
  destruct (array_size_and_offset Example.matrix_scop Example.M [8] 2 6)
    as (P & HP & HS & Hnn & HO);
    [reflexivity | repeat constructor; lia | reflexivity | reflexivity |].
  exists P. split; [exact HP|]. split; [exact HS|]. apply HO, Hnn. lia.
Defined.

(** *** What an extent covers *)

Lemma fold_min_le_elem (r : list Z) (x y : Z) : y ∈ x :: r -> fold_left Z.min r x <= y.
Proof.
  revert x. induction r as [|z r IH]; intros x Hy; simpl.
  - apply list_elem_of_singleton in Hy as ->. lia.
  - apply elem_of_cons in Hy as [->|Hy].
    + pose proof (fold_min_le r (Z.min x z)). lia.
    + apply elem_of_cons in Hy as [->|Hy].
      * pose proof (fold_min_le r (Z.min x z)). lia.
      * apply IH. by right.
Qed.

Lemma fold_max_ge_elem (r : list Z) (x y : Z) : y ∈ x :: r -> y <= fold_left Z.max r x.
Proof.
  revert x. induction r as [|z r IH]; intros x Hy; simpl.
  - apply list_elem_of_singleton in Hy as ->. lia.
  - apply elem_of_cons in Hy as [->|Hy].
    + pose proof (fold_max_ge r (Z.max x z)). lia.
    + apply elem_of_cons in Hy as [->|Hy].
      * pose proof (fold_max_ge r (Z.max x z)). lia.
      * apply IH. by right.
Qed.

Lemma dim_min_max_bounds (s : point_set) (i : nat) (mn mx : Z) (p : list Z) :
  isl_set_dim_min s i = Some mn -> isl_set_dim_max s i = Some mx -> p ∈ s ->
  mn <= coordinate i p <= mx.
Proof.
  simpl. intros Hmin Hmax Hp.
  apply (list_elem_of_fmap_2 (coordinate i)) in Hp.
  change (coordinate i <$> s) with (map (coordinate i) s) in Hp.
  destruct (map (coordinate i) s) as [|x r]; simpl in *; [discriminate|].
  injection Hmin as <-. injection Hmax as <-.
  split; [by apply fold_min_le_elem | by apply fold_max_ge_elem].
Qed.

Lemma accessedElementsOf_length (S : Scop) (Array : ScopArrayInfo) (p : list Z) :
  p ∈ accessedElementsOf S Array -> length p = getNumberOfDimensions Array.
Proof.
  unfold accessedElementsOf, isl_union_set_extract_set. intros H.
  apply list_elem_of_fmap in H as (t & -> & Ht).
  apply list_elem_of_filter in Ht as [[_ Hl] _]. exact Hl.
Qed.

(** X5. The extent [getExtent] derives contains every element the
    statements access whose inner indices are within the declared sizes. *)
Theorem extent_covers_accesses (S : Scop) (Array : ScopArrayInfo)
    (sizes : list Z) (mn mx : Z) (p : list Z) :
  DimensionSizesPw Array = None :: map (fun s => Some (Some s)) sizes ->
  isl_set_dim_min (accessedElementsOf S Array) 0 = Some mn ->
  isl_set_dim_max (accessedElementsOf S Array) 0 = Some mx ->
  p ∈ accessedElementsOf S Array ->
  (forall j s, sizes !! j = Some s -> 0 <= coordinate (Datatypes.S j) p < s) ->
  exists Extent, getExtent S Array = Some Extent /\ inSet p Extent.
Proof.
  intros Hdims Hmin Hmax Hp Hin.
  rewrite (getExtent_box _ _ _ _ _ Hdims Hmin Hmax). eexists. split; [reflexivity|].
  pose proof (accessedElementsOf_length _ _ _ Hp) as Hlen.
  unfold getNumberOfDimensions in Hlen. rewrite Hdims in Hlen. simpl in Hlen.
  rewrite length_map in Hlen.
  pose proof (dim_min_max_bounds _ 0 _ _ _ Hmin Hmax Hp) as H0.
  destruct p as [|x0 ps]; [discriminate|]. injection Hlen as Hlen.
  simpl. constructor.
  - unfold coordinate in H0. simpl in H0. split; simpl; intros ? [= <-]; lia.
  - apply Forall2_same_length_lookup_2.
    + by rewrite length_map.
    + intros j x i Hx Hi. rewrite list_lookup_fmap in Hi.
      destruct (sizes !! j) as [s|] eqn:Es; [|discriminate]. injection Hi as <-.
      specialize (Hin j s Es). unfold coordinate in Hin. simpl in Hin.
      rewrite (nth_lookup_Some _ _ 0 _ Hx) in Hin.
      split; simpl; intros ? [= <-]; lia.
Qed.

Lemma extent_covers_accesses_witness :
  exists Extent, getExtent Example.matrix_scop Example.M = Some Extent /\
                 inSet [4; 1] Extent.
Proof.
  apply (extent_covers_accesses Example.matrix_scop Example.M [8] 2 6 [4; 1]);
    try reflexivity.
  - apply list_elem_of_In. simpl. auto.
  - intros [|j] s [= <-]. unfold coordinate. simpl. lia.
Defined.

(** *** The arrays of a region *)







(** *** Association lists *)

Section AssocFacts.
Context {K V : Type} `{EqDecision K}.

Lemma assoc_lookup_insert (k k' : K) (v : V) (m : list (K * V)) :
  assoc_lookup k (assoc_insert k' v m)
  = if decide (k = k') then Some v else assoc_lookup k m.
Proof.
  induction m as [|[k0 v0] m IH]; simpl.
  - destruct (decide (k = k')); reflexivity.
  - destruct (decide (k' = k0)) as [->|Hne]; simpl.
    + destruct (decide (k = k0)); reflexivity.
    + rewrite IH. destruct (decide (k = k0)) as [->|]; [|reflexivity].
      destruct (decide (k0 = k')); [congruence | reflexivity].
Qed.

Lemma assoc_lookup_is_Some (k : K) (m : list (K * V)) :
  is_Some (assoc_lookup k m) <-> k ∈ map fst m.
Proof.
  induction m as [|[k0 v0] m IH]; simpl.
  - split; [intros [? [=]] | intros H; by apply elem_of_nil in H].
  - rewrite elem_of_cons. destruct (decide (k = k0)) as [->|Hne].
    + split; [by left | eauto].
    + rewrite IH. split; [by right | intros [?|?]; [contradiction | done]].
Qed.

Lemma assoc_insert_fresh (k : K) (v : V) (m : list (K * V)) :
  k ∉ map fst m -> assoc_insert k v m = m ++ [(k, v)].
Proof.
  induction m as [|[k0 v0] m IH]; simpl; intros Hk; [reflexivity|].
  rewrite not_elem_of_cons in Hk. destruct Hk as [Hne Hk].
  destruct (decide (k = k0)); [contradiction|]. by rewrite IH.
Qed.

End AssocFacts.

(** *** The calls of a run, by kind *)

Lemma census_add_assoc (a b c : Census) :
  census_add (census_add a b) c = census_add a (census_add b c).
Proof. unfold census_add. simpl. f_equal; lia. Qed.

Lemma census_add_zero (a : Census) : census_add a census_zero = a.
Proof. destruct a. unfold census_add. simpl. f_equal; lia. Qed.

Lemma censusOf_app (l1 l2 : list Instr) :
  censusOf (l1 ++ l2) = census_add (censusOf l1) (censusOf l2).
Proof. unfold censusOf, census_add. simpl. by rewrite !List.filter_app, !List.length_app. Qed.

Lemma okrel_tallies_bind {A B : Type} (v1 v2 : Census) (c : Gen A) (k : A -> Gen B) :
  okrel (tallies v1) c -> (forall a, okrel (tallies v2) (k a)) ->
  okrel (tallies (census_add v1 v2)) (bind c k).
Proof.
  intros Hc Hk st b st'' E. apply bind_Ok in E as (a & st' & E1 & E2).
  unfold tallies. rewrite (Hk a _ _ _ E2), (Hc _ _ _ E1). apply census_add_assoc.
Qed.

Lemma okrel_tallies_same {A : Type} (c : Gen A) :
  inv (same census) c -> okrel (tallies census_zero) c.
Proof.
  intros H st a st' E. pose proof (okrel_of_inv _ _ H _ _ _ E) as H'.
  unfold same, tallies in *. by rewrite H', census_add_zero.
Qed.

Lemma okrel_tallies_ext {A : Type} (v v' : Census) (c : Gen A) :
  okrel (tallies v) c -> v = v' -> okrel (tallies v') c.
Proof. intros H <-. exact H. Qed.

Lemma okrel_tallies_emit (i : Instr) : okrel (tallies (censusOf [i])) (emit i).
Proof.
  intros st a st' E. injection E as _ <-. unfold tallies, census. simpl.
  by rewrite map_app, censusOf_app.
Qed.

Lemma okrel_tallies_emit_as (i : Instr) (v : Census) :
  censusOf [i] = v -> okrel (tallies v) (emit i).
Proof. intros <-. apply okrel_tallies_emit. Qed.

Lemma okrel_fatal_any {A : Type} (R : relation GPUNodeBuilder) (msg : string) :
  okrel R (fatal (A := A) msg).
Proof. intros st a st' E. discriminate E. Qed.

Ltac solve_census :=
  intros; unfold same, census; simpl; rewrite ?map_app, ?censusOf_app; simpl;
  rewrite ?census_add_zero; reflexivity.

Ltac census_inv :=
  autounfold with gen_unfold; inv_steps ltac:(idtac; solve_census).

Section CensusFrames.
Context `{Ext : External}.
Variables (Opt : Options) (S : Scop) (Prog : list gpu_array_info)
  (Runtime : GPURuntime) (Arch : GPUArch).

Lemma census_createKernelFunction K SV SF :
  inv (same census) (createKernelFunction S Prog K SV SF).
Proof. census_inv. Qed.

Lemma census_createLaunchParameters K F SV :
  inv (same census) (createLaunchParameters Opt Prog K F SV).
Proof. census_inv. Qed.

Lemma census_finalizeKernelArguments K :
  inv (same census) (finalizeKernelArguments Prog K).
Proof. census_inv. Qed.

Lemma census_finalizeKernelFunction : inv (same census) (finalizeKernelFunction Opt Arch).
Proof. census_inv. Qed.

Lemma census_setup SF : inv (same census) (setupKernelSubtreeFunctions SF).
Proof. census_inv. Qed.

Lemma census_noteKernelDepth K : inv (same census) (noteKernelDepth K).
Proof. unfold noteKernelDepth. census_inv. Qed.

Lemma census_hostPointer Array SAI : inv (same census) (hostPointer Array SAI).
Proof. census_inv. Qed.

Lemma census_DeviceAllocations_at key : inv (same census) (DeviceAllocations_at key).
Proof. census_inv. Qed.

Ltac tallies_step :=
  lazymatch goal with
  | H : okrel (tallies _) ?c |- okrel (tallies _) ?c => exact H
  | |- okrel (tallies _) (bind _ _) => eapply okrel_tallies_bind; [|intros ?]
  | |- okrel (tallies _) (let _ := _ in _) => cbv zeta
  | |- okrel (tallies _) (emit _) => eapply okrel_tallies_emit_as; lazy; reflexivity
  | |- okrel (tallies _) (fatal _) => apply okrel_fatal_any
  | |- okrel (tallies _) _ =>
      apply okrel_tallies_same;
      first [ apply inv_getReferencesInKernel; exact _
            | apply census_createKernelFunction
            | apply census_createLaunchParameters
            | apply census_finalizeKernelArguments
            | apply census_finalizeKernelFunction
            | apply census_setup
            | apply census_noteKernelDepth
            | apply census_hostPointer
            | apply census_DeviceAllocations_at
            | census_inv ]
  end.

Ltac census_eq :=
  cbv [census_add census_zero treeCensus allocations releases copiesToDevice
       copiesFromDevice waits kernelsLoaded launches kernelsReleased];
  simpl; rewrite ?length_app; f_equal; lia.

Lemma tallies_createKernel K tree lower v :
  okrel (tallies v) lower ->
  okrel (tallies (census_add v (mkCensus 0 0 0 0 0 1 1 1)))
        (createKernel Opt S Prog Arch K tree lower).
Proof.
  intros Hl. eapply okrel_tallies_ext.
  - unfold createKernel, createCallGetKernel, createCallLaunchKernel, createCallFreeKernel.
    repeat tallies_step.
  - destruct v. census_eq.
Qed.

Lemma tallies_createDataTransfer Array D :
  okrel (tallies match D with
                 | HOST_TO_DEVICE => mkCensus 0 0 1 0 0 0 0 0
                 | DEVICE_TO_HOST => mkCensus 0 0 0 1 0 0 0 0
                 end)
        (createDataTransfer Opt Array D).
Proof.
  destruct D;
    (eapply okrel_tallies_ext;
     [ unfold createDataTransfer, createCallCopyFromHostToDevice,
         createCallCopyFromDeviceToHost;
       cbv beta iota zeta; repeat tallies_step
     | reflexivity ]).
Qed.

Lemma census_statement (KS : ppcg_kernel_stmt) :
  inv (same census)
    match KS with
    | ppcg_kernel_domain Stmt => createScopStmt Stmt
    | ppcg_kernel_copy read array => createKernelCopy read array
    | ppcg_kernel_sync => createKernelSync
    | ppcg_kernel_unknown => ret tt
    end.
Proof. destruct KS; census_inv. Qed.

Lemma tallies_createUser Str anno lower :
  (forall K tree, anno = anno_kernel K tree ->
     okrel (tallies (treeCensus (ManagedMemory Opt) tree)) lower) ->
  okrel (tallies (treeCensus (ManagedMemory Opt) (isl_ast_node_user Str anno)))
        (createUser Opt S Prog Arch Str anno lower).
Proof.
  intros Hl.
  assert (Hc : forall v,
    v = treeCensus (ManagedMemory Opt) (isl_ast_node_user Str anno) ->
    okrel (tallies v) (createUser Opt S Prog Arch Str anno lower)); [|by apply Hc].
  unfold createUser, treeCensus. cbn [kernelsOf toDeviceNodes fromDeviceNodes].
  destruct (String.eqb Str "kernel") eqn:Hk.
  { destruct anno as [K tree| |]; intros v ->; try apply okrel_fatal_any.
    eapply okrel_tallies_ext; [apply tallies_createKernel, (Hl K tree eq_refl)|].
    destruct (ManagedMemory Opt); census_eq. }
  destruct (isPrefix Str "to_device").
  { destruct (ManagedMemory Opt); intros v ->; cbn [negb].
    - eapply okrel_tallies_ext; [apply okrel_tallies_same, inv_ret; exact _|].
      by destruct anno.
    - destruct anno; try apply okrel_fatal_any.
      eapply okrel_tallies_ext; [apply (tallies_createDataTransfer _ HOST_TO_DEVICE)|].
      reflexivity. }
  destruct (isPrefix Str "from_device").
  { destruct (ManagedMemory Opt); intros v ->; cbn [negb].
    - eapply okrel_tallies_ext.
      + unfold createCallSynchronizeDevice. repeat tallies_step.
      + by destruct anno.
    - destruct anno; try apply okrel_fatal_any.
      eapply okrel_tallies_ext; [apply (tallies_createDataTransfer _ DEVICE_TO_HOST)|].
      reflexivity. }
  intros v ->. eapply okrel_tallies_ext.
  - destruct anno; try apply okrel_fatal_any. apply okrel_tallies_same, census_statement.
  - by destruct (ManagedMemory Opt), anno.
Qed.

Lemma tallies_create (Node : isl_ast_node) :
  okrel (tallies (treeCensus (ManagedMemory Opt) Node)) (create Opt S Prog Arch Node).
Proof.
  induction Node as [children IH|iterator body IH|then_ else_ IH1 IH2|mark node IH
                    |name K tree IH|name A|name KS] using isl_ast_node_ind.
  - simpl. induction IH as [|c l Hc _ IHl].
    + eapply okrel_tallies_ext; [apply okrel_tallies_same, inv_ret; exact _|].
      by destruct (ManagedMemory Opt).
    + eapply okrel_tallies_ext; [eapply okrel_tallies_bind; [exact Hc | intros _; exact IHl]|].
      destruct (ManagedMemory Opt); census_eq.
  - simpl. eapply okrel_tallies_ext; [repeat tallies_step|].
    destruct (ManagedMemory Opt); census_eq.
  - simpl. eapply okrel_tallies_ext; [eapply okrel_tallies_bind; [exact IH1 | intros _; exact IH2]|].
    destruct (ManagedMemory Opt); census_eq.
  - simpl. exact IH.
  - simpl create. apply tallies_createUser. intros K' tree' [= <- <-]. exact IH.
  - simpl create. apply tallies_createUser. intros K' tree' [=].
  - simpl create. apply tallies_createUser. intros K' tree' [=].
Qed.

Lemma tallies_allocate (l : list gpu_array_info) :
  okrel (tallies (mkCensus (length l) 0 0 0 0 0 0 0))
        (for_each l (fun Array =>
           DevArray <- createCallAllocateMemoryForDevice Opt (name Array)
                         (sizeLessOffset Array) ;;
           modify (fun st =>
             set_DeviceAllocations
               (assoc_insert (BasePtrId (user Array)) (Some DevArray)
                  (DeviceAllocations st)) st))).
Proof.
  induction l as [|Array l IH]; simpl.
  - apply okrel_tallies_same, inv_ret; exact _.
  - eapply okrel_tallies_ext.
    + unfold createCallAllocateMemoryForDevice. repeat tallies_step.
    + census_eq.
Qed.

Lemma tallies_free (l : list (isl_id * option DevPtr)) :
  okrel (tallies (mkCensus 0 (length l) 0 0 0 0 0 0))
        (for_each l (fun Array => createCallFreeDeviceMemory Opt Array.1 Array.2)).
Proof.
  induction l as [|Array l IH]; simpl.
  - apply okrel_tallies_same, inv_ret; exact _.
  - eapply okrel_tallies_ext.
    + unfold createCallFreeDeviceMemory. repeat tallies_step.
    + census_eq.
Qed.

Lemma tallies_initializeAfterRTH :
  okrel (tallies (mkCensus (if ManagedMemory Opt then 0 else length Prog) 0 0 0 0 0 0 0))
        (initializeAfterRTH Opt Prog Runtime).
Proof.
  unfold initializeAfterRTH, allocateDeviceArrays, createCallInitContext.
  destruct (ManagedMemory Opt); cbn [negb].
  - eapply okrel_tallies_ext; [repeat tallies_step | reflexivity].
  - eapply okrel_tallies_ext.
    + tallies_step; [tallies_step|]. tallies_step; [repeat tallies_step|].
      tallies_step; [tallies_step|]. apply tallies_allocate.
    + census_eq.
Qed.

Lemma DeviceAllocations_free (l : list (isl_id * option DevPtr)) :
  inv (same DeviceAllocations)
      (for_each l (fun Array => createCallFreeDeviceMemory Opt Array.1 Array.2)).
Proof. autounfold with gen_unfold. inv_steps ltac:(idtac; reflexivity). Qed.

Lemma finalize_census st st' :
  finalize Opt st = Ok tt st' ->
  DeviceAllocations st' = DeviceAllocations st /\
  census st' = census_add (census st)
                 (mkCensus 0 (if ManagedMemory Opt then 0 else length (DeviceAllocations st))
                    0 0 0 0 0 0).
Proof.
  unfold finalize, freeDeviceArrays, createCallFreeContext. intros E.
  apply bind_Ok in E as ([] & st1 & E1 & E).
  injection E as <-.
  destruct (ManagedMemory Opt); simpl in E1.
  - injection E1 as <-. split; [reflexivity|]. unfold census. simpl.
    rewrite map_app, censusOf_app. reflexivity.
  - apply bind_Ok in E1 as (st0 & ? & [= <- <-] & E1).
    pose proof (tallies_free _ _ _ _ E1) as H1.
    pose proof (okrel_of_inv _ _ (DeviceAllocations_free _) _ _ _ E1) as H2.
    split; [exact H2|]. unfold tallies in H1. unfold census in *. simpl.
    rewrite map_app, censusOf_app, H1. unfold census_add. simpl. f_equal; lia.
Qed.

Lemma generateCode_census Root guard NodeBuilder :
  generateCode Opt S Prog Runtime Arch Root = Ok guard NodeBuilder ->
  census NodeBuilder =
    census_add
      (mkCensus (if ManagedMemory Opt then 0 else length Prog)
                (if ManagedMemory Opt then 0 else length (DeviceAllocations NodeBuilder))
                0 0 0 0 0 0)
      (treeCensus (ManagedMemory Opt) Root).
Proof.
  unfold generateCode. intros H.
  destruct ((initializeAfterRTH Opt Prog Runtime ;; create Opt S Prog Arch Root ;;
             finalize Opt)%gen (initialBuilder S)) as [[] st|] eqn:E; [|discriminate].
  injection H as _ <-.
  apply bind_Ok in E as (? & st1 & E1 & E).
  apply bind_Ok in E as (? & st2 & E2 & E3).
  pose proof (tallies_initializeAfterRTH _ _ _ E1) as H1.
  pose proof (tallies_create Root _ _ _ E2) as H2.
  destruct (finalize_census _ _ E3) as [HD H3].
  unfold tallies in *. rewrite H3, H2, H1, HD.
  unfold census_add, treeCensus, census. simpl. f_equal; lia.
Qed.

End CensusFrames.


Section Balance.
Context `{Ext : External}.
Variables (Opt : Options) (S : Scop) (Prog : list gpu_array_info)
  (Runtime : GPURuntime) (Arch : GPUArch).
Hypothesis HD : ManagedMemory Opt = false.

#[local] Instance keeps_preorder : PreOrder (keeps (arrayIds Prog)).
Proof.
  split.
  - intros st _. reflexivity.
  - intros a b c H1 H2 Ha. specialize (H1 Ha). rewrite <- H1.
    apply H2. intros id Hid. rewrite H1. by apply Ha.
Qed.

Lemma keeps_of_same {A : Type} (c : Gen A) :
  inv (same DeviceAllocations) c -> inv (keeps (arrayIds Prog)) c.
Proof. intros H st _. apply H. Qed.

Lemma keeps_DeviceAllocations_at key :
  key ∈ arrayIds Prog -> inv (keeps (arrayIds Prog)) (DeviceAllocations_at key).
Proof.
  intros Hkey st Hall. unfold DeviceAllocations_at, bind, get. 
  destruct (Hall key Hkey) as [v Hv]. rewrite Hv. reflexivity.
Qed.

Ltac keeps_frame :=
  apply keeps_of_same; autounfold with gen_unfold; inv_steps ltac:(idtac; reflexivity).

Lemma inv_bind_ret {A B : Type} (R : relation GPUNodeBuilder) (a : A) (k : A -> Gen B) :
  inv R (k a) -> inv R (bind (ret a) k).
Proof. intros H st. apply H. Qed.

Lemma keeps_launchArrayParameter K L i :
  inv (keeps (arrayIds Prog)) (launchArrayParameter Opt Prog K L i).
Proof.
  unfold launchArrayParameter, Prog_array. rewrite HD.
  destruct (negb (ppcg_kernel_requires_array_argument K i)); [apply inv_ret; exact _|].
  destruct (Prog !! i) as [Array|] eqn:EP; [|apply inv_bind_fatal; exact _].
  assert (Hkey : BasePtrId (user Array) ∈ arrayIds Prog).
  { apply list_elem_of_fmap. exists Array. split; [reflexivity|].
    by eapply list_elem_of_lookup_2. }
  pose proof (keeps_DeviceAllocations_at _ Hkey) as Hat.
  apply inv_bind_ret. cbv zeta.
  unfold storeParameter, createCallGetDevicePtr, operand, BlockGen_getOrCreateAlloca, emit.
  inv_steps ltac:(idtac; intros _; reflexivity).
Qed.

Lemma keeps_createLaunchParameters K F SV :
  inv (keeps (arrayIds Prog)) (createLaunchParameters Opt Prog K F SV).
Proof.
  unfold createLaunchParameters, launchIdParameter, launchValueParameter,
    storeParameter, IDToValue_at.
  inv_steps ltac:(idtac; intros _; reflexivity); apply keeps_launchArrayParameter.
Qed.

Lemma keeps_createDataTransfer Array D :
  BasePtrId (user Array) ∈ arrayIds Prog -> inv (keeps (arrayIds Prog)) (createDataTransfer Opt Array D).
Proof.
  intros Hkey. pose proof (keeps_DeviceAllocations_at _ Hkey) as Hat.
  unfold createDataTransfer, hostPointer, BlockGen_getOrCreateAlloca,
    createCallCopyFromHostToDevice, createCallCopyFromDeviceToHost, operand, emit.
  inv_steps ltac:(idtac; intros _; reflexivity).
Qed.

Lemma keeps_createKernel K tree lower :
  inv (keeps (arrayIds Prog)) lower -> inv (keeps (arrayIds Prog)) (createKernel Opt S Prog Arch K tree lower).
Proof.
  intros Hl. unfold createKernel.
  repeat lazymatch goal with
  | H : inv ?R ?c |- inv ?R ?c => exact H
  | |- inv ?R (bind _ _) => refine (inv_bind R _ _ _ _); [|intros ?]
  | |- inv _ (let _ := _ in _) => cbv zeta
  | |- inv ?R _ =>
      first [ apply inv_getReferencesInKernel; exact _
            | apply keeps_createLaunchParameters
            | unfold noteKernelDepth; keeps_frame ]
  end.
Qed.

Lemma keeps_createUser Str anno lower :
  transfersKnown (arrayIds Prog) (isl_ast_node_user Str anno) ->
  inv (keeps (arrayIds Prog)) lower ->
  inv (keeps (arrayIds Prog)) (createUser Opt S Prog Arch Str anno lower).
Proof.
  intros Hk Hl. unfold createUser. rewrite HD. cbn [negb].
  destruct (String.eqb Str "kernel").
  { destruct anno; try apply inv_fatal; try exact _. by apply keeps_createKernel. }
  destruct (isPrefix Str "to_device").
  { destruct anno; try apply inv_fatal; try exact _. by apply keeps_createDataTransfer. }
  destruct (isPrefix Str "from_device").
  { destruct anno; try apply inv_fatal; try exact _. by apply keeps_createDataTransfer. }
  destruct anno as [| |[]]; try apply inv_fatal; try exact _; keeps_frame.
Qed.

Lemma keeps_create (Node : isl_ast_node) :
  transfersKnown (arrayIds Prog) Node -> inv (keeps (arrayIds Prog)) (create Opt S Prog Arch Node).
Proof.
  induction Node as [children IH|iterator body IH|then_ else_ IH1 IH2|mark node IH
                    |name K tree IH|name A|name KS] using isl_ast_node_ind.
  - simpl. induction IH as [|c l Hc _ IHl]; intros Hk.
    + apply inv_ret; exact _.
    + destruct Hk as [Hk1 Hk2].
      apply inv_bind; [exact _ | by apply Hc | intros _; by apply IHl].
  - simpl. intros Hk. specialize (IH Hk). inv_steps ltac:(idtac; intros _; reflexivity).
  - simpl. intros [Hk1 Hk2]. specialize (IH1 Hk1). specialize (IH2 Hk2).
    inv_steps ltac:(idtac; intros _; reflexivity).
  - simpl. exact IH.
  - intros Hk. simpl create. apply keeps_createUser; [exact Hk | apply IH, Hk].
  - intros Hk. simpl create. apply keeps_createUser; [exact Hk | apply inv_ret; exact _].
  - intros Hk. simpl create. apply keeps_createUser; [exact Hk | apply inv_ret; exact _].
Qed.

Lemma allocate_keys (l : list gpu_array_info) st st' :
  NoDup (map fst (DeviceAllocations st) ++ arrayIds l) ->
  for_each l (fun Array =>
    DevArray <- createCallAllocateMemoryForDevice Opt (name Array)
                  (sizeLessOffset Array) ;;
    modify (fun st =>
      set_DeviceAllocations
        (assoc_insert (BasePtrId (user Array)) (Some DevArray)
           (DeviceAllocations st)) st)) st = Ok tt st' ->
  map fst (DeviceAllocations st') = map fst (DeviceAllocations st) ++ arrayIds l.
Proof.
  revert st. induction l as [|Array l IH]; intros st Hnd E; simpl in *.
  - injection E as <-. by rewrite app_nil_r.
  - apply bind_Ok in E as ([] & st1 & E1 & E).
    unfold createCallAllocateMemoryForDevice in E1. rewrite HD in E1.
    apply bind_Ok in E1 as (DevArray & st2 & E1 & E2).
    injection E1 as <- <-. injection E2 as <-.
    rewrite (cons_middle _ (map fst _)), app_assoc in Hnd |- *.
    assert (Hfresh : BasePtrId (user Array) ∉ map fst (DeviceAllocations st)).
    { apply NoDup_app in Hnd as [Hnd _]. apply NoDup_app in Hnd as (_ & Hnd & _).
      intros Hin. apply (Hnd _ Hin). by left. }
    apply IH in E.
    + rewrite E. simpl. by rewrite (assoc_insert_fresh _ _ _ Hfresh), map_app.
    + simpl. by rewrite (assoc_insert_fresh _ _ _ Hfresh), map_app.
Qed.

Lemma generateCode_allocations Root guard NodeBuilder :
  NoDup (arrayIds Prog) -> transfersKnown (arrayIds Prog) Root ->
  generateCode Opt S Prog Runtime Arch Root = Ok guard NodeBuilder ->
  map fst (DeviceAllocations NodeBuilder) = arrayIds Prog.
Proof.
  intros Hnd Hk. unfold generateCode. intros H.
  destruct ((initializeAfterRTH Opt Prog Runtime ;; create Opt S Prog Arch Root ;;
             finalize Opt)%gen (initialBuilder S)) as [[] st|] eqn:E; [|discriminate].
  injection H as _ <-.
  apply bind_Ok in E as ([] & st1 & E1 & E).
  apply bind_Ok in E as ([] & st2 & E2 & E3).
  destruct (finalize_census Opt _ _ E3) as [-> _].
  assert (H1 : map fst (DeviceAllocations st1) = arrayIds Prog).
  { unfold initializeAfterRTH, allocateDeviceArrays, createCallInitContext in E1.
    rewrite HD in E1. simpl in E1.
    apply bind_Ok in E1 as (? & ? & [= <- <-] & E1).
    apply bind_Ok in E1 as (? & ? & E0 & E1).
    apply bind_Ok in E0 as (? & ? & [= <- <-] & [= <- <-]).
    apply bind_Ok in E1 as (? & ? & [= <- <-] & E1).
    apply allocate_keys in E1; [exact E1 | exact Hnd]. }
  pose proof (okrel_of_inv _ _ (keeps_create Root Hk) _ _ _ E2) as H2.
  rewrite H2; [exact H1|].
  intros id Hid. apply assoc_lookup_is_Some. by rewrite H1.
Qed.

End Balance.

Section CensusTheorems.
Context `{Ext : External}.
Variables (Opt : Options) (S : Scop) (Prog : list gpu_array_info)
  (Runtime : GPURuntime) (Arch : GPUArch).

(** X8. The code of a completed run of [generateCode] loads, launches and
    releases a kernel once for each kernel node of the tree. *)
Theorem kernel_calls_census Root guard NodeBuilder :
  generateCode Opt S Prog Runtime Arch Root = Ok guard NodeBuilder ->
  kernelsLoaded (census NodeBuilder) = length (kernelsOf Root) /\
  launches (census NodeBuilder) = length (kernelsOf Root) /\
  kernelsReleased (census NodeBuilder) = length (kernelsOf Root).
Proof.
  intros H. rewrite (generateCode_census _ _ _ _ _ _ _ _ H). simpl. auto.
Qed.

(** X9. Without managed memory, the code of a completed run allocates
    one device array per array of the program, copies to the device once
    per node for a transfer to the device and from the device once per node
    for a transfer from the device, and never synchronizes. *)
Theorem device_transfers_census Root guard NodeBuilder :
  ManagedMemory Opt = false ->
  generateCode Opt S Prog Runtime Arch Root = Ok guard NodeBuilder ->
  allocations (census NodeBuilder) = length Prog /\
  copiesToDevice (census NodeBuilder) = toDeviceNodes Root /\
  copiesFromDevice (census NodeBuilder) = fromDeviceNodes Root /\
  waits (census NodeBuilder) = 0%nat.
Proof.
  intros HD H. rewrite (generateCode_census _ _ _ _ _ _ _ _ H), HD. simpl.
  repeat split; lia.
Qed.

(** X10. Without managed memory, if the arrays of the program have
    pairwise distinct ids and the transfer nodes of the tree are for arrays
    of the program, a completed run ends with one device allocation per
    array and frees each: as many frees as allocations. *)
Theorem device_arrays_released Root guard NodeBuilder :
  ManagedMemory Opt = false ->
  NoDup (arrayIds Prog) -> transfersKnown (arrayIds Prog) Root ->
  generateCode Opt S Prog Runtime Arch Root = Ok guard NodeBuilder ->
  map fst (DeviceAllocations NodeBuilder) = arrayIds Prog /\
  releases (census NodeBuilder) = length Prog /\
  allocations (census NodeBuilder) = length Prog.
Proof.
  intros HD Hnd Hk H.
  pose proof (generateCode_allocations Opt S Prog Runtime Arch HD Root _ _ Hnd Hk H) as HA.
  split; [exact HA|].
  rewrite (generateCode_census _ _ _ _ _ _ _ _ H), HD. simpl.
  rewrite <- (length_map fst), HA. unfold arrayIds. rewrite length_map. lia.
Qed.

End CensusTheorems.

Lemma kernel_calls_census_witness :
  match generateCode Example.device Example.scop Example.prog CUDA NVPTX64
          Example.host_tree with
  | Ok _ NodeBuilder =>
      kernelsLoaded (census NodeBuilder) = 1%nat /\
      launches (census NodeBuilder) = 1%nat /\
      kernelsReleased (census NodeBuilder) = 1%nat
  | Fatal _ _ => False
  end.
Proof.
  destruct (generateCode Example.device Example.scop Example.prog CUDA NVPTX64
              Example.host_tree) as [guard st|msg st] eqn:E.
  - exact (kernel_calls_census _ _ _ _ _ _ _ _ E).
  - vm_compute in E. discriminate E.
Defined.

Lemma device_transfers_census_witness :
  match generateCode Example.device Example.scop Example.prog CUDA NVPTX64
          Example.host_tree with
  | Ok _ NodeBuilder =>
      allocations (census NodeBuilder) = 4%nat /\
      copiesToDevice (census NodeBuilder) = 1%nat /\
      copiesFromDevice (census NodeBuilder) = 1%nat /\
      waits (census NodeBuilder) = 0%nat
  | Fatal _ _ => False
  end.
Proof.
  destruct (generateCode Example.device Example.scop Example.prog CUDA NVPTX64
              Example.host_tree) as [guard st|msg st] eqn:E.
  - exact (device_transfers_census Example.device _ _ _ _ _ _ _ eq_refl E).
  - vm_compute in E. discriminate E.
Defined.

Lemma device_arrays_released_witness :
  match generateCode Example.device Example.scop Example.prog CUDA NVPTX64
          Example.host_tree with
  | Ok _ NodeBuilder =>
      map fst (DeviceAllocations NodeBuilder) = arrayIds Example.prog /\
      releases (census NodeBuilder) = 4%nat /\
      allocations (census NodeBuilder) = 4%nat
  | Fatal _ _ => False
  end.
Proof.
  destruct (generateCode Example.device Example.scop Example.prog CUDA NVPTX64
              Example.host_tree) as [guard st|msg st] eqn:E.
  - refine (device_arrays_released Example.device _ _ _ _ _ _ _ eq_refl _ _ E).
    + apply (bool_decide_unpack _). vm_compute. exact I.
    + simpl. repeat split; apply (bool_decide_unpack _); vm_compute; exact I.
  - vm_compute in E. discriminate E.
Defined.

(** *** The build-success flag *)

#[export] Instance sticky_preorder : PreOrder sticky.
Proof. split; [intros st H; exact H | intros a b c H1 H2 H; apply H2, H1, H]. Qed.

Ltac sticky_inv :=
  autounfold with gen_unfold;
  inv_steps ltac:(idtac; unfold sticky; simpl; auto).

Section Sticky.
Context `{Ext : External}.
Variables (Opt : Options) (S : Scop) (Prog : list gpu_array_info) (Arch : GPUArch).

Lemma sticky_createKernel K tree lower :
  inv sticky lower -> inv sticky (createKernel Opt S Prog Arch K tree lower).
Proof.
  intros Hl. unfold createKernel.
  repeat lazymatch goal with
  | H : inv ?R ?c |- inv ?R ?c => exact H
  | |- inv ?R (bind _ _) => refine (inv_bind R _ _ _ _); [|intros ?]
  | |- inv _ (let _ := _ in _) => cbv zeta
  | |- inv ?R _ =>
      first [ apply inv_getReferencesInKernel; exact _
            | unfold noteKernelDepth; sticky_inv ]
  end.
Qed.

Lemma sticky_createUser Str anno lower :
  inv sticky lower -> inv sticky (createUser Opt S Prog Arch Str anno lower).
Proof.
  intros Hl. unfold createUser.
  destruct (String.eqb Str "kernel").
  { destruct anno; try apply inv_fatal; try exact _. by apply sticky_createKernel. }
  repeat lazymatch goal with
  | |- inv _ (if ?b then _ else _) => destruct b
  | |- inv _ (match ?x with _ => _ end) => destruct x
  end; sticky_inv.
Qed.

(** X11. Lowering never sets the build-success flag back: from a state in
    which it is cleared, [create] ends, or stops, in a state in which it is
    cleared. *)
Theorem build_failure_is_final (Node : isl_ast_node) (st : GPUNodeBuilder) :
  BuildSuccessful st = false ->
  BuildSuccessful (final_state (create Opt S Prog Arch Node st)) = false.
Proof.
  revert st. change (inv sticky (create Opt S Prog Arch Node)).
  induction Node as [children IH|iterator body IH|then_ else_ IH1 IH2|mark node IH
                    |name K tree IH|name A|name KS] using isl_ast_node_ind.
  - simpl. induction IH as [|c l Hc _ IHl].
    + apply inv_ret; exact _.
    + apply inv_bind; [exact _ | exact Hc | intros _; exact IHl].
  - simpl. inv_steps ltac:(idtac; unfold sticky; simpl; auto).
  - simpl. inv_steps ltac:(idtac; unfold sticky; simpl; auto).
  - simpl. exact IH.
  - simpl create. apply sticky_createUser, IH.
  - simpl create. apply sticky_createUser, inv_ret; exact _.
  - simpl create. apply sticky_createUser, inv_ret; exact _.
Qed.

End Sticky.

Lemma build_failure_is_final_witness :
  BuildSuccessful
    (final_state (create Example.device Example.scop Example.prog NVPTX64 Example.host_tree
                    (set_BuildSuccessful false Example.initialized))) = false.
Proof. apply build_failure_is_final. reflexivity. Defined.

(** *** Instructions the check of the pass rejects *)

Lemma containsInvalidKernelFunctionInInsts_existsb (Insts : list Instruction) :
  forallb callIsDirect Insts = true ->
  containsInvalidKernelFunctionInInsts Insts = Some (existsb offending Insts).
Proof.
  induction Insts as [|Inst Insts IH]; simpl; [reflexivity|].
  intros H. apply andb_true_iff in H as [Hd Hrest]. rewrite (IH Hrest).
  assert (Ho : forall b, offending Inst = b ->
            Some (b || existsb offending Insts)
            = Some (existsb offending (Inst :: Insts))).
  { intros b <-. reflexivity. }
  unfold callIsDirect in Hd.
  destruct (IsCall Inst) eqn:Hc; simpl in Hd.
  - apply bool_decide_eq_true in Hd as [F HF]. rewrite HF.
    destruct (isValidFunctionInKernel F) eqn:Hv.
    + apply (Ho false). unfold offending, isIntrinsicCall. by rewrite Hc, HF, Hv.
    + destruct (existsb isFunctionPointer (Operands Inst)) eqn:Hex.
      * apply (Ho true). unfold offending, isIntrinsicCall. by rewrite Hc, HF, Hv, Hex.
      * apply (Ho false). unfold offending, isIntrinsicCall. by rewrite Hc, HF, Hv, Hex.
  - destruct (existsb isFunctionPointer (Operands Inst)) eqn:Hex.
    + apply (Ho true). unfold offending, isIntrinsicCall. by rewrite Hc, Hex.
    + apply (Ho false). unfold offending, isIntrinsicCall. by rewrite Hc, Hex.
Qed.

Lemma containsInvalidKernelFunctionInBlocks_existsb (Blocks : list BasicBlock) :
  forallb callIsDirect (flat_map Insts Blocks) = true ->
  containsInvalidKernelFunctionInBlocks Blocks
  = Some (existsb offending (flat_map Insts Blocks)).
Proof.
  induction Blocks as [|BB Blocks IH]; simpl; [reflexivity|].
  rewrite forallb_app, existsb_app. intros H. apply andb_true_iff in H as [H1 H2].
  unfold containsInvalidKernelFunctionInBllock.
  rewrite (containsInvalidKernelFunctionInInsts_existsb _ H1).
  destruct (existsb offending (Insts BB)); simpl; [reflexivity | apply IH, H2].
Qed.

(** X12. Where every call names its callee, the check of the pass answers
    yes exactly when some instruction of a statement, other than a call of
    an intrinsic that is valid in a kernel, has an operand whose type is a
    pointer to a function. *)
Theorem containsInvalidKernelFunction_existsb (S : Scop) :
  forallb callIsDirect (instructionsOf S) = true ->
  containsInvalidKernelFunction S = Some (existsb offending (instructionsOf S)).
Proof.
  unfold containsInvalidKernelFunction, instructionsOf.
  induction (Stmts S) as [|Stmt Stmts IH]; simpl; [reflexivity|].
  rewrite forallb_app, existsb_app. intros H. apply andb_true_iff in H as [H1 H2].
  rewrite (containsInvalidKernelFunctionInBlocks_existsb _ H1).
  destruct (existsb offending (flat_map Insts (StmtBlocks Stmt))); simpl;
    [reflexivity | apply IH, H2].
Qed.

Lemma containsInvalidKernelFunction_existsb_witness :
  containsInvalidKernelFunction Example.calling_scop = Some true.
Proof. apply (containsInvalidKernelFunction_existsb Example.calling_scop). reflexivity. Defined.

(** *** Bindings inside a kernel *)

Section Bindings.
Context `{Ext : External}.
Variables (S : Scop) (Prog : list gpu_array_info) (K : ppcg_kernel).

Lemma Argument_at_Ok FN Arg V st st' :
  FnKernel FN = Some (id K) -> Argument_at FN Arg st = Ok V st' ->
  st' = st /\ isKernelArgument (id K) V.
Proof.
  unfold Argument_at. intros ->. destruct (FnArgs FN !! Arg) as [ty|]; [|discriminate].
  intros [= <- <-]. split; [reflexivity|]. by exists Arg, ty.
Qed.

Lemma bound_insert_id Ids Vals st Id V :
  isKernelArgument (id K) V -> boundToArguments (id K) Ids Vals st ->
  boundToArguments (id K) (Ids ++ [Id]) Vals (set_IDToValue (assoc_insert Id V (IDToValue st)) st).
Proof.
  intros HV [H1 H2]. split; [|exact H2]. intros Id' Hin. simpl.
  rewrite assoc_lookup_insert. destruct (decide (Id' = Id)); [eauto|].
  apply elem_of_app in Hin as [Hin|Hin]; [by apply H1|].
  apply list_elem_of_singleton in Hin. contradiction.
Qed.

Lemma bound_insert_value Ids Vals st Val V :
  isKernelArgument (id K) V -> boundToArguments (id K) Ids Vals st ->
  boundToArguments (id K) Ids (Vals ++ [Val]) (set_ValueMap (assoc_insert Val V (ValueMap st)) st).
Proof.
  intros HV [H1 H2]. split; [exact H1|]. intros Val' Hin. simpl.
  rewrite assoc_lookup_insert. destruct (decide (Val' = Val)); [eauto|].
  apply elem_of_app in Hin as [Hin|Hin]; [by apply H2|].
  apply list_elem_of_singleton in Hin. contradiction.
Qed.

Lemma bound_weaken_values Ids Vals Vals' st :
  (forall V, V ∈ Vals' -> V ∈ Vals) -> boundToArguments (id K) Ids Vals st -> boundToArguments (id K) Ids Vals' st.
Proof. intros H [H1 H2]. split; [exact H1 | intros V HV; apply H2, H, HV]. Qed.

Lemma bindArrayArguments_bound FN l Arg st Arg' st' Ids Vals :
  fold_gen l Arg (bindArrayArgument Prog K FN) st = Ok Arg' st' ->
  boundToArguments (id K) Ids Vals st -> boundToArguments (id K) Ids Vals st'.
Proof.
  revert Arg st. induction l as [|i l IH]; intros Arg st; simpl.
  - intros [= <- <-]. auto.
  - intros E Hb. apply bind_Ok in E as (Arg1 & st1 & E1 & E).
    apply (IH _ _ E). clear IH E.
    assert (Hinv : inv (same (fun st => (IDToValue st, ValueMap st)))
                     (bindArrayArgument Prog K FN Arg i)).
    { autounfold with gen_unfold. inv_steps ltac:(idtac; reflexivity). }
    pose proof (okrel_of_inv _ _ Hinv _ _ _ E1) as Hs.
    unfold same in Hs. injection Hs as H1 H2. unfold boundToArguments. by rewrite H1, H2.
Qed.

Lemma bindHostIterators_bound FN Ids' Arg st Arg' st' Ids Vals :
  FnKernel FN = Some (id K) ->
  fold_gen Ids' Arg (bindHostIterator FN) st = Ok Arg' st' ->
  boundToArguments (id K) Ids Vals st -> boundToArguments (id K) (Ids ++ Ids') Vals st'.
Proof.
  intros HFN. revert Arg st Ids. induction Ids' as [|Id Ids' IH]; intros Arg st Ids; simpl.
  - intros [= <- <-]. by rewrite app_nil_r.
  - intros E Hb. apply bind_Ok in E as (Arg1 & st1 & E1 & E).
    rewrite (cons_middle Id), app_assoc. apply (IH _ _ _ E). clear IH E.
    unfold bindHostIterator in E1.
    apply bind_Ok in E1 as (V & st2 & EV & E1).
    apply (Argument_at_Ok _ _ _ _ _ HFN) in EV as [-> HV].
    apply bind_Ok in E1 as (? & ? & [= <- <-] & [= _ <-]).
    by apply bound_insert_id.
Qed.

Lemma bindParameters_bound FN Ids' Arg st Arg' st' Ids Vals :
  FnKernel FN = Some (id K) ->
  fold_gen Ids' Arg (bindParameter FN) st = Ok Arg' st' ->
  boundToArguments (id K) Ids Vals st -> exists Vals', boundToArguments (id K) (Ids ++ Ids') (Vals ++ Vals') st'.
Proof.
  intros HFN. revert Arg st Ids Vals.
  induction Ids' as [|Id Ids' IH]; intros Arg st Ids Vals; simpl.
  - intros [= <- <-] Hb. exists []. by rewrite !app_nil_r.
  - intros E Hb. apply bind_Ok in E as (Arg1 & st1 & E1 & E).
    unfold bindParameter in E1.
    apply bind_Ok in E1 as (V & st2 & EV & E1).
    apply (Argument_at_Ok _ _ _ _ _ HFN) in EV as [-> HV].
    apply bind_Ok in E1 as (Val & st3 & EVal & E1).
    assert (st3 = st) as ->.
    { unfold IDToValue_at in EVal. apply bind_Ok in EVal as (? & ? & [= <- <-] & EVal).
      destruct (assoc_lookup Id (IDToValue st)); [|discriminate]. by injection EVal as _ <-. }
    apply bind_Ok in E1 as (? & ? & [= <- <-] & E1).
    apply bind_Ok in E1 as (? & ? & [= <- <-] & [= _ <-]).
    destruct (IH _ _ (Ids ++ [Id]) (Vals ++ [Val]) E) as (Vals' & HV').
    + apply (bound_insert_id Ids (Vals ++ [Val])
               (set_ValueMap (assoc_insert Val V (ValueMap st)) st) Id V HV).
      by apply bound_insert_value.
    + exists (Val :: Vals'). by rewrite (cons_middle Id), (cons_middle Val), !app_assoc.
Qed.

Lemma bindSubtreeValues_bound FN SV Arg st Arg' st' Ids Vals :
  FnKernel FN = Some (id K) ->
  fold_gen SV Arg (bindSubtreeValue FN) st = Ok Arg' st' ->
  boundToArguments (id K) Ids Vals st -> boundToArguments (id K) Ids (Vals ++ SV) st'.
Proof.
  intros HFN. revert Arg st Vals. induction SV as [|Val SV IH]; intros Arg st Vals; simpl.
  - intros [= <- <-]. by rewrite app_nil_r.
  - intros E Hb. apply bind_Ok in E as (Arg1 & st1 & E1 & E).
    rewrite (cons_middle Val), app_assoc. apply (IH _ _ _ E). clear IH E.
    unfold bindSubtreeValue in E1.
    apply bind_Ok in E1 as (V & st2 & EV & E1).
    apply (Argument_at_Ok _ _ _ _ _ HFN) in EV as [-> HV].
    apply bind_Ok in E1 as (? & ? & [= <- <-] & [= _ <-]).
    by apply bound_insert_value.
Qed.

(** X13. When [createKernelFunctionDecl] completes, the function is that
    of the kernel, under the name of [getKernelFuncName], every host
    iterator and every parameter of the kernel is bound to a formal
    argument of it, and so is every value of the closure in the value
    map. *)
Theorem kernel_bindings_are_arguments SV st FN st' :
  createKernelFunctionDecl S Prog K SV st = Ok FN st' ->
  FnKernel FN = Some (id K) /\
  FnName FN = getKernelFuncName S (id K) /\
  (forall Id, Id ∈ space_set K ++ space_param K ->
     exists V, assoc_lookup Id (IDToValue st') = Some V /\ isKernelArgument (id K) V) /\
  (forall Val, Val ∈ SV ->
     exists V, assoc_lookup Val (ValueMap st') = Some V /\ isKernelArgument (id K) V).
Proof.
  unfold createKernelFunctionDecl. intros E.
  apply bind_Ok in E as (Args & st1 & _ & E). cbv zeta in E.
  set (F := mkFunction _ _ Args) in E.
  assert (HF : FnKernel F = Some (id K)) by reflexivity.
  apply bind_Ok in E as (Arg1 & st2 & E1 & E).
  apply bind_Ok in E as (Arg2 & st3 & E2 & E).
  apply bind_Ok in E as (Arg3 & st4 & E3 & E).
  apply bind_Ok in E as (Arg4 & st5 & E4 & E).
  injection E as <- <-. split; [reflexivity|]. split; [reflexivity|].
  assert (H0 : boundToArguments (id K) [] [] st1).
  { split; intros ? H; by apply elem_of_nil in H. }
  pose proof (bindArrayArguments_bound _ _ _ _ _ _ _ _ E1 H0) as H1.
  pose proof (bindHostIterators_bound _ _ _ _ _ _ _ _ HF E2 H1) as H2.
  destruct (bindParameters_bound _ _ _ _ _ _ _ _ HF E3 H2) as (Vals' & H3).
  pose proof (bindSubtreeValues_bound _ _ _ _ _ _ _ _ HF E4 H3) as [H4 H5].
  split; [exact H4|]. intros Val HV. apply H5. apply elem_of_app. by right.
Qed.

End Bindings.

Lemma kernel_bindings_are_arguments_witness :
  exists FN st',
    createKernelFunctionDecl Example.scop Example.prog Example.kernel1
      [HostValue "x" FloatTy] Example.in_loop = Ok FN st' /\
    assoc_lookup "c0"%string (IDToValue st') = Some (KernelArgument 1 1 getInt64Ty) /\
    assoc_lookup (HostValue "x" FloatTy) (ValueMap st') = Some (KernelArgument 1 3 FloatTy).
Proof.
  destruct (createKernelFunctionDecl Example.scop Example.prog Example.kernel1
              [HostValue "x" FloatTy] Example.in_loop) as [FN st'|msg st'] eqn:E.
  - exists FN, st'. split; [reflexivity|].
    destruct (kernel_bindings_are_arguments _ _ _ _ _ _ _ E) as (_ & _ & H1 & H2).
    destruct (H1 "c0"%string) as (V1 & HV1 & _); [apply list_elem_of_In; simpl; auto|].
    destruct (H2 (HostValue "x" FloatTy)) as (V2 & HV2 & _);
      [apply list_elem_of_In; simpl; auto|].
    vm_compute in E. injection E as _ <-. split; reflexivity.
  - vm_compute in E. discriminate E.
Defined.

(** *** Host pointers and transfers *)

Section Transfers.
Context `{Ext : External}.
Variable Opt : Options.

Lemma hostPointer_Ok Array SAI st :
  exists HostPtr st',
    hostPointer Array SAI st = Ok HostPtr st' /\
    Code st' = Code st /\ DeviceAllocations st' = DeviceAllocations st /\
    InsertFunction st' = InsertFunction st.
Proof.
  unfold hostPointer, BlockGen_getOrCreateAlloca, bind, get, modify, ret.
  destruct (gpu_array_is_scalar Array), (getArrayOffset Array); simpl; eauto 10.
Qed.

(** X14. [getOrCreateManagedDeviceArray] remembers its answer: after a
    call that completes, the pointer is on record for the array, a second
    call returns the same pointer and changes nothing, and no call of the
    run-time library was inserted. *)
Theorem managed_device_array_is_remembered Array SAI st r st' :
  getOrCreateManagedDeviceArray Opt Array SAI st = Ok r st' ->
  getOrCreateManagedDeviceArray Opt Array SAI st' = Ok r st' /\
  assoc_lookup (BasePtrId SAI) (DeviceAllocations st') = Some r /\
  Code st' = Code st.
Proof.
  unfold getOrCreateManagedDeviceArray. intros E.
  apply bind_Ok in E as ([] & st0 & E0 & E).
  unfold assert_ in *. destruct (ManagedMemory Opt); [|discriminate].
  injection E0 as <-.
  apply bind_Ok in E as (? & ? & [= <- <-] & E).
  destruct (assoc_lookup (BasePtrId SAI) (DeviceAllocations st)) as [it|] eqn:EL.
  - injection E as <- <-. unfold bind at 1. unfold ret at 1. unfold bind at 1, get.
    rewrite EL. auto.
  - apply bind_Ok in E as (HostPtr & st1 & E1 & E).
    destruct (hostPointer_Ok Array SAI st) as (p & st2 & E2 & HC & HDA & _).
    rewrite E2 in E1. injection E1 as <- <-.
    apply bind_Ok in E as (? & ? & [= <- <-] & [= <- <-]).
    unfold bind at 1. unfold ret at 1. unfold bind at 1, get. simpl.
    rewrite assoc_lookup_insert, decide_True by reflexivity. auto.
Qed.

End Transfers.

Lemma managed_device_array_is_remembered_witness :
  exists r st',
    getOrCreateManagedDeviceArray Example.managed Example.array_A Example.A
      (initialBuilder Example.scop) = Ok r st' /\
    getOrCreateManagedDeviceArray Example.managed Example.array_A Example.A st' = Ok r st'.
Proof.
  destruct (getOrCreateManagedDeviceArray Example.managed Example.array_A Example.A
              (initialBuilder Example.scop)) as [r st'|msg st'] eqn:E.
  - exists r, st'. split; [reflexivity|].
    apply (managed_device_array_is_remembered _ _ _ _ _ _ E).
  - vm_compute in E. discriminate E.
Defined.



(** *** The closure is computed *)

Lemma removeValuesOfIds_complete Ids SV st :
  (forall Id, Id ∈ Ids -> is_Some (assoc_lookup Id (IDToValue st))) ->
  exists SV', removeValuesOfIds Ids SV st = Ok SV' st.
Proof.
  revert SV. induction Ids as [|Id Ids IH]; intros SV H; simpl; [by eexists|].
  unfold bind at 1. simpl.
  destruct (H Id) as [Val ->]; [left|]. apply IH. intros Id' Hin. apply H. by right.
Qed.

Lemma getFunctionsFromRawSubtreeValues_complete Raw SF st :
  (forall V, V ∈ Raw -> isaFunction V = true -> isValidFunctionInKernel V = true) ->
  exists Fns, getFunctionsFromRawSubtreeValues Raw SF st = Ok Fns st.
Proof.
  revert SF. induction Raw as [|It Raw IH]; intros SF H; simpl; [by eexists|].
  assert (H' : forall V, V ∈ Raw -> isaFunction V = true -> isValidFunctionInKernel V = true).
  { intros V HV. apply H. by right. }
  destruct (isaFunction It) eqn:EIt; [|by apply IH].
  unfold bind at 1. rewrite (H It) by (left || exact EIt). simpl. by apply IH.
Qed.

(** X16. [getReferencesInKernel] completes, and leaves the builder as it
    was, whenever the statement nodes of the tree carry domain statements,
    the parameters and the iterators of the space of the kernel are bound,
    and the functions among the referenced values that are not passed
    implicitly are valid in a kernel. *)
Theorem closure_is_computed (S : Scop) (K : ppcg_kernel) (tree : isl_ast_node)
    (st : GPUNodeBuilder) (Referenced : list Value) :
  referencedIn tree st = Some Referenced ->
  (forall Id, Id ∈ ParamSpace S ++ space_set K ->
     is_Some (assoc_lookup Id (IDToValue st))) ->
  (forall V, V ∈ Referenced -> ~ passedImplicitly S K st V ->
     isaFunction V = true -> isValidFunctionInKernel V = true) ->
  exists Vals Fns, getReferencesInKernel S K tree st = Ok (Vals, Fns) st.
Proof.
  unfold referencedIn, getReferencesInKernel. intros HR Hids Hfn.
  unfold bind at 1. simpl.
  destruct (foreach_descendant_top_down tree _) as [References|]; [|discriminate].
  simpl in HR. injection HR as HR. rewrite HR.
  set (SV0 := fold_left _ (Arrays S) Referenced).
  destruct (removeValuesOfIds_complete (ParamSpace S) SV0 st) as (SV1 & E1).
  { intros Id Hin. apply Hids, elem_of_app. by left. }
  destruct (removeValuesOfIds_complete (space_set K) SV1 st) as (SV2 & E2).
  { intros Id Hin. apply Hids, elem_of_app. by right. }
  destruct (getFunctionsFromRawSubtreeValues_complete SV2 [] st) as (Fns & E3).
  { intros V HV. apply (removeValuesOfIds_Ok _ _ _ _ _ E2) in HV as [HV Hn2].
    apply (removeValuesOfIds_Ok _ _ _ _ _ E1) in HV as [HV Hn1].
    apply remove_base_pointers in HV as [HV Hn0].
    apply (Hfn V HV). unfold passedImplicitly, isBasePtr. tauto. }
  unfold bind. rewrite E1, E2, E3. eauto.
Qed.

Lemma closure_is_computed_witness :
  exists Vals Fns,
    getReferencesInKernel Example.scop Example.kernel1 Example.sqrt_tree Example.in_loop
    = Ok (Vals, Fns) Example.in_loop.
Proof.
  eapply closure_is_computed.
  - reflexivity.
  - intros Id Hin. apply (bool_decide_unpack _).
    apply list_elem_of_In in Hin. simpl in Hin.
    destruct Hin as [<-|[<-|[]]]; vm_compute; exact I.
  - intros V HV _ HF. apply list_elem_of_In in HV. simpl in HV.
    repeat (destruct HV as [<-|HV]; [first [discriminate HF | reflexivity]|]).
    destruct HV.
Defined.

(** *** The launch of a kernel *)

Section LaunchSequence.
Context `{Ext : External}.
Variables (Opt : Options) (S : Scop) (Prog : list gpu_array_info) (Arch : GPUArch).

(** X17. When [createKernel] completes, the host code ends with the
    calls that load the kernel, launch it with the grid and block sizes of
    the kernel, and release it, in this order and in the function the
    insertion point was in; the ids of the kernel are forgotten. *)
Theorem kernel_launch_sequence K tree lower st st' :
  createKernel Opt S Prog Arch K tree lower st = Ok tt st' ->
  exists before ASMString Parameters,
    Code st' =
      before ++
      map (fun c => (InsertFunction st, ICall c))
        [polly_getKernel (id K) ASMString;
         polly_launchKernel (id K) (getGridSizes K).1 (getGridSizes K).2
           (getBlockSizes K).1.1 (getBlockSizes K).1.2 (getBlockSizes K).2 Parameters;
         polly_freeKernel (id K)] /\
    KernelIds st' = [].
Proof.
  unfold createKernel. intros E.
  apply bind_Ok in E as (? & st1 & E1 & E).
  apply bind_Ok in E as (Refs & st2 & E2 & E).
  apply bind_Ok in E as (? & ? & [= <- <-] & E).
  apply bind_Ok in E as (? & ? & _ & E).
  apply bind_Ok in E as (? & ? & _ & E).
  apply bind_Ok in E as (? & ? & _ & E).
  apply bind_Ok in E as (? & ? & _ & E).
  apply bind_Ok in E as (? & ? & _ & E).
  apply bind_Ok in E as (? & ? & [= <- <-] & E).
  apply bind_Ok in E as (? & ? & [= <- <-] & E).
  apply bind_Ok in E as (? & ? & [= <- <-] & E).
  apply bind_Ok in E as (? & ? & [= <- <-] & E).
  apply bind_Ok in E as (? & ? & [= <- <-] & E).
  apply bind_Ok in E as (? & ? & [= <- <-] & E).
  apply bind_Ok in E as (ASM & st5 & E5 & E).
  apply bind_Ok in E as (? & ? & [= <- <-] & E).
  apply bind_Ok in E as (L & st_l & EL & E).
  apply bind_Ok in E as (? & ? & [= <- <-] & E).
  apply bind_Ok in E as (? & ? & [= <- <-] & E).
  apply bind_Ok in E as (? & ? & [= <- <-] & E).
  injection E as <-.
  pose proof (okrel_of_inv _ _ (hostSide_noteKernelDepth K) _ _ _ E1) as F1.
  pose proof (okrel_of_inv _ _ (inv_getReferencesInKernel (same hostSide) S K tree) _ _ _ E2)
    as F2.
  pose proof (okrel_of_inv _ _ (hostAllocas_createLaunchParameters _ _ _ _ _) _ _ _ EL)
    as (_ & _ & HF & _).
  unfold same, hostSide in F1, F2. injection F1 as _ _ _ F1 _. injection F2 as _ _ _ F2 _.
  simpl in HF.
  exists (Code st_l), ASM, (Parameters L). split; [|reflexivity].
  simpl. rewrite HF, F2, F1, <- !app_assoc. reflexivity.
Qed.

End LaunchSequence.

Lemma kernel_launch_sequence_witness :
  exists st' before ASMString Parameters,
    createKernel Example.device Example.scop Example.prog NVPTX64 Example.kernel0
      Example.device_tree
      (create Example.device Example.scop Example.prog NVPTX64 Example.device_tree)
      Example.initialized = Ok tt st' /\
    Code st' =
      before ++
      map (fun c => (InsertFunction Example.initialized, ICall c))
        [polly_getKernel 0 ASMString;
         polly_launchKernel 0 (Some 2) (Some 1) 32 1 1 Parameters;
         polly_freeKernel 0].
Proof.
  destruct (createKernel Example.device Example.scop Example.prog NVPTX64
              Example.kernel0 Example.device_tree
              (create Example.device Example.scop Example.prog NVPTX64
                 Example.device_tree)
              Example.initialized) as [[] st'|msg st'] eqn:E.
  - destruct (kernel_launch_sequence _ _ _ _ _ _ _ _ _ E) as (before & ASM & P & H & _).
    exists st', before, ASM, P. split; [reflexivity | exact H].
  - vm_compute in E. discriminate E.
Defined.

(** *** The launch parameters are created *)

Section LaunchCompletes.
Context `{Ext : External}.
Variables (Opt : Options) (Prog : list gpu_array_info) (K : ppcg_kernel).
Hypothesis HD : ManagedMemory Opt = false.

Lemma storeParameter_completes slot size L st :
  (Index L < length (ArgSizes L))%nat ->
  exists L1, storeParameter slot size L st = Ok L1 st /\ launchFrame 1 L st L1 st.
Proof.
  intros Hlt. unfold storeParameter. apply Nat.ltb_lt in Hlt. rewrite Hlt.
  eexists. split; [reflexivity|]. repeat split; simpl.
  - unfold Nat.succ. lia.
  - apply length_insert.
Qed.

Lemma launchArrayParameter_completes L i st :
  (i < length Prog)%nat ->
  (forall Array, requiredArray Prog K i = Some Array ->
     exists DevArray,
       assoc_lookup (BasePtrId (user Array)) (DeviceAllocations st) = Some (Some DevArray)) ->
  (Index L + length (omap (requiredArray Prog K) [i]) <= length (ArgSizes L))%nat ->
  exists L1 st1,
    launchArrayParameter Opt Prog K L i st = Ok L1 st1 /\
    launchFrame (length (omap (requiredArray Prog K) [i])) L st L1 st1.
Proof.
  intros Hi Hdev Hle. unfold launchArrayParameter, Prog_array, requiredArray in *.
  simpl in Hle, Hdev |- *.
  destruct (ppcg_kernel_requires_array_argument K i); simpl in *.
  2:{ exists L, st. split; [reflexivity|]. repeat split. lia. }
  destruct (lookup_lt_is_Some_2 Prog i Hi) as [Array EA]. rewrite EA in *. simpl in Hle.
  destruct (Hdev Array eq_refl) as [DevArray ED].
  rewrite HD.
  unfold DeviceAllocations_at, createCallGetDevicePtr, operand, BlockGen_getOrCreateAlloca,
    emit, bind, get, modify, ret.
  rewrite ED. cbv beta iota.
  destruct (gpu_array_is_read_only_scalar Array).
  - match goal with |- context [storeParameter ?slot _ _ ?s] =>
      destruct (storeParameter_completes slot (ElemSizeInBytes (user Array)) L s)
        as (L1 & E1 & H1); [lia|]; exists L1, s end.
    unfold ret in E1. rewrite E1. split; [reflexivity|].
    destruct H1 as (_ & _ & H3 & H4). repeat split; assumption.
  - match goal with |- context [storeParameter ?slot _ _ ?s] =>
      destruct (storeParameter_completes slot (ElemSizeInBytes (user Array)) L s)
        as (L1 & E1 & H1); [lia|]; exists L1, s end.
    unfold ret in E1. rewrite E1. split; [reflexivity|].
    destruct H1 as (_ & _ & H3 & H4). repeat split; assumption.
Qed.

Lemma length_omap_cons {A B : Type} (f : A -> option B) (x : A) (l : list A) :
  length (omap f (x :: l)) = (length (omap f [x]) + length (omap f l))%nat.
Proof. simpl. destruct (f x); reflexivity. Qed.

Lemma launchArrayParameters_complete l L st :
  (forall i, i ∈ l -> (i < length Prog)%nat) ->
  (forall Array, Array ∈ omap (requiredArray Prog K) l ->
     exists DevArray,
       assoc_lookup (BasePtrId (user Array)) (DeviceAllocations st) = Some (Some DevArray)) ->
  (Index L + length (omap (requiredArray Prog K) l) <= length (ArgSizes L))%nat ->
  exists L1 st1,
    fold_gen l L (launchArrayParameter Opt Prog K) st = Ok L1 st1 /\
    launchFrame (length (omap (requiredArray Prog K) l)) L st L1 st1.
Proof.
  revert L st. induction l as [|i l IH]; intros L st Hl Hdev Hle.
  { exists L, st. split; [reflexivity|]. repeat split. simpl. lia. }
  rewrite length_omap_cons in Hle |- *.
  destruct (launchArrayParameter_completes L i st) as (L1 & st1 & E1 & H1 & H2 & H3 & H4).
  - apply Hl. by left.
  - intros Array HA. apply Hdev. simpl. rewrite HA. by left.
  - lia.
  - destruct (IH L1 st1) as (L2 & st2 & E2 & G1 & G2 & G3 & G4).
    + intros j Hj. apply Hl. by right.
    + intros Array HA. rewrite H2. apply Hdev. simpl.
      destruct (requiredArray Prog K i); [by right | exact HA].
    + lia.
    + exists L2, st2. split; [simpl; unfold bind; by rewrite E1|].
      repeat split; [congruence | congruence | lia | congruence].
Qed.

Lemma launchValueParameter_completes L V st :
  (Index L < length (ArgSizes L))%nat ->
  exists L1, launchValueParameter L V st = Ok L1 st /\ launchFrame 1 L st L1 st.
Proof. apply storeParameter_completes. Qed.

Lemma launchIdParameters_complete Ids L st :
  (forall Id, Id ∈ Ids -> is_Some (assoc_lookup Id (IDToValue st))) ->
  (Index L + length Ids <= length (ArgSizes L))%nat ->
  exists L1, fold_gen Ids L launchIdParameter st = Ok L1 st /\
             launchFrame (length Ids) L st L1 st.
Proof.
  revert L. induction Ids as [|Id Ids IH]; intros L HI Hle; simpl in *.
  { exists L. split; [reflexivity|]. repeat split. lia. }
  destruct (HI Id ltac:(left)) as [Val EV].
  destruct (launchValueParameter_completes L Val st) as (L1 & E1 & _ & _ & H3 & H4); [lia|].
  destruct (IH L1) as (L2 & E2 & _ & _ & G3 & G4).
  - intros Id' Hin. apply HI. by right.
  - lia.
  - exists L2. split.
    + unfold launchIdParameter, IDToValue_at. unfold bind at 1 2 3. unfold get.
      rewrite EV. unfold ret at 1. rewrite E1. exact E2.
    + repeat split; [lia | congruence].
Qed.

Lemma launchValueParameters_complete SV L st :
  (Index L + length SV <= length (ArgSizes L))%nat ->
  exists L1, fold_gen SV L launchValueParameter st = Ok L1 st /\
             launchFrame (length SV) L st L1 st.
Proof.
  revert L. induction SV as [|V SV IH]; intros L Hle; simpl in *.
  { exists L. split; [reflexivity|]. repeat split. lia. }
  destruct (launchValueParameter_completes L V st) as (L1 & E1 & _ & _ & H3 & H4); [lia|].
  destruct (IH L1) as (L2 & E2 & _ & _ & G3 & G4); [lia|].
  exists L2. split; [unfold bind; by rewrite E1|].
  repeat split; [lia | congruence].
Qed.

(** X18. Without managed memory, [createLaunchParameters] completes when
    each array the kernel requires has a device allocation on record, the
    host iterators and the parameters of the kernel are bound, and the
    kernel function has a formal argument for each of these and for each
    value of the closure. *)
Theorem launch_parameters_are_created F SV st :
  (forall Array, Array ∈ requiredArrays Prog K ->
     exists DevArray,
       assoc_lookup (BasePtrId (user Array)) (DeviceAllocations st) = Some (Some DevArray)) ->
  (forall Id, Id ∈ space_set K ++ space_param K ->
     is_Some (assoc_lookup Id (IDToValue st))) ->
  (length (requiredArrays Prog K) + length (space_set K) + length (space_param K)
   + length SV <= arg_size F)%nat ->
  exists L st', createLaunchParameters Opt Prog K F SV st = Ok L st'.
Proof.
  intros Hdev Hids Hle. unfold createLaunchParameters. cbv zeta.
  set (L0 := mkLaunchState 0 _ _).
  assert (H0 : length (ArgSizes L0) = arg_size F) by apply length_replicate.
  destruct (launchArrayParameters_complete (seq 0 (length Prog)) L0 st)
    as (La & sta & Ea & Ha1 & Ha2 & Ha3 & Ha4).
  { intros i Hi. apply list_elem_of_In, in_seq in Hi. lia. }
  { exact Hdev. }
  { fold (requiredArrays Prog K). rewrite H0. change (Index L0) with 0%nat. lia. }
  fold (requiredArrays Prog K) in Ha3. change (Index L0) with 0%nat in Ha3.
  destruct (launchIdParameters_complete (space_set K) La sta) as (Lb & Eb & _ & _ & Hb3 & Hb4).
  { intros Id Hin. rewrite Ha1. apply Hids, elem_of_app. by left. }
  { lia. }
  destruct (launchIdParameters_complete (space_param K) Lb sta) as (Lc & Ec & _ & _ & Hc3 & Hc4).
  { intros Id Hin. rewrite Ha1. apply Hids, elem_of_app. by right. }
  { lia. }
  destruct (launchValueParameters_complete SV Lc sta) as (Ld & Ed & _). { lia. }
  unfold bind. rewrite Ea, Eb, Ec, Ed. by eexists _, _.
Qed.

End LaunchCompletes.

Lemma launch_parameters_are_created_witness :
  exists L st',
    createLaunchParameters Example.device Example.prog Example.kernel0
      (mkFunction "FUNC_f_KERNEL_0" (Some 0)
         [getInt8PtrTy 1; FloatTy; getInt8PtrTy 1; getInt64Ty]) []
      Example.initialized = Ok L st'.
Proof.
  apply launch_parameters_are_created.
  - reflexivity.
  - intros Array HA. apply list_elem_of_In in HA. simpl in HA.
    destruct HA as [<-|[<-|[<-|[]]]]; eexists; vm_compute; reflexivity.
  - intros Id Hin. apply (bool_decide_unpack _).
    apply list_elem_of_In in Hin. simpl in Hin.
    destruct Hin as [<-|[]]; vm_compute; exact I.
  - vm_compute. lia.
Defined.
